(** * A shallow embedding of the backup pipeline of db-backup-utility (dbu)

    Sources embedded here:
    - internal/util/path.go          BuildObjectKey, BuildPrefix (with Go's path.Join / path.Clean
                                      and strings.Trim, and the time layout "20060102T150405Z")
    - internal/storage/storage.go    ManifestKey, ObjectInfo.IsManifest (strings.HasSuffix)
    - internal/cryptoutil/key.go     DecryptConfig
    - internal/compress (part_008)   WrapWriter / WrapReader
    - app (internal/db/sqlite.go)    App.Backup, App.Restore, applyRetention, buildExtension,
                                      statusFromErr

    Go strings are byte strings; they are modelled as [list ascii].  Payload bytes are
    [list byte].  The codecs (gzip, zstd, DARE, AES-GCM) and the other collaborators
    (lock, storage backend, adapter, notifier) are parameters of the model. *)

From Stdlib Require Import Ascii String.
From Stdlib Require Import List Bool Arith ZArith Lia Sorting.Sorted Sorting.Permutation.
Import ListNotations.
Open Scope list_scope.

(** ** Go strings *)

Definition gostr := list ascii.

(** A Go string literal. *)
Definition s2l (s : string) : gostr := list_ascii_of_string s.

Definition slash : ascii := "/"%char.
Definition dot : ascii := "."%char.

(** Byte-wise lexicographic comparison, Go's [<] on strings. *)
Fixpoint str_compare (a b : gostr) : comparison :=
  match a, b with
  | [], [] => Eq
  | [], _ :: _ => Lt
  | _ :: _, [] => Gt
  | x :: a', y :: b' =>
      match Nat.compare (nat_of_ascii x) (nat_of_ascii y) with
      | Eq => str_compare a' b'
      | c => c
      end
  end.

Definition str_lt (a b : gostr) : Prop := str_compare a b = Lt.

(** [strings.HasPrefix] and [strings.HasSuffix]. *)
Fixpoint HasPrefix (s pre : gostr) {struct pre} : bool :=
  match pre with
  | [] => true
  | p :: pre' =>
      match s with
      | c :: s' => Ascii.eqb p c && HasPrefix s' pre'
      | [] => false
      end
  end.

Fixpoint gostr_eqb (a b : gostr) : bool :=
  match a, b with
  | [], [] => true
  | x :: a', y :: b' => Ascii.eqb x y && gostr_eqb a' b'
  | _, _ => false
  end.

Definition HasSuffix (s suf : gostr) : bool :=
  (length suf <=? length s) && gostr_eqb (skipn (length s - length suf) s) suf.

(** [strings.TrimPrefix]. *)
Definition TrimPrefix (s pre : gostr) : gostr :=
  if HasPrefix s pre then skipn (length pre) s else s.

(** [strings.Trim(s, "/")]: drop every leading and trailing slash. *)
Fixpoint drop_slashes (s : gostr) : gostr :=
  match s with
  | c :: s' => if Ascii.eqb c slash then drop_slashes s' else s
  | [] => []
  end.

Definition TrimSlash (s : gostr) : gostr := rev (drop_slashes (rev (drop_slashes s))).

(** ** Go's [path.Clean]

    The loop of [path.Clean] reads the path byte by byte; [copying] is true while the
    inner [for ; r < n && path[r] != '/'; r++] loop of the default case is running.
    The output buffer [out] is kept reversed; its length is [out.w]. *)

Definition at_sep (s : gostr) : bool :=
  match s with
  | [] => true
  | d :: _ => Ascii.eqb d slash
  end.

(** [out.w--; for out.w > dotdot && out.index(out.w) != '/' { out.w-- }]:
    [last] is the byte just removed. *)
Fixpoint pop_seg (out : gostr) (last : ascii) (dotdot : nat) : gostr :=
  match out with
  | [] => []
  | y :: out' =>
      if (dotdot <? length out) && negb (Ascii.eqb last slash)
      then pop_seg out' y dotdot else out
  end.

(** The [..] case of the loop. *)
Definition dotdot_step (rooted : bool) (out : gostr) (dotdot : nat) : gostr * nat :=
  if dotdot <? length out then
    match out with
    | x :: out' => (pop_seg out' x dotdot, dotdot)
    | [] => (out, dotdot)
    end
  else if negb rooted then
    let out1 := if 0 <? length out then slash :: out else out in
    (dot :: dot :: out1, length out1 + 2)
  else (out, dotdot).

(** [if rooted && out.w != 1 || !rooted && out.w != 0 { out.append('/') }] *)
Definition sep_needed (rooted : bool) (out : gostr) : bool :=
  if rooted then negb (length out =? 1) else negb (length out =? 0).

Definition start_seg (rooted : bool) (c : ascii) (out : gostr) : gostr :=
  c :: (if sep_needed rooted out then slash :: out else out).

Fixpoint clean_loop (rooted : bool) (s : gostr) (copying : bool) (out : gostr)
  (dotdot : nat) {struct s} : gostr * nat :=
  match s with
  | [] => (out, dotdot)
  | c :: s1 =>
      if copying && negb (Ascii.eqb c slash) then
        clean_loop rooted s1 true (c :: out) dotdot
      else if Ascii.eqb c slash then clean_loop rooted s1 false out dotdot
      else if Ascii.eqb c dot && at_sep s1 then clean_loop rooted s1 false out dotdot
      else
        match s1 with
        | d :: s2 =>
            if Ascii.eqb c dot && Ascii.eqb d dot && at_sep s2 then
              let (out', dd') := dotdot_step rooted out dotdot in
              clean_loop rooted s2 false out' dd'
            else clean_loop rooted s1 true (start_seg rooted c out) dotdot
        | [] => clean_loop rooted s1 true (start_seg rooted c out) dotdot
        end
  end.

Definition Clean (p : gostr) : gostr :=
  match p with
  | [] => [dot]
  | c :: _ =>
      let rooted := Ascii.eqb c slash in
      let out := fst (clean_loop rooted p false (if rooted then [slash] else [])
                                             (if rooted then 1 else 0)) in
      if length out =? 0 then [dot] else rev out
  end.

(** The buffer of [path.Join]: non-empty elements (and empty ones once the buffer is
    non-empty) joined by slashes. *)
Fixpoint join_buf (buf : gostr) (elems : list gostr) : gostr :=
  match elems with
  | [] => buf
  | e :: es =>
      if (0 <? length buf) || (0 <? length e) then
        join_buf ((if 0 <? length buf then buf ++ [slash] else buf) ++ e) es
      else join_buf buf es
  end.

Definition Join (elems : list gostr) : gostr :=
  if fold_left (fun n e => n + length e) elems 0 =? 0 then []
  else Clean (join_buf [] elems).

(** ** The time layout "20060102T150405Z"

    A [time.Time] after [.UTC()] is seen by [Format] through its civil fields; the model
    keeps them at one-second resolution. *)
Record civil := mkCivil {
  year : Z; month : Z; day : Z; hour : Z; minute : Z; second : Z }.

(** Order of two instants: comparison of their civil fields, most significant first. *)
Definition civil_compare (t1 t2 : civil) : comparison :=
  match Z.compare (year t1) (year t2) with
  | Eq =>
    match Z.compare (month t1) (month t2) with
    | Eq =>
      match Z.compare (day t1) (day t2) with
      | Eq =>
        match Z.compare (hour t1) (hour t2) with
        | Eq =>
          match Z.compare (minute t1) (minute t2) with
          | Eq => Z.compare (second t1) (second t2)
          | c => c
          end
        | c => c
        end
      | c => c
      end
    | c => c
    end
  | c => c
  end.

Definition utod (u : Z) : ascii := ascii_of_nat (48 + Z.to_nat u).

Fixpoint digits_aux (fuel : nat) (u : Z) (acc : gostr) : gostr :=
  match fuel with
  | O => acc
  | S f =>
      let acc' := utod (u mod 10)%Z :: acc in
      if (u <? 10)%Z then acc' else digits_aux f (u / 10)%Z acc'
  end.

(** time.appendInt: sign, then the decimal digits left-padded with zeros to [width]. *)
Definition appendInt (b : gostr) (x : Z) (width : nat) : gostr :=
  let sign := if (x <? 0)%Z then [("-")%char] else [] in
  let u := Z.abs x in
  if (Nat.eqb width 2) && (u <? 100)%Z then
    b ++ sign ++ [utod (u / 10)%Z; utod (u mod 10)%Z]
  else if (Nat.eqb width 4) && (u <? 10000)%Z then
    b ++ sign ++ [utod (u / 1000)%Z; utod (u / 100 mod 10)%Z; utod (u / 10 mod 10)%Z;
                  utod (u mod 10)%Z]
  else
    let ds := digits_aux 64 u [] in
    b ++ sign ++ repeat "0"%char (width - length ds) ++ ds.

Definition FormatKeyTime (t : civil) : gostr :=
  let b := appendInt [] (year t) 4 in
  let b := appendInt b (month t) 2 in
  let b := appendInt b (day t) 2 in
  let b := b ++ [("T")%char] in
  let b := appendInt b (hour t) 2 in
  let b := appendInt b (minute t) 2 in
  let b := appendInt b (second t) 2 in
  b ++ [("Z")%char].

(** ** util.BuildObjectKey and util.BuildPrefix *)

Definition BuildObjectKey (prefix dbType dbName backupType : gostr) (when : civil)
  (extension : gostr) : gostr :=
  let parts := if 0 <? length prefix then [TrimSlash prefix] else [] in
  let parts := parts ++ [dbType; dbName] in
  let suffix := FormatKeyTime when ++ [("_")%char] ++ backupType in
  let suffix := if 0 <? length extension then suffix ++ [dot] ++ extension else suffix in
  let parts := parts ++ [suffix] in
  Join parts.

Definition BuildPrefix (prefix dbType dbName : gostr) : gostr :=
  let parts := if 0 <? length prefix then [TrimSlash prefix] else [] in
  let parts := if 0 <? length dbType then parts ++ [dbType] else parts in
  let parts := if 0 <? length dbName then parts ++ [dbName] else parts in
  Join parts.

(** ** storage.ManifestKey and app.buildExtension *)

Definition ManifestSuffix : gostr := s2l ".manifest.json".

Definition ManifestKey (objectKey : gostr) : gostr := objectKey ++ ManifestSuffix.

Definition TypeNone : gostr := s2l "none".
Definition TypeGzip : gostr := s2l "gzip".
Definition TypeZstd : gostr := s2l "zstd".

Definition buildExtension (compression : gostr) (encryption : bool) : gostr :=
  let ext := s2l "backup" in
  let ext := if gostr_eqb compression TypeGzip then ext ++ s2l ".gz"
             else if gostr_eqb compression TypeZstd then ext ++ s2l ".zst"
             else ext in
  let ext := if encryption then ext ++ s2l ".enc" else ext in
  TrimPrefix ext [dot].

Definition t20240101 : civil := mkCivil 2024%Z 1%Z 1%Z 10%Z 0%Z 0%Z.

(** ** Payload bytes, Go errors and the library functions the code calls *)

Definition bytes := list Byte.byte.

(** A Go [(T, error)] return where the value is only used when the error is nil. *)
Inductive result (A : Type) : Type :=
| Ok (a : A)
| Err (e : gostr).
Arguments Ok {A} a.
Arguments Err {A} e.

Definition rbind {A B} (r : result A) (f : A -> result B) : result B :=
  match r with Ok a => f a | Err e => Err e end.

(** [storage.ObjectInfo]. *)
Record ObjectInfo := mkObjectInfo {
  Key : gostr;
  Size : Z;
  Modified : Z;          (* Unix seconds *)
  IsManifestObj : bool   (* the field IsManifest *)
}.

(** The Go library (and vendored) functions used by the code, as parameters.  Each
    stream codec maps the whole input of a writer (or reader) to its whole output,
    or to the error the stream reports. *)
Record GoLib := mkGoLib {
  TrimSpace : gostr -> gostr;                  (* strings.TrimSpace *)
  b64decode : gostr -> result bytes;           (* base64.StdEncoding.DecodeString *)
  hexdecode : gostr -> result bytes;           (* hex.DecodeString *)
  gzip_w : bytes -> result bytes;              (* gzip.NewWriter, Write, Close *)
  zstd_w : bytes -> result bytes;              (* zstd.NewWriter, Write, Close *)
  gzip_r : bytes -> result bytes;              (* gzip.NewReader, read to EOF *)
  zstd_r : bytes -> result bytes;              (* zstd.NewReader, read to EOF *)
  dare_w : bytes -> bytes -> result bytes;     (* sio.EncryptWriter(key), Write, Close *)
  dare_r : bytes -> bytes -> result bytes;     (* sio.DecryptReader(key), read to EOF *)
  (* aead.Open(nil, nonce, payload, nil) for the AES-GCM of a valid AES key:
     Go's pair (plain, err), [None] standing for a nil slice or a nil error *)
  gcm_Open : bytes -> bytes -> bytes -> option bytes * option gostr;
  LoadLocation : gostr -> result gostr;        (* time.LoadLocation, a zone by name *)
  ParseClock : gostr -> gostr -> result (Z * Z); (* time.ParseInLocation("15:04", v, loc) *)
  SortSlice : list ObjectInfo -> list ObjectInfo (* sort.Slice by Modified.After *)
}.

(** ** cryptoutil.ParseKey *)

Definition ParseKey (lib : GoLib) (key : gostr) : result bytes :=
  if gostr_eqb key [] then Err (s2l "encryption key is empty") else
  let trimmed := TrimSpace lib key in
  let decoded :=
    if HasPrefix trimmed (s2l "base64:") then b64decode lib (TrimPrefix trimmed (s2l "base64:"))
    else if HasPrefix trimmed (s2l "hex:") then hexdecode lib (TrimPrefix trimmed (s2l "hex:"))
    else match b64decode lib trimmed with
         | Ok d => Ok d
         | Err _ => hexdecode lib trimmed
         end in
  match decoded with
  | Err e => Err (s2l "decode key: " ++ e)
  | Ok data =>
      if Nat.eqb (length data) 32 then Ok data
      else Err (appendInt (s2l "invalid key length: ") (Z.of_nat (length data)) 0
                ++ s2l " (expected 32 bytes)")
  end.

(** ** compress.WrapWriter and compress.WrapReader *)

Definition WrapWriter (lib : GoLib) (kind : gostr) : result (bytes -> result bytes) :=
  if gostr_eqb kind [] || gostr_eqb kind TypeNone then Ok (fun d => Ok d)
  else if gostr_eqb kind TypeGzip then Ok (gzip_w lib)
  else if gostr_eqb kind TypeZstd then Ok (zstd_w lib)
  else Err (s2l "unsupported compression: " ++ kind).

Definition WrapReader (lib : GoLib) (kind : gostr) : result (bytes -> result bytes) :=
  if gostr_eqb kind [] || gostr_eqb kind TypeNone then Ok (fun d => Ok d)
  else if gostr_eqb kind TypeGzip then Ok (gzip_r lib)
  else if gostr_eqb kind TypeZstd then Ok (zstd_r lib)
  else Err (s2l "unsupported compression: " ++ kind).

(** ** The configuration fields read by the backup and restore paths *)

Record Config := mkConfig {
  LockFile : gostr;
  DBType : gostr;
  Database : gostr;
  BackupType : gostr;
  Compression : gostr;
  Encryption : bool;
  EncryptionKey : gostr;
  Idempotent : bool;
  KeepDays : Z;
  KeepLast : Z;
  MaxBytes : Z;
  StoragePrefix : gostr;
  WindowStart : gostr;
  WindowEnd : gostr;
  Timezone : gostr
}.

(** ** The encode task of [App.Backup] (sqlite.go, the second [eg.Go])

    A writer is the function from what is written to it to what reaches the pipe.
    [writer] starts as the pipe itself; each wrapper is put in front of the current
    writer, so the last wrapper installed is the first to see the dump bytes.  The
    closers are closed in reverse order, which flushes each wrapper into the next. *)
Definition encode_task (lib : GoLib) (cfg : Config) (dump : result bytes) : result bytes :=
  let writer : bytes -> result bytes := fun d => Ok d in
  let comp :=
    if negb (gostr_eqb (Compression cfg) []) && negb (gostr_eqb (Compression cfg) TypeNone)
    then rbind (WrapWriter lib (Compression cfg))
           (fun compWriter => Ok (fun d => rbind (compWriter d) writer))
    else Ok writer in
  rbind comp (fun writer =>
  let enc :=
    if Encryption cfg then
      rbind (ParseKey lib (EncryptionKey cfg)) (fun keyBytes =>
        Ok (fun d => rbind (dare_w lib keyBytes d) writer))
    else Ok writer in
  rbind enc (fun writer =>
  (* io.Copy(writer, dumpStream.Reader), then the closers *)
  rbind dump writer)).

(** ** The read side of [App.Restore] (sqlite.go, from [payload := reader] to the copy
    into the restore stream), for a manifest with fields [mEncryption] and
    [mCompression].  The result is what reaches the restore stream's writer. *)
Definition decode_chain (lib : GoLib) (cfg : Config) (mEncryption : bool)
  (mCompression : gostr) (stored : bytes) : result bytes :=
  let payload : result bytes := Ok stored in
  let payload :=
    if mEncryption || Encryption cfg then
      if gostr_eqb (EncryptionKey cfg) [] then
        Err (s2l "encryption key is required to restore encrypted backup")
      else rbind (ParseKey lib (EncryptionKey cfg)) (fun keyBytes =>
             rbind payload (dare_r lib keyBytes))
    else payload in
  let compression := if gostr_eqb mCompression [] then Compression cfg else mCompression in
  match payload with
  | Err e => Err e
  | Ok p => rbind (WrapReader lib compression) (fun compReader => compReader p)
  end.

(** A backup's transform chain followed by the restore's, with the manifest that the
    backup writes (same compression and encryption settings). *)
Definition round_trip (lib : GoLib) (cfg : Config) (d : bytes) : result bytes :=
  rbind (encode_task lib cfg (Ok d))
    (decode_chain lib cfg (Encryption cfg) (Compression cfg)).

(** ** cryptoutil.DecryptConfig *)

Definition configMagic : gostr := s2l "DBU1".
Definition configVer : Z := 1.

(** [string(b)] for a byte slice. *)
Definition bytes_str (b : bytes) : gostr := map ascii_of_byte b.

(** [binary.BigEndian.Uint16] (only called on two bytes). *)
Definition Uint16BE (b : bytes) : Z :=
  match b with
  | b0 :: b1 :: _ =>
      Z.of_nat (nat_of_ascii (ascii_of_byte b0)) * 256 + Z.of_nat (nat_of_ascii (ascii_of_byte b1))
  | _ => 0
  end%Z.

(** [aes.NewCipher] fails exactly on a key that is not 16, 24 or 32 bytes long;
    [cipher.NewGCM] does not fail on an AES block. *)
Definition aes_NewCipher_err (key : bytes) : option gostr :=
  match length key with
  | 16 | 24 | 32 => None
  | n => Some (appendInt (s2l "crypto/aes: invalid key size ") (Z.of_nat n) 0)
  end.

Definition DecryptConfig (lib : GoLib) (ciphertext key : bytes) : option bytes * option gostr :=
  if length ciphertext <? 4 + 2 + 12 then (None, Some (s2l "config cipher too short"))
  else if negb (gostr_eqb (bytes_str (firstn 4 ciphertext)) configMagic) then
    (None, Some (s2l "invalid config header"))
  else
    let ver := Uint16BE (firstn 2 (skipn 4 ciphertext)) in
    if negb (Z.eqb ver configVer) then
      (None, Some (appendInt (s2l "unsupported config version ") ver 0))
    else
      let nonce := firstn 12 (skipn 6 ciphertext) in
      let payload := skipn 18 ciphertext in
      match aes_NewCipher_err key with
      | Some e => (None, Some e)
      | None =>
          match gcm_Open lib key nonce payload with
          | (_, Some e) => (None, Some e)
          | (plain, None) => (plain, None)
          end
      end.

(** ** util.InWindow

    [clock loc] is the hour and minute of [now] in the zone [loc].  [current],
    [startToday] and [endToday] are built on the same local date at minute resolution,
    so their order is the order of their minutes of the day. *)
Definition InWindow (lib : GoLib) (clock : gostr -> Z * Z) (start end_ tz : gostr)
  : result bool :=
  if gostr_eqb start [] && gostr_eqb end_ [] then Ok true else
  let loc := if gostr_eqb tz [] then Ok (s2l "Local")
             else match LoadLocation lib tz with
                  | Ok l => Ok l
                  | Err e => Err (s2l "invalid timezone: " ++ e)
                  end in
  rbind loc (fun loc =>
  let parse v := if gostr_eqb v [] then Ok (0, 0)%Z else ParseClock lib v loc in
  match parse start with
  | Err e => Err (s2l "invalid window start: " ++ e)
  | Ok (sh, sm) =>
  match parse end_ with
  | Err e => Err (s2l "invalid window end: " ++ e)
  | Ok (eh, em) =>
      let '(ch, cm) := clock loc in
      let current := (ch * 60 + cm)%Z in
      let startToday := (sh * 60 + sm)%Z in
      let endToday := (eh * 60 + em)%Z in
      if negb (gostr_eqb start []) && gostr_eqb end_ [] then Ok (startToday <=? current)%Z
      else if gostr_eqb start [] && negb (gostr_eqb end_ []) then Ok (current <=? endToday)%Z
      else if (startToday <? endToday)%Z then
        Ok ((startToday <=? current) && (current <=? endToday))%Z
      else Ok ((startToday <=? current) || (current <=? endToday))%Z
  end
  end).

(** ** App.applyRetention

    The loop over the sorted artifacts; it returns the keys passed to
    [Storage.Delete], in order.  [totalSize] is an int64 holding a sum of object
    sizes; it is modelled without wrap-around. *)
Fixpoint retention_loop (keepLast keepDays maxBytes cutoff : Z) (i : Z)
  (backups : list ObjectInfo) (totalSize : Z) : list gostr :=
  match backups with
  | [] => []
  | obj :: rest =>
      if (0 <? keepLast) && (i <? keepLast) then
        retention_loop keepLast keepDays maxBytes cutoff (i + 1) rest totalSize
      else if (0 <? keepDays) && (cutoff <? Modified obj) then
        retention_loop keepLast keepDays maxBytes cutoff (i + 1) rest totalSize
      else if (0 <? maxBytes) && (totalSize <=? maxBytes) then
        retention_loop keepLast keepDays maxBytes cutoff (i + 1) rest totalSize
      else Key obj :: ManifestKey (Key obj)
             :: retention_loop keepLast keepDays maxBytes cutoff (i + 1) rest (totalSize - Size obj)
  end%Z.

(** [cutoffOf n] is [time.Now().AddDate(0, 0, n)]; [objects] is what
    [Storage.List] returned. *)
Definition applyRetention (lib : GoLib) (cfg : Config) (cutoffOf : Z -> Z)
  (objects : result (list ObjectInfo)) : list gostr :=
  if (KeepDays cfg =? 0)%Z && (KeepLast cfg =? 0)%Z && (MaxBytes cfg =? 0)%Z then [] else
  match objects with
  | Err _ => []
  | Ok objects =>
      let backups := filter (fun obj => negb (IsManifestObj obj)) objects in
      let backups := SortSlice lib backups in
      let cutoff := cutoffOf (- KeepDays cfg)%Z in
      let totalSize := fold_left (fun acc obj => acc + Size obj)%Z backups 0%Z in
      retention_loop (KeepLast cfg) (KeepDays cfg) (MaxBytes cfg) cutoff 0 backups totalSize
  end.

(** ** [strings.EqualFold] against the ASCII literals "incremental" and "differential".
    Unicode simple folding maps no non-ASCII rune to a letter of these two words, so
    ASCII case folding decides it. *)
Definition lower (c : ascii) : ascii :=
  let n := nat_of_ascii c in
  if (65 <=? n) && (n <=? 90) then ascii_of_nat (n + 32) else c.

Definition EqualFold (s t : gostr) : bool := gostr_eqb (map lower s) (map lower t).

Definition statusFromErr (err : option gostr) : gostr :=
  match err with None => s2l "success" | Some _ => s2l "failed" end.

(** ** The storage backend (storage.Local): the files under the base path, by key *)

Record Obj := mkObj { data : bytes; mtime : Z }.

Definition Store := list (gostr * Obj).

Fixpoint lookup (k : gostr) (s : Store) : option Obj :=
  match s with
  | [] => None
  | (k', o) :: s' => if gostr_eqb k' k then Some o else lookup k s'
  end.

Definition remove_key (k : gostr) (s : Store) : Store :=
  filter (fun e => negb (gostr_eqb (fst e) k)) s.

Definition store_put (k : gostr) (o : Obj) (s : Store) : Store := (k, o) :: remove_key k s.

(** [Local.List]: every file under the directory of the prefix (all of them for an
    empty prefix or "."). *)
Definition under (prefix k : gostr) : bool :=
  gostr_eqb prefix [] || gostr_eqb prefix [dot] || HasPrefix k (prefix ++ [slash]).

Definition listing (prefix : gostr) (s : Store) : list ObjectInfo :=
  map (fun e => mkObjectInfo (fst e) (Z.of_nat (length (data (snd e)))) (mtime (snd e))
                  (HasSuffix (fst e) ManifestSuffix))
      (filter (fun e => under prefix (fst e)) s).

(** ** The environment of one [App.Backup] call: what the collaborators return *)

Record Env := mkEnv {
  acquire_err : option gostr;          (* lock.Acquire *)
  clock : gostr -> Z * Z;              (* hour and minute of time.Now() in a zone *)
  now : civil;                         (* time.Now(), as the key formats it *)
  now_unix : Z;                        (* time.Now(), as a file's modification time *)
  cutoffOf : Z -> Z;                   (* time.Now().AddDate(0, 0, n) *)
  validate_err : option gostr;         (* Adapter.Validate *)
  cap_incremental : bool;              (* Adapter.Capabilities() *)
  cap_differential : bool;
  adapter_name : gostr;
  exists_err : option gostr;           (* Exists: os.Stat failing other than not-exist *)
  dump_err : option gostr;             (* Adapter.Dump *)
  dump_read : result bytes;            (* what reading dumpStream.Reader yields *)
  wait_err : option gostr;             (* dumpStream.Wait() *)
  wait_cuts_pipe : bool;               (* a failed Wait's CloseWithError reaches the sink
                                          before it has read everything *)
  put_fail : gostr -> option gostr;    (* Put failing on its own (directories, open) *)
  put_partial : gostr -> option bytes; (* what a failed Put leaves at its key *)
  stat_err : option gostr;             (* Storage.Stat *)
  list_err : option gostr;             (* Storage.List *)
  manifest_json : bytes;               (* json.MarshalIndent(manifest) *)
  has_notifier : bool                  (* a.Notifier != nil *)
}.

(** ** What [App.Backup] does, as a trace of calls *)

Inductive event :=
| EvAcquire
| EvRelease
| EvExists (key : gostr)
| EvDump
| EvWait                       (* dumpStream.Wait() *)
| EvJoin                       (* eg.Wait() *)
| EvPut (key : gostr)
| EvStat (key : gostr)
| EvLog (msg : gostr)
| EvDelete (key : gostr)
| EvNotify (status : gostr) (err : option gostr).

(** The state: the store, the calls made so far, and the local [opErr] that the
    deferred notification reads. *)
Record St := mkSt { store : Store; trace : list event; opErr : option gostr }.

Definition M (A : Type) := St -> result A * St.

Definition mret {A} (a : A) : M A := fun s => (Ok a, s).

Definition mbind {A B} (m : M A) (f : A -> M B) : M B :=
  fun s => match m s with
           | (Ok a, s') => f a s'
           | (Err e, s') => (Err e, s')
           end.

Notation "'let*' x ':=' m 'in' k" := (mbind m (fun x => k))
  (at level 200, x name, m at level 100, k at level 200).

Definition add_ev (ev : event) (s : St) : St := mkSt (store s) (trace s ++ [ev]) (opErr s).

Definition emit (ev : event) : M unit := fun s => (Ok tt, add_ev ev s).

Definition get : M St := fun s => (Ok s, s).

Definition set_store (st : Store) : M unit := fun s => (Ok tt, mkSt st (trace s) (opErr s)).

(** [return nil, err] *)
Definition fail {A} (e : gostr) : M A := fun s => (Err e, s).

(** [opErr = err; return nil, err] *)
Definition fail_op {A} (e : gostr) : M A := fun s => (Err e, mkSt (store s) (trace s) (Some e)).

(** [Storage.Put] of a stream: the sink reads [content] (the bytes, or the error the
    pipe was closed with) and returns its error. *)
Definition storage_put (env : Env) (key : gostr) (content : result bytes) : M (option gostr) :=
  fun s =>
    let s := add_ev (EvPut key) s in
    let failed e :=
      (Ok (Some e), mkSt (match put_partial env key with
                          | Some b => store_put key (mkObj b (now_unix env)) (store s)
                          | None => store s
                          end) (trace s) (opErr s)) in
    match put_fail env key with
    | Some e => failed e
    | None =>
        match content with
        | Err e => failed e
        | Ok d => (Ok None, mkSt (store_put key (mkObj d (now_unix env)) (store s)) (trace s) (opErr s))
        end
    end.

Definition storage_delete (key : gostr) : M unit :=
  fun s => (Ok tt, mkSt (remove_key key (store s)) (trace s ++ [EvDelete key]) (opErr s)).

Fixpoint delete_all (keys : list gostr) : M unit :=
  match keys with
  | [] => mret tt
  | k :: ks => let* _ := storage_delete k in delete_all ks
  end.

(** [_ = a.applyRetention(ctx)] *)
Definition retention_st (lib : GoLib) (cfg : Config) (env : Env) : M unit :=
  let* s := get in
  let prefix := BuildPrefix (StoragePrefix cfg) (DBType cfg) (Database cfg) in
  let objects := match list_err env with
                 | Some e => Err e
                 | None => Ok (listing prefix (store s))
                 end in
  delete_all (applyRetention lib cfg (cutoffOf env) objects).

Definition backup_key (cfg : Config) (env : Env) : gostr :=
  BuildObjectKey (StoragePrefix cfg) (DBType cfg) (Database cfg) (BackupType cfg) (now env)
    (buildExtension (Compression cfg) (Encryption cfg)).

Definition in_store (k : gostr) (s : Store) : bool :=
  match lookup k s with Some _ => true | None => false end.

(** From [a.Storage.Stat] to the end of [App.Backup]. *)
Definition backup_finish (lib : GoLib) (cfg : Config) (env : Env) (key : gostr) : M gostr :=
  let* _ := emit (EvStat key) in
  match stat_err env with
  | Some e => fail_op e
  | None =>
      let* merr := storage_put env (ManifestKey key) (Ok (manifest_json env)) in
      let* _ := match merr with
                | Some _ => emit (EvLog (s2l "failed to write manifest"))
                | None => mret tt
                end in
      let* _ := retention_st lib cfg env in
      mret key
  end.

(** From [a.Adapter.Dump] to the join of the two tasks.  The encode task and the sink
    run concurrently with the main goroutine, which calls [dumpStream.Wait()] and only
    then [eg.Wait()]; the sink's calls are recorded between the two. *)
Definition backup_pipeline (lib : GoLib) (cfg : Config) (env : Env) (key : gostr) : M gostr :=
  match dump_err env with
  | Some e => fail_op e
  | None =>
      let* _ := emit EvDump in
      let encoded := encode_task lib cfg (dump_read env) in
      let* _ := emit EvWait in
      match wait_err env with
      | Some e =>
          (* _ = pipeWriter.CloseWithError(err); _ = eg.Wait() *)
          let* _ := storage_put env key (if wait_cuts_pipe env then Err e else encoded) in
          let* _ := emit EvJoin in
          fail_op e
      | None =>
          let* perr := storage_put env key encoded in
          (* the first error of the group: the encode task's, which closes the pipe
             and so also fails the sink, else the sink's *)
          let egErr := match encoded with Err e => Some e | Ok _ => perr end in
          let* _ := emit EvJoin in
          match egErr with
          | Some e => fail_op e
          | None => backup_finish lib cfg env key
          end
      end
  end.

(** [App.Backup] after the lock is held. *)
Definition backup_body (lib : GoLib) (cfg : Config) (env : Env) : M gostr :=
  match InWindow lib (clock env) (WindowStart cfg) (WindowEnd cfg) (Timezone cfg) with
  | Err e => fail e
  | Ok false => fail_op (s2l "current time is outside configured backup window")
  | Ok true =>
  match validate_err env with
  | Some e => fail_op e
  | None =>
  if EqualFold (BackupType cfg) (s2l "incremental") && negb (cap_incremental env) then
    fail_op (s2l "incremental backups are not supported for " ++ adapter_name env) else
  if EqualFold (BackupType cfg) (s2l "differential") && negb (cap_differential env) then
    fail_op (s2l "differential backups are not supported for " ++ adapter_name env) else
  if Encryption cfg && gostr_eqb (EncryptionKey cfg) [] then
    fail_op (s2l "encryption is enabled but encryption_key is empty") else
  let key := backup_key cfg env in
  let* _ :=
    (if Idempotent cfg then
       let* _ := emit (EvExists key) in
       match exists_err env with
       | Some e => fail_op e
       | None =>
           let* s := get in
           if in_store key (store s) then fail_op (s2l "backup already exists: " ++ key)
           else mret tt
       end
     else mret tt) in
  backup_pipeline lib cfg env key
  end
  end.

(** [App.Backup]: the lock, then the body, then the deferred [guard.Release()] and the
    deferred notification, whose status is [statusFromErr(opErr)]. *)
Definition Backup (lib : GoLib) (cfg : Config) (env : Env) (store0 : Store) : result gostr * St :=
  let s0 := add_ev EvAcquire (mkSt store0 [] None) in
  let '(r, s) :=
    match acquire_err env with
    | Some e => fail_op e s0
    | None => let '(r, s) := backup_body lib cfg env s0 in (r, add_ev EvRelease s)
    end in
  (r, if has_notifier env then add_ev (EvNotify (statusFromErr (opErr s)) (opErr s)) s else s).

Definition notifications (tr : list event) : list event :=
  filter (fun ev => match ev with EvNotify _ _ => true | _ => false end) tr.

(** Whether the first event satisfying [p] comes before every event satisfying [q]. *)
Fixpoint occurs_before (p q : event -> bool) (tr : list event) : bool :=
  match tr with
  | [] => false
  | ev :: tr' => if p ev then true else if q ev then false else occurs_before p q tr'
  end.

Definition isWait (ev : event) : bool := match ev with EvWait => true | _ => false end.
Definition isJoin (ev : event) : bool := match ev with EvJoin => true | _ => false end.

(** The same environment with other outcomes for [Storage.Put]. *)
Definition set_puts (env : Env) (pf : gostr -> option gostr) (pp : gostr -> option bytes) : Env := {|
  acquire_err := acquire_err env; clock := clock env; now := now env; now_unix := now_unix env;
  cutoffOf := cutoffOf env; validate_err := validate_err env;
  cap_incremental := cap_incremental env; cap_differential := cap_differential env;
  adapter_name := adapter_name env; exists_err := exists_err env; dump_err := dump_err env;
  dump_read := dump_read env; wait_err := wait_err env; wait_cuts_pipe := wait_cuts_pipe env;
  put_fail := pf; put_partial := pp; stat_err := stat_err env; list_err := list_err env;
  manifest_json := manifest_json env; has_notifier := has_notifier env |}.

(** The environment where the Put of the key [mk] fails with [f] (or succeeds, for
    [None]) and leaves [left] behind, the other Puts being as in [env]. *)
Definition with_manifest_put (env : Env) (mk : gostr) (f : option gostr) (left : option bytes) : Env :=
  set_puts env (fun k => if gostr_eqb k mk then f else put_fail env k)
               (fun k => if gostr_eqb k mk then left else put_partial env k).

(** ** The retention rule as the specification words it

    Modelled from the spec: the artifacts (manifests excluded), in the order [sortDesc]
    puts them (newest first), are walked with their position [i] and the remaining
    running total; an artifact is retained when one of the three rules keeps it,
    otherwise it and its manifest are deleted and its size leaves the total. *)
Definition spec_retained (keepLast keepDays maxBytes cutoff : Z) (i : nat) (obj : ObjectInfo)
  (remaining : Z) : bool :=
  (((0 <? keepLast) && (Z.of_nat i <? keepLast))
   || ((0 <? keepDays) && (cutoff <? Modified obj))
   || ((0 <? maxBytes) && (remaining <=? maxBytes)))%Z.

Definition spec_step (keepLast keepDays maxBytes cutoff : Z) (acc : nat * Z * list gostr)
  (obj : ObjectInfo) : nat * Z * list gostr :=
  let '(i, remaining, dels) := acc in
  if spec_retained keepLast keepDays maxBytes cutoff i obj remaining
  then (S i, remaining, dels)
  else (S i, (remaining - Size obj)%Z, dels ++ [Key obj; ManifestKey (Key obj)]).

Definition retention_by_spec (cfg : Config) (cutoff : Z)
  (sortDesc : list ObjectInfo -> list ObjectInfo) (objects : list ObjectInfo) : list gostr :=
  if (KeepDays cfg =? 0)%Z && (KeepLast cfg =? 0)%Z && (MaxBytes cfg =? 0)%Z then [] else
  let artifacts := sortDesc (filter (fun o => negb (IsManifestObj o)) objects) in
  let total := fold_right (fun o acc => (Size o + acc)%Z) 0%Z artifacts in
  snd (fold_left (spec_step (KeepLast cfg) (KeepDays cfg) (MaxBytes cfg) cutoff)
         artifacts (0%nat, total, [])).

(** What [sort.Slice] with [Modified.After] guarantees: newest first. *)
Definition newest_first (a b : ObjectInfo) : Prop := (Modified b <= Modified a)%Z.

(** ** Config encryption (cryptoutil.EncryptConfig, config.decryptConfig,
    config.EncryptConfigFile) over a file system given as an association list *)

Definition str_bytes (s : gostr) : bytes := map byte_of_ascii s.

Definition configVerBytes : bytes := [Byte.x00; Byte.x01].

Definition EncryptConfig (gcm_Seal : bytes -> bytes -> bytes -> bytes) (rand_Read : result bytes)
  (plain key : bytes) : result bytes :=
  let buf := str_bytes configMagic in
  let buf := buf ++ configVerBytes in
  rbind rand_Read (fun nonce =>
  let buf := buf ++ nonce in
  match aes_NewCipher_err key with
  | Some e => Err e
  | None =>
      let ciphertext := gcm_Seal key nonce plain in
      Ok (buf ++ ciphertext)
  end).

Definition decryptConfig (lib : GoLib) (ciphertext : bytes) (key : gostr) : option bytes * option gostr :=
  match ParseKey lib key with
  | Err e => (None, Some e)
  | Ok parsed => DecryptConfig lib ciphertext parsed
  end.

Definition FS := list (gostr * bytes).

Fixpoint fs_lookup (p : gostr) (fs : FS) : option bytes :=
  match fs with
  | [] => None
  | (p', b) :: fs' => if gostr_eqb p' p then Some b else fs_lookup p fs'
  end.

Definition ReadFile (fs : FS) (p : gostr) : result bytes :=
  match fs_lookup p fs with
  | Some b => Ok b
  | None => Err (s2l "open " ++ p ++ s2l ": no such file or directory")
  end.

Definition WriteFile (write_fail : gostr -> option gostr) (fs : FS) (p : gostr) (b : bytes) : result FS :=
  match write_fail p with
  | Some e => Err e
  | None => Ok ((p, b) :: filter (fun e => negb (gostr_eqb (fst e) p)) fs)
  end.

Definition EncryptConfigFile (lib : GoLib) (gcm_Seal : bytes -> bytes -> bytes -> bytes)
  (rand_Read : result bytes) (write_fail : gostr -> option gostr) (fs : FS)
  (inputPath outputPath key : gostr) : result FS :=
  rbind (ReadFile fs inputPath) (fun plain =>
  rbind (ParseKey lib key) (fun parsed =>
  rbind (EncryptConfig gcm_Seal rand_Read plain parsed) (fun ciphertext =>
  WriteFile write_fail fs outputPath ciphertext))).

(** ** util.Retry and notify.Multi.Notify *)

Fixpoint retry_loop (n i : nat) (fn_out : nat -> option gostr) (ctx_pick : nat -> option gostr)
  (err : option gostr) : option gostr * nat :=
  match n with
  | O => (err, i)
  | S n' =>
      match fn_out i with
      | None => (None, S i)
      | Some e =>
          match ctx_pick i with
          | Some ce => (Some ce, S i)
          | None => retry_loop n' (S i) fn_out ctx_pick (Some e)
          end
      end
  end.

Definition Retry (attempts : Z) (fn_out : nat -> option gostr) (ctx_pick : nat -> option gostr)
  : option gostr * nat :=
  if (attempts <=? 1)%Z then (fn_out 0, 1)
  else retry_loop (Z.to_nat attempts) 0 fn_out ctx_pick None.

(** notify.Multi.Notify: [notify t] is what [t.Notify(ctx, event)] returns; the second
    component lists the targets called, in order. *)
Fixpoint Multi_Notify_loop {T} (notify : T -> option gostr) (targets : list (option T))
  (err : option gostr) : option gostr * list T :=
  match targets with
  | [] => (err, [])
  | None :: ts => Multi_Notify_loop notify ts err
  | Some t :: ts =>
      let err := match notify t with Some nerr => Some nerr | None => err end in
      let '(r, called) := Multi_Notify_loop notify ts err in
      (r, t :: called)
  end.

Definition Multi_Notify {T} (notify : T -> option gostr) (targets : list (option T))
  : option gostr * list T :=
  Multi_Notify_loop notify targets None.

Definition non_nil {T} (targets : list (option T)) : list T :=
  flat_map (fun o => match o with Some t => [t] | None => [] end) targets.

(** ** Retention helpers and storage.Local.CleanupOld *)

Definition size_sum (l : list ObjectInfo) : Z := fold_right (fun o acc => (Size o + acc)%Z) 0%Z l.

Definition artifact_keys (o : ObjectInfo) : list gostr := [Key o; ManifestKey (Key o)].

(** storage.Local.CleanupOld: [objects] is what [l.List(ctx, prefix)] returned; the
    two [l.Delete] calls of each eligible object ignore their errors. *)
Definition Local_Delete_ignored (s : Store) (obj : ObjectInfo) : Store :=
  remove_key (ManifestKey (Key obj)) (remove_key (Key obj) s).

Definition CleanupOld (objects : result (list ObjectInfo)) (cutoff : Z) (keep : Z) (s : Store)
  : result (list ObjectInfo) * Store :=
  match objects with
  | Err e => (Err e, s)
  | Ok objects =>
      let eligible := filter (fun obj => (Modified obj <? cutoff)%Z && negb (IsManifestObj obj)) objects in
      let eligible :=
        if (0 <? keep)%Z && (keep <? Z.of_nat (length eligible))%Z
        then firstn (length eligible - Z.to_nat keep) eligible else eligible in
      (Ok eligible, fold_left Local_Delete_ignored eligible s)
  end.

Definition deleted_by (l : list ObjectInfo) (k : gostr) : bool :=
  existsb (fun o => gostr_eqb k (Key o) || gostr_eqb k (ManifestKey (Key o))) l.

(** config.DatabaseConfig ([DatabaseName] is the field Database; [ConnectionTimeout]
    is the time.Duration in nanoseconds). *)
(** ** Database adapters: the commands built by the MySQL, Postgres and Mongo adapters *)

Record DatabaseConfig := mkDatabaseConfig {
  Host : gostr; Port : Z; Username : gostr; Password : gostr; DatabaseName : gostr;
  Params : list (gostr * gostr); SSLMode : gostr; SSLCA : gostr; SSLCert : gostr;
  SSLKey : gostr; ConnectionTimeout : Z }.

(** The fields of config.BackupConfig and config.RestoreConfig the adapters read
    ([BType] is the field Type, [RTables] and [RCollections] those of RestoreConfig). *)
Record BackupConfig := mkBackupConfig {
  BType : gostr; Tables : list gostr; Collections : list gostr;
  IncludeSchema : bool; IncludeData : bool }.

Record RestoreConfig := mkRestoreConfig {
  DryRun : bool; RTables : list gostr; RCollections : list gostr;
  StopOnError : bool; DropExisting : bool }.

(** The command an adapter starts: program, arguments and environment. *)
Record Cmd := mkCmd { Path : gostr; Args : list gostr; CEnv : list gostr }.

Definition Itoa (x : Z) : gostr := appendInt [] x 0.

Definition portOrDefault (port def : Z) : gostr :=
  if (port =? 0)%Z then Itoa def else Itoa port.

Fixpoint map_lookup (k : gostr) (m : list (gostr * gostr)) : option gostr :=
  match m with
  | [] => None
  | (k', v) :: m' => if gostr_eqb k' k then Some v else map_lookup k m'
  end.

Section Adapters.

(** [LookPath name]: exec.LookPath finds the binary; [environ] is os.Environ();
    [int_seconds d] is int(d.Seconds()); [start_err] is what cmd.StdoutPipe or
    cmd.StdinPipe and cmd.Start return; [equalFold] is strings.EqualFold. *)
Variable LookPath : gostr -> bool.

Variable environ : list gostr.

Variable int_seconds : Z -> Z.

Variable start_err : option gostr.

Variable equalFold : gostr -> gostr -> bool.

Definition RequireBinary (name : gostr) : option gostr :=
  if LookPath name then None else Some (s2l "required binary not found: " ++ name).

Definition MergeEnv (extra : list gostr) : list gostr := environ ++ extra.

Definition check_tools (allowMissingTools : bool) (names : list gostr) : option gostr :=
  if allowMissingTools then None
  else fold_left (fun acc n => match acc with Some e => Some e | None => RequireBinary n end) names None.

Definition start (c : Cmd) : result Cmd :=
  match start_err with Some e => Err e | None => Ok c end.

Definition unsupported_type (engine : gostr) (backup : BackupConfig) : option gostr :=
  if negb (gostr_eqb (BType backup) []) && negb (gostr_eqb (BType backup) (s2l "full"))
  then Some (engine ++ s2l " does not support " ++ BType backup ++ s2l " backups in this version")
  else None.

Definition connect_timeout_arg (cfg : DatabaseConfig) : list gostr :=
  if (0 <? ConnectionTimeout cfg)%Z
  then [s2l "--connect-timeout=" ++ Itoa (int_seconds (ConnectionTimeout cfg))] else [].

Definition buildMySQLEnv (cfg : DatabaseConfig) : list gostr :=
  if gostr_eqb (Password cfg) [] then [] else [s2l "MYSQL_PWD=" ++ Password cfg].

Definition MySQL_Dump (allowMissingTools : bool) (cfg : DatabaseConfig) (backup : BackupConfig)
  : result Cmd :=
  match check_tools allowMissingTools [s2l "mysqldump"] with Some e => Err e | None =>
  match unsupported_type (s2l "mysql") backup with Some e => Err e | None =>
  let args := [s2l "--single-transaction"; s2l "--routines"; s2l "--events"; s2l "--triggers";
               s2l "-h"; Host cfg; s2l "-P"; portOrDefault (Port cfg) 3306; s2l "-u"; Username cfg] in
  let args := args ++ connect_timeout_arg cfg in
  let args := if gostr_eqb (SSLMode cfg) [] then args else args ++ [s2l "--ssl-mode=" ++ SSLMode cfg] in
  let args := if gostr_eqb (SSLCA cfg) [] then args else args ++ [s2l "--ssl-ca=" ++ SSLCA cfg] in
  let args := if gostr_eqb (SSLCert cfg) [] then args else args ++ [s2l "--ssl-cert=" ++ SSLCert cfg] in
  let args := if gostr_eqb (SSLKey cfg) [] then args else args ++ [s2l "--ssl-key=" ++ SSLKey cfg] in
  let args := if (0 <? length (Tables backup))%nat
              then (args ++ [DatabaseName cfg]) ++ Tables backup
              else args ++ [s2l "--databases"; DatabaseName cfg] in
  start (mkCmd (s2l "mysqldump") args (MergeEnv (buildMySQLEnv cfg)))
  end end.

(** [manifestTables] is manifest.Tables. *)
Definition MySQL_Restore (allowMissingTools : bool) (cfg : DatabaseConfig) (restore : RestoreConfig)
  (manifestTables : list gostr) : result Cmd :=
  match check_tools allowMissingTools [s2l "mysql"] with Some e => Err e | None =>
  if (0 <? length (RTables restore))%nat && (length manifestTables =? 0)%nat then
    Err (s2l "selective table restore requires a backup created with specific tables") else
  match (if (0 <? length (RTables restore))%nat && (0 <? length manifestTables)%nat
         then find (fun t => negb (existsb (gostr_eqb t) manifestTables)) (RTables restore)
         else None) with
  | Some t => Err (s2l "table " ++ t ++ s2l " not present in backup")
  | None =>
  let args := [s2l "-h"; Host cfg; s2l "-P"; portOrDefault (Port cfg) 3306; s2l "-u"; Username cfg;
               DatabaseName cfg] in
  let args := args ++ connect_timeout_arg cfg in
  start (mkCmd (s2l "mysql") args (MergeEnv (buildMySQLEnv cfg)))
  end end.

Definition buildPostgresEnv (cfg : DatabaseConfig) : list gostr :=
  let env := [s2l "PGHOST=" ++ Host cfg; s2l "PGPORT=" ++ portOrDefault (Port cfg) 5432;
              s2l "PGUSER=" ++ Username cfg; s2l "PGDATABASE=" ++ DatabaseName cfg] in
  let env := if gostr_eqb (Password cfg) [] then env else env ++ [s2l "PGPASSWORD=" ++ Password cfg] in
  let env := if gostr_eqb (SSLMode cfg) [] then env else env ++ [s2l "PGSSLMODE=" ++ SSLMode cfg] in
  let env := if gostr_eqb (SSLCA cfg) [] then env else env ++ [s2l "PGSSLROOTCERT=" ++ SSLCA cfg] in
  let env := if gostr_eqb (SSLCert cfg) [] then env else env ++ [s2l "PGSSLCERT=" ++ SSLCert cfg] in
  let env := if gostr_eqb (SSLKey cfg) [] then env else env ++ [s2l "PGSSLKEY=" ++ SSLKey cfg] in
  let env := if (0 <? ConnectionTimeout cfg)%Z
             then env ++ [s2l "PGCONNECT_TIMEOUT=" ++ Itoa (int_seconds (ConnectionTimeout cfg))]
             else env in
  env.

Definition Postgres_Dump (allowMissingTools : bool) (cfg : DatabaseConfig) (backup : BackupConfig)
  : result Cmd :=
  match check_tools allowMissingTools [s2l "pg_dump"] with Some e => Err e | None =>
  match unsupported_type (s2l "postgres") backup with Some e => Err e | None =>
  let args := [s2l "--format=custom"; s2l "--no-owner"; s2l "--no-privileges"] in
  let args := if IncludeSchema backup && negb (IncludeData backup) then args ++ [s2l "--schema-only"] else args in
  let args := if IncludeData backup && negb (IncludeSchema backup) then args ++ [s2l "--data-only"] else args in
  let args := fold_left (fun args tbl => args ++ [s2l "--table"; tbl]) (Tables backup) args in
  let args := args ++ [DatabaseName cfg] in
  start (mkCmd (s2l "pg_dump") args (MergeEnv (buildPostgresEnv cfg)))
  end end.

Definition Postgres_Restore (allowMissingTools : bool) (cfg : DatabaseConfig) (restore : RestoreConfig)
  : result Cmd :=
  match check_tools allowMissingTools [s2l "pg_restore"] with Some e => Err e | None =>
  let args := [s2l "--dbname"; DatabaseName cfg; s2l "--no-owner"; s2l "--no-privileges"] in
  let args := if DropExisting restore then args ++ [s2l "--clean"; s2l "--if-exists"] else args in
  let args := if StopOnError restore then args ++ [s2l "--exit-on-error"] else args in
  let args := fold_left (fun args tbl => args ++ [s2l "--table"; tbl]) (RTables restore) args in
  start (mkCmd (s2l "pg_restore") args (MergeEnv (buildPostgresEnv cfg)))
  end.

Definition mongoConnArgs (cfg : DatabaseConfig) : list gostr :=
  let args := [] in
  let args := if gostr_eqb (Host cfg) [] then args else args ++ [s2l "--host"; Host cfg] in
  let args := if (Port cfg =? 0)%Z then args else args ++ [s2l "--port"; Itoa (Port cfg)] in
  let args := if gostr_eqb (Username cfg) [] then args else args ++ [s2l "--username"; Username cfg] in
  let args := if gostr_eqb (Password cfg) [] then args else args ++ [s2l "--password"; Password cfg] in
  let args := if gostr_eqb (SSLMode cfg) [] then args
              else if equalFold (SSLMode cfg) (s2l "disable") then args
              else args ++ [s2l "--tls"] in
  let args := if gostr_eqb (SSLCA cfg) [] then args else args ++ [s2l "--tlsCAFile"; SSLCA cfg] in
  let args := if gostr_eqb (SSLCert cfg) [] then args
              else args ++ [s2l "--tlsCertificateKeyFile"; SSLCert cfg] in
  let args := match map_lookup (s2l "authSource") (Params cfg) with
              | Some authSource => args ++ [s2l "--authenticationDatabase"; authSource]
              | None => args end in
  args.

Definition buildMongoEnv (cfg : DatabaseConfig) : list gostr :=
  match map_lookup (s2l "uri") (Params cfg) with
  | Some uri => if gostr_eqb uri [] then [] else [s2l "MONGODB_URI=" ++ uri]
  | None => []
  end.

Definition Mongo_Dump (allowMissingTools : bool) (cfg : DatabaseConfig) (backup : BackupConfig)
  : result Cmd :=
  match check_tools allowMissingTools [s2l "mongodump"] with Some e => Err e | None =>
  match unsupported_type (s2l "mongodb") backup with Some e => Err e | None =>
  let args := [s2l "--archive"; s2l "--db"; DatabaseName cfg] in
  let args := args ++ mongoConnArgs cfg in
  let args := fold_left (fun args coll => args ++ [s2l "--collection"; coll]) (Collections backup) args in
  start (mkCmd (s2l "mongodump") args (MergeEnv (buildMongoEnv cfg)))
  end end.

Definition Mongo_Restore (allowMissingTools : bool) (cfg : DatabaseConfig) (restore : RestoreConfig)
  : result Cmd :=
  match check_tools allowMissingTools [s2l "mongorestore"] with Some e => Err e | None =>
  let args := [s2l "--archive"; s2l "--db"; DatabaseName cfg] in
  let args := args ++ mongoConnArgs cfg in
  let args := if DropExisting restore then args ++ [s2l "--drop"] else args in
  let args := fold_left (fun args coll => args ++ [s2l "--nsInclude"; DatabaseName cfg ++ s2l "." ++ coll])
                (RCollections restore) args in
  start (mkCmd (s2l "mongorestore") args (MergeEnv (buildMongoEnv cfg)))
  end.

End Adapters.

Definition with_password (cfg : DatabaseConfig) (pw : gostr) : DatabaseConfig :=
  mkDatabaseConfig (Host cfg) (Port cfg) (Username cfg) pw (DatabaseName cfg) (Params cfg)
    (SSLMode cfg) (SSLCA cfg) (SSLCert cfg) (SSLKey cfg) (ConnectionTimeout cfg).

Definition cmd_line (r : result Cmd) : result (gostr * list gostr) :=
  rbind r (fun c => Ok (Path c, Args c)).

Definition cmd_env (r : result Cmd) : option (list gostr) :=
  match r with Ok c => Some (CEnv c) | Err _ => None end.

Definition with_rtables (r : RestoreConfig) (ts : list gostr) : RestoreConfig :=
  mkRestoreConfig (DryRun r) ts (RCollections r) (StopOnError r) (DropExisting r).

(** The fields of storage.Manifest that [App.Restore] reads. *)
(** ** sqlite.Restore, with its effects recorded as events *)

Record Manifest := mkManifest { MEncryption : bool; MCompression : gostr; MTables : list gostr }.

Definition zero_manifest : Manifest := mkManifest false [] [].

(** What the collaborators of one [App.Restore] call return. *)
Record REnv := mkREnv {
  r_acquire_err : option gostr;             (* lock.Acquire *)
  r_validate_err : option gostr;            (* Adapter.Validate *)
  r_decode : bytes -> option Manifest;      (* json.Decoder.Decode, None on error *)
  r_get_err : gostr -> option gostr;        (* Storage.Get: its error, None when it returns
                                               a reader (S3's GetObject does so lazily,
                                               whether or not the object exists) *)
  r_read_err : gostr -> gostr;              (* reading a key the store does not hold,
                                               through the reader Storage.Get returned *)
  r_decrypt_err : option gostr;             (* cryptoutil.DecryptReader *)
  r_reader_err : option gostr;              (* gzip.NewReader / zstd.NewReader on the payload *)
  r_adapter_err : Manifest -> option gostr; (* Adapter.Restore *)
  r_copy_err : option gostr;                (* io.Copy into the restore stream *)
  r_close_err : option gostr;               (* restoreStream.Writer.Close() *)
  r_wait_err : option gostr;                (* restoreStream.Wait() *)
  r_has_notifier : bool                     (* a.Notifier != nil *)
}.

Inductive revent :=
| RAcquire
| RRelease
| RValidate
| RGet (key : gostr)
| RLog (msg : gostr)
| RAdapterRestore
| RCopy
| RNotify (status : gostr) (err : option gostr).

Record RSt := mkRSt { rtrace : list revent; ropErr : option gostr }.

Definition RM (A : Type) := RSt -> result A * RSt.

Definition rret {A} (a : A) : RM A := fun s => (Ok a, s).

Definition rmbind {A B} (m : RM A) (f : A -> RM B) : RM B :=
  fun s => match m s with
           | (Ok a, s') => f a s'
           | (Err e, s') => (Err e, s')
           end.

Notation "x <-- m ;; k" := (rmbind m (fun x => k))
  (at level 61, m at next level, right associativity).

Definition remit (ev : revent) : RM unit :=
  fun s => (Ok tt, mkRSt (rtrace s ++ [ev]) (ropErr s)).

(** [opErr = err; return err] *)
Definition rfail_op {A} (e : gostr) : RM A := fun s => (Err e, mkRSt (rtrace s) (Some e)).

Definition rcheck (err : option gostr) : RM unit :=
  match err with Some e => rfail_op e | None => rret tt end.

(** App.readManifest, its error discarded by the caller. *)
Definition readManifest (renv : REnv) (st : Store) (key : gostr) : RM (result Manifest) :=
  _ <-- remit (RGet (ManifestKey key)) ;;
  match r_get_err renv (ManifestKey key) with
  | Some e => rret (Err e)
  | None =>
    match lookup (ManifestKey key) st with
    | None => rret (Err (r_read_err renv (ManifestKey key)))
    | Some o => match r_decode renv (data o) with
                | Some m => rret (Ok m)
                | None => rret (Err (s2l "invalid manifest"))
                end
    end
  end.

(** [App.Restore] after the lock is held; [dryRun] is [a.Cfg.Restore.DryRun]. *)
Definition restore_body (lib : GoLib) (cfg : Config) (dryRun : bool) (renv : REnv) (st : Store)
  (key : gostr) : RM unit :=
  _ <-- remit RValidate ;;
  _ <-- rcheck (r_validate_err renv) ;;
  rm <-- readManifest renv st key ;;
  let manifest := match rm with Ok m => m | Err _ => zero_manifest end in
  if dryRun then remit (RLog (s2l "dry run restore")) else
  _ <-- remit (RGet key) ;;
  match r_get_err renv key with
  | Some e => rfail_op e
  | None =>
  _ <-- (if MEncryption manifest || Encryption cfg then
           if gostr_eqb (EncryptionKey cfg) [] then
             rfail_op (s2l "encryption key is required to restore encrypted backup")
           else match ParseKey lib (EncryptionKey cfg) with
                | Err e => rfail_op e
                | Ok _ => rcheck (r_decrypt_err renv)
                end
         else rret tt) ;;
  let compression := if gostr_eqb (MCompression manifest) [] then Compression cfg
                     else MCompression manifest in
  _ <-- (match WrapReader lib compression with
         | Err e => rfail_op e
         | Ok _ => if gostr_eqb compression TypeGzip || gostr_eqb compression TypeZstd
                   then rcheck (r_reader_err renv) else rret tt
         end) ;;
  _ <-- remit RAdapterRestore ;;
  _ <-- rcheck (r_adapter_err renv manifest) ;;
  _ <-- remit RCopy ;;
  _ <-- rcheck (r_copy_err renv) ;;
  _ <-- rcheck (r_close_err renv) ;;
  rcheck (r_wait_err renv)
  end.

(** [App.Restore]: the lock, the body, the deferred [guard.Release()] and the deferred
    notification with [statusFromErr(opErr)]. *)
Definition Restore (lib : GoLib) (cfg : Config) (dryRun : bool) (renv : REnv) (st : Store)
  (key : gostr) : result unit * list revent :=
  let s0 := mkRSt [RAcquire] None in
  let '(r, s) :=
    match r_acquire_err renv with
    | Some e => rfail_op e s0
    | None => let '(r, s) := restore_body lib cfg dryRun renv st key s0 in
              (r, mkRSt (rtrace s ++ [RRelease]) (ropErr s))
    end in
  (r, if r_has_notifier renv then rtrace s ++ [RNotify (statusFromErr (ropErr s)) (ropErr s)]
      else rtrace s).

Definition err_of (r : result unit) : option gostr :=
  match r with Ok _ => None | Err e => Some e end.

Definition no_notify (l : list revent) : Prop := forall st e, ~ In (RNotify st e) l.

(** A computation keeps [opErr] in step with its result: it fails with [e] only after
    setting [opErr] to [e], succeeds leaving [opErr] unset, and only appends events
    other than notifications to the trace. *)
Definition tracks {A} (m : RM A) : Prop :=
  forall s, ropErr s = None ->
    match m s with
    | (Ok _, s') => ropErr s' = None /\ exists l, rtrace s' = rtrace s ++ l /\ no_notify l
    | (Err e, s') => ropErr s' = Some e /\ exists l, rtrace s' = rtrace s ++ l /\ no_notify l
    end.

Definition notified (renv : REnv) (r : result unit) (tr : list revent) : list revent :=
  if r_has_notifier renv then tr ++ [RNotify (statusFromErr (err_of r)) (err_of r)] else tr.

(** The manifest [App.Restore] goes on with: the decoded one, or the zero value. *)
Definition manifest_of (renv : REnv) (st : Store) (key : gostr) : Manifest :=
  match r_get_err renv (ManifestKey key) with
  | Some _ => zero_manifest
  | None =>
    match lookup (ManifestKey key) st with
    | Some o => match r_decode renv (data o) with Some m => m | None => zero_manifest end
    | None => zero_manifest
    end
  end.

(** ** Backup with retention switched off, and config path resolution (config/load.go) *)

Definition retention_off (cfg : Config) : Prop :=
  KeepDays cfg = 0%Z /\ KeepLast cfg = 0%Z /\ MaxBytes cfg = 0%Z.

Definition isEncryptedPath (path : gostr) : bool :=
  HasSuffix path (s2l ".enc") || HasSuffix path (s2l ".encrypted").

Definition configTypeFromPath (path : gostr) : gostr :=
  if HasSuffix path (s2l ".toml") || HasSuffix path (s2l ".toml.enc")
     || HasSuffix path (s2l ".toml.encrypted") then s2l "toml"
  else if HasSuffix path (s2l ".json") || HasSuffix path (s2l ".json.enc")
     || HasSuffix path (s2l ".json.encrypted") then s2l "json"
  else s2l "yaml".

(** The first candidate [c] whose path [f c] exists ([stat p] is [os.Stat(p)] succeeding). *)
Fixpoint first_existing (stat : gostr -> bool) (f : gostr -> gostr) (cs : list gostr) : option gostr :=
  match cs with
  | [] => None
  | c :: cs' => if stat (f c) then Some (f c) else first_existing stat f cs'
  end.

Definition config_candidates : list gostr :=
  [s2l "dbu.yaml"; s2l "dbu.yml"; s2l "dbu.toml"; s2l "dbu.json"].

Definition encrypted_candidates : list gostr :=
  [s2l "dbu.yaml.enc"; s2l "dbu.yml.enc"; s2l "dbu.toml.enc"].

(** config.resolveConfigPath: [envPath] is os.Getenv("DBU_CONFIG"), [configDir] what
    os.UserConfigDir returned; its error result is always nil. *)
Definition resolveConfigPath (path envPath : gostr) (stat : gostr -> bool)
  (configDir : result gostr) : gostr :=
  if negb (gostr_eqb path []) then path else
  if negb (gostr_eqb envPath []) then envPath else
  match first_existing stat (fun c => c) config_candidates with
  | Some c => c
  | None =>
      match configDir with
      | Err _ => []
      | Ok dir =>
          let base := Join [dir; s2l "dbu"] in
          match first_existing stat (fun c => Join [base; c]) config_candidates with
          | Some p => p
          | None =>
              match first_existing stat (fun c => Join [base; c]) encrypted_candidates with
              | Some p => p
              | None => []
              end
          end
      end
  end.


(** Instances for the config encryption, adapter and restore models. *)
Definition id_seal : bytes -> bytes -> bytes -> bytes := fun _ _ p => p.

Definition nonce12 : bytes := repeat Byte.x07 12.

Definition sample_db : DatabaseConfig :=
  mkDatabaseConfig (s2l "db") 0 (s2l "backup") (s2l "s3cret") (s2l "app") [] [] [] [] [] 0.

Definition sample_backup_cfg : BackupConfig :=
  mkBackupConfig (s2l "full") [s2l "users"] [s2l "events"] false false.

Definition sample_restore_cfg : RestoreConfig :=
  mkRestoreConfig false [] [] false false.

Definition sample_renv : REnv := {|
  r_acquire_err := None;
  r_validate_err := None;
  r_decode := fun _ => None;
  r_get_err := fun _ => None;
  r_read_err := fun k => s2l "The specified key does not exist.";
  r_decrypt_err := None;
  r_reader_err := None;
  r_adapter_err := fun _ => None;
  r_copy_err := None;
  r_close_err := None;
  r_wait_err := None;
  r_has_notifier := true
|}.

Definition maxbytes_cfg : Config :=
  {| LockFile := []; DBType := []; Database := []; BackupType := []; Compression := [];
     Encryption := false; EncryptionKey := []; Idempotent := false;
     KeepDays := 0; KeepLast := 0; MaxBytes := 25;
     StoragePrefix := []; WindowStart := []; WindowEnd := []; Timezone := [] |}.

(** ** Concrete instances, used to evaluate the model *)

Fixpoint insert_by_time (o : ObjectInfo) (l : list ObjectInfo) : list ObjectInfo :=
  match l with
  | [] => [o]
  | x :: l' => if (Modified x <? Modified o)%Z then o :: l else x :: insert_by_time o l'
  end.

Definition sort_by_time (l : list ObjectInfo) : list ObjectInfo := fold_right insert_by_time [] l.

Definition gzip_magic : bytes := [Byte.x1f; Byte.x8b].
Definition zstd_magic : bytes := [Byte.x28; Byte.xb5; Byte.x2f; Byte.xfd].

Definition bytes_eqb (a b : bytes) : bool := gostr_eqb (bytes_str a) (bytes_str b).

(** Strip a header, or fail with [msg]. *)
Definition unframe (hdr : bytes) (msg : gostr) (d : bytes) : result bytes :=
  if bytes_eqb (firstn (length hdr) d) hdr then Ok (skipn (length hdr) d) else Err msg.

(** Framing stand-ins for the codecs: a gzip stream starts with 1f 8b, a zstd frame with
    28 b5 2f fd, a DARE 2.0 package with its version byte 0x20. *)
Definition sample_lib : GoLib := {|
  TrimSpace := fun s => s;
  b64decode := fun s => Ok (map byte_of_ascii s);
  hexdecode := fun s => Ok (map byte_of_ascii s);
  gzip_w := fun d => Ok (gzip_magic ++ d);
  zstd_w := fun d => Ok (zstd_magic ++ d);
  gzip_r := unframe gzip_magic (s2l "gzip: invalid header");
  zstd_r := unframe zstd_magic (s2l "zstd: invalid input: magic number mismatch");
  dare_w := fun _ d => Ok (Byte.x20 :: d);
  dare_r := fun _ => unframe [Byte.x20] (s2l "sio: unsupported version");
  gcm_Open := fun _ _ payload =>
    match payload with
    | [] => (None, Some (s2l "cipher: message authentication failed"))
    | _ => (Some payload, None)
    end;
  LoadLocation := fun tz =>
    if gostr_eqb tz (s2l "UTC") then Ok tz
    else Err (s2l "unknown time zone " ++ tz);
  ParseClock := fun v _ =>
    match v with
    | [h1; h2; c; m1; m2] =>
        Ok (Z.of_nat ((nat_of_ascii h1 - 48) * 10 + (nat_of_ascii h2 - 48)),
            Z.of_nat ((nat_of_ascii m1 - 48) * 10 + (nat_of_ascii m2 - 48)))
    | _ => Err (s2l "cannot parse")
    end;
  SortSlice := sort_by_time
|}.

(** ** Go's strings.TrimSpace, base64.StdEncoding.DecodeString and hex.DecodeString *)

(** The ASCII bytes for which unicode.IsSpace holds: '\t', '\n', '\v', '\f', '\r', ' '. *)
Definition asciiSpace (c : ascii) : bool :=
  existsb (Ascii.eqb c) ["009"; "010"; "011"; "012"; "013"; " "]%char.

(** The UTF-8 encodings of the other runes for which unicode.IsSpace holds: U+0085,
    U+00A0, U+1680, U+2000 to U+200A, U+2028, U+2029, U+202F, U+205F and U+3000. *)
Definition utf8_spaces : list gostr :=
  map (map ascii_of_nat)
    ([[194; 133]; [194; 160]; [225; 154; 128]] ++
     map (fun n => [226; 128; n]) (seq 128 11) ++
     [[226; 128; 168]; [226; 128; 169]; [226; 128; 175]; [226; 129; 159]; [227; 128; 128]]).

(** Drop leading spaces: an ASCII space byte, or one of the encodings [encs]. *)
Fixpoint trim_spaces (encs : list gostr) (fuel : nat) (s : gostr) : gostr :=
  match fuel with
  | O => s
  | S f =>
      match s with
      | [] => []
      | c :: t =>
          if asciiSpace c then trim_spaces encs f t
          else match find (fun e => HasPrefix s e) encs with
               | Some e => trim_spaces encs f (skipn (length e) s)
               | None => s
               end
      end
  end.

(** strings.TrimSpace: [TrimFunc(s, unicode.IsSpace)], its ASCII fast path included; the
    right end is trimmed on the reversed string with the reversed encodings. *)
Definition go_TrimSpace (s : gostr) : gostr :=
  let l := trim_spaces utf8_spaces (length s) s in
  rev (trim_spaces (map (@rev ascii) utf8_spaces) (length l) (rev l)).

Definition byte_of_Z (v : Z) : Byte.byte := byte_of_ascii (ascii_of_N (Z.to_N (Z.land v 255))).

(** The decode map of the standard base64 alphabet. *)
Definition b64_index (c : ascii) : option Z :=
  let n := Z.of_nat (nat_of_ascii c) in
  if (65 <=? n)%Z && (n <=? 90)%Z then Some (n - 65)%Z
  else if (97 <=? n)%Z && (n <=? 122)%Z then Some (n - 71)%Z
  else if (48 <=? n)%Z && (n <=? 57)%Z then Some (n + 4)%Z
  else if (n =? 43)%Z then Some 62%Z
  else if (n =? 47)%Z then Some 63%Z
  else None.

Definition is_nl (c : ascii) : bool := Ascii.eqb c "010"%char || Ascii.eqb c "013"%char.

(** Skip '\n' and '\r' bytes; [si] is the index of the next input byte. *)
Fixpoint skip_nl (s : gostr) (si : nat) : gostr * nat :=
  match s with
  | c :: t => if is_nl c then skip_nl t (S si) else (s, si)
  | [] => ([], si)
  end.

(** base64.CorruptInputError *)
Definition b64_corrupt (si : nat) : gostr :=
  appendInt (s2l "illegal base64 data at input byte ") (Z.of_nat si) 0.

(** The bytes of a quantum of [dlen] sextets (the missing ones zero): its first [dlen - 1]
    bytes of [val]. *)
Definition b64_bytes (q : list Z) : bytes :=
  let v i := nth i q 0%Z in
  let val := Z.lor (Z.lor (Z.shiftl (v 0) 18) (Z.shiftl (v 1) 12))
                   (Z.lor (Z.shiftl (v 2) 6) (v 3)) in
  firstn (length q - 1)
    [byte_of_Z (Z.shiftr val 16); byte_of_Z (Z.shiftr val 8); byte_of_Z val].

(** Encoding.Decode (the loop over Encoding.decodeQuantum) for StdEncoding, with padding
    '=' and not strict, one input byte at a time: [q] holds the sextets read so far in the
    current quantum ([j] in the Go code), [si] is the index of the next input byte and
    [out] the bytes written so far. *)
Fixpoint b64_go (s : gostr) (si : nat) (q : list Z) (out : bytes) : result bytes :=
  match s with
  | [] => match q with
          | [] => Ok out
          | _ => Err (b64_corrupt (si - length q))
          end
  | c :: t =>
      match b64_index c with
      | Some v =>
          if Nat.eqb (length q) 3 then b64_go t (S si) [] (out ++ b64_bytes (q ++ [v]))
          else b64_go t (S si) (q ++ [v]) out
      | None =>
          if is_nl c then b64_go t (S si) q out
          else if negb (Ascii.eqb c "=") then Err (b64_corrupt si)
          else if Nat.ltb (length q) 2 then Err (b64_corrupt si)
          else
            let after_pad :=
              if Nat.eqb (length q) 2 then
                match skip_nl t (S si) with
                | ([], si') => Err (b64_corrupt si')
                | (c' :: t', si') =>
                    if Ascii.eqb c' "=" then Ok (t', S si') else Err (b64_corrupt (si' - 1))
                end
              else Ok (t, S si) in
            match after_pad with
            | Err e => Err e
            | Ok (t', si') =>
                match skip_nl t' si' with
                | ([], _) => Ok (out ++ b64_bytes q)
                | (_, si'') => Err (b64_corrupt si'')
                end
            end
      end
  end.

(** base64.StdEncoding.DecodeString *)
Definition go_b64decode (s : gostr) : result bytes := b64_go s 0 [] [].

(** The hex decode table: digits, and letters a to f in either case. *)
Definition hex_val (c : ascii) : option Z :=
  let n := Z.of_nat (nat_of_ascii c) in
  if (48 <=? n)%Z && (n <=? 57)%Z then Some (n - 48)%Z
  else if (97 <=? n)%Z && (n <=? 102)%Z then Some (n - 87)%Z
  else if (65 <=? n)%Z && (n <=? 70)%Z then Some (n - 55)%Z
  else None.

Definition hex_digit (c : ascii) : bool := match hex_val c with Some _ => true | None => false end.

Definition b64_ok (c : ascii) : bool := match b64_index c with Some _ => true | None => false end.

(** What every hex digit is: not a space, ASCII, and a base64 character. *)
Definition hex_digit_check (c : ascii) : bool :=
  negb (asciiSpace c) && (nat_of_ascii c <? 128) && b64_ok c.

Definition hex_upper (n : nat) : ascii :=
  if n <? 10 then ascii_of_nat (48 + n) else ascii_of_nat (55 + n).

(** fmt's [%#U] of a byte taken as a rune: "U+00XX", then the quoted rune (in UTF-8) when
    strconv.IsPrint holds of it. *)
Definition fmt_sharp_U (c : ascii) : gostr :=
  let n := nat_of_ascii c in
  s2l "U+00" ++ [hex_upper (n / 16); hex_upper (n mod 16)] ++
  (if (32 <=? n) && (n <=? 126) then s2l " '" ++ [c] ++ s2l "'"
   else if (161 <=? n) && negb (n =? 173) then
     s2l " '" ++ (if n <? 192 then [ascii_of_nat 194; c] else [ascii_of_nat 195; ascii_of_nat (n - 64)])
     ++ s2l "'"
   else []).

(** hex.InvalidByteError and hex.ErrLength *)
Definition hex_invalid (c : ascii) : gostr := s2l "encoding/hex: invalid byte: " ++ fmt_sharp_U c.

Definition hex_ErrLength : gostr := s2l "encoding/hex: odd length hex string".

(** hex.Decode: the pairs in order, then the odd byte left over. *)
Fixpoint hex_go (s : gostr) (out : bytes) : result bytes :=
  match s with
  | [] => Ok out
  | [p] => match hex_val p with None => Err (hex_invalid p) | Some _ => Err hex_ErrLength end
  | p :: q :: t =>
      match hex_val p, hex_val q with
      | None, _ => Err (hex_invalid p)
      | Some _, None => Err (hex_invalid q)
      | Some a, Some b => hex_go t (out ++ [byte_of_Z (a * 16 + b)])
      end
  end.

(** hex.DecodeString *)
Definition go_hexdecode (s : gostr) : result bytes := hex_go s [].

(** [sample_lib] with Go's own TrimSpace and decoders. *)
Definition go_lib : GoLib := {|
  TrimSpace := go_TrimSpace;
  b64decode := go_b64decode;
  hexdecode := go_hexdecode;
  gzip_w := gzip_w sample_lib;
  zstd_w := zstd_w sample_lib;
  gzip_r := gzip_r sample_lib;
  zstd_r := zstd_r sample_lib;
  dare_w := dare_w sample_lib;
  dare_r := dare_r sample_lib;
  gcm_Open := gcm_Open sample_lib;
  LoadLocation := LoadLocation sample_lib;
  ParseClock := ParseClock sample_lib;
  SortSlice := SortSlice sample_lib
|}.

(** A 32-byte key written as 64 hex digits. *)
Definition hex_key64 : gostr :=
  s2l "000102030405060708090a0b0c0d0e0f101112131415161718191a1b1c1d1e1f".

Definition key32 : gostr := repeat "k"%char 32.

Definition sample_cfg : Config := {|
  LockFile := s2l "/tmp/dbu.lock";
  DBType := s2l "sqlite";
  Database := s2l "app";
  BackupType := s2l "full";
  Compression := TypeGzip;
  Encryption := true;
  EncryptionKey := key32;
  Idempotent := false;
  KeepDays := 0; KeepLast := 0; MaxBytes := 0;
  StoragePrefix := s2l "backups";
  WindowStart := []; WindowEnd := []; Timezone := []
|}.

Definition now0 : Z := 1700000000%Z.

Definition sample_env : Env := {|
  acquire_err := None;
  clock := fun _ => (10, 0)%Z;
  now := t20240101;
  now_unix := now0;
  cutoffOf := fun n => (now0 + n * 86400)%Z;
  validate_err := None;
  cap_incremental := false;
  cap_differential := false;
  adapter_name := s2l "sqlite";
  exists_err := None;
  dump_err := None;
  dump_read := Ok (map byte_of_ascii (s2l "hello"));
  wait_err := None;
  wait_cuts_pipe := false;
  put_fail := fun _ => None;
  put_partial := fun _ => None;
  stat_err := None;
  list_err := None;
  manifest_json := map byte_of_ascii (s2l "{}");
  has_notifier := true
|}.

(** The listing of the retention example: artifacts aged 0, 1, 2, 3 and 10 days, of
    10 bytes each, and two manifests, in no particular order. *)
Definition art (name : string) (age : Z) : ObjectInfo :=
  mkObjectInfo (s2l name) 10 (now0 - age * 86400)%Z false.

Definition man (name : string) (age : Z) : ObjectInfo :=
  mkObjectInfo (ManifestKey (s2l name)) 300 (now0 - age * 86400)%Z true.

Definition retention_objects : list ObjectInfo :=
  [art "b/d10" 10; man "b/d3" 3; art "b/d3" 3; art "b/d0" 0; man "b/d10" 10;
   art "b/d2" 2; art "b/d1" 1].

Definition retention_cfg : Config :=
  {| LockFile := []; DBType := []; Database := []; BackupType := []; Compression := [];
     Encryption := false; EncryptionKey := []; Idempotent := false;
     KeepDays := 5; KeepLast := 2; MaxBytes := 0;
     StoragePrefix := []; WindowStart := []; WindowEnd := []; Timezone := [] |}.

(** ** Auxiliary definitions used by the proofs *)

Definition no_slash (s : gostr) : bool := forallb (fun c => negb (Ascii.eqb c slash)) s.

(** A path segment that [path.Clean] keeps verbatim: non-empty, no slash, not a dot
    segment. *)
Definition seg_ok (s : gostr) : bool :=
  (0 <? length s) && no_slash s && negb (gostr_eqb s [dot]) && negb (gostr_eqb s [dot; dot]).

(** Segments joined by single slashes. *)
Definition path_of (segs : list gostr) : gostr :=
  match segs with
  | [] => []
  | s0 :: r => s0 ++ concat (map (cons slash) r)
  end.

Definition two (u : Z) : gostr := [utod (u / 10)%Z; utod (u mod 10)%Z].

Definition four (u : Z) : gostr :=
  [utod (u / 1000)%Z; utod (u / 100 mod 10)%Z; utod (u / 10 mod 10)%Z; utod (u mod 10)%Z].

Definition valid_civil (t : civil) : Prop :=
  (0 <= year t <= 9999)%Z /\ (1 <= month t <= 12)%Z /\ (1 <= day t <= 31)%Z /\
  (0 <= hour t <= 23)%Z /\ (0 <= minute t <= 59)%Z /\ (0 <= second t <= 59)%Z.

(** The last path element built by [BuildObjectKey]. *)
Definition key_suffix (when : civil) (backupType extension : gostr) : gostr :=
  let suffix := FormatKeyTime when ++ [("_")%char] ++ backupType in
  if 0 <? length extension then suffix ++ [dot] ++ extension else suffix.

Definition t99991231 : civil := mkCivil 9999%Z 12%Z 31%Z 23%Z 59%Z 59%Z.

Definition t100000101 : civil := mkCivil 10000%Z 1%Z 1%Z 0%Z 0%Z 0%Z.

Definition t_minus10 : civil := mkCivil (-10)%Z 1%Z 1%Z 0%Z 0%Z 0%Z.

Definition t_minus1 : civil := mkCivil (-1)%Z 1%Z 1%Z 0%Z 0%Z 0%Z.

(** The storage backends' classification of listed objects. *)
Definition IsManifest (key : gostr) : bool := HasSuffix key ManifestSuffix.

(** The properties of an extension that the classification relies on. *)
Definition ext_ok (ext : gostr) : bool :=
  HasPrefix ext (s2l "backup") && no_slash ext && (0 <? length ext) &&
  negb (Ascii.eqb (last ext dot) dot) && negb (Ascii.eqb (last ext dot) "n"%char).

Definition window_cfg : Config := {|
  LockFile := LockFile sample_cfg; DBType := DBType sample_cfg;
  Database := Database sample_cfg; BackupType := BackupType sample_cfg;
  Compression := TypeGzip; Encryption := false; EncryptionKey := [];
  Idempotent := false; KeepDays := 0; KeepLast := 0; MaxBytes := 0;
  StoragePrefix := StoragePrefix sample_cfg;
  WindowStart := s2l "09:00"; WindowEnd := []; Timezone := s2l "Invalid/Zone" |}.

Definition grows {A} (m : M A) : Prop := forall s, exists ext, trace (snd (m s)) = trace s ++ ext.

Definition quiet_ev (ev : event) : bool := negb (isWait ev || isJoin ev).

Definition wait_shape (env : Env) (r : result gostr) (tr : list event) : Prop :=
  ~ In EvWait tr \/
  (exists l1 l2, tr = l1 ++ EvWait :: l2 /\ forallb quiet_ev l1 = true /\ In EvJoin l2 /\
                 forall e, wait_err env = Some e -> r = Err e).

Definition agree_except (mk : gostr) (st1 st2 : Store) : Prop := remove_key mk st1 = remove_key mk st2.

Definition artifacts_of (objs : list ObjectInfo) : list ObjectInfo :=
  filter (fun obj => negb (IsManifestObj obj)) objs.

Definition Rst (mk : gostr) (s1 s2 : St) : Prop :=
  opErr s1 = opErr s2 /\ agree_except mk (store s1) (store s2).

Definition sim {A} (mk : gostr) (m1 m2 : M A) : Prop :=
  forall s1 s2, Rst mk s1 s2 -> fst (m1 s1) = fst (m2 s2) /\ Rst mk (snd (m1 s1)) (snd (m2 s2)).

Definition retention_sorted : list ObjectInfo :=
  [art "b/d0" 0; art "b/d1" 1; art "b/d2" 2; art "b/d3" 3; art "b/d10" 10].

(** ** Examples of keys and paths *)

Example key_example :
  BuildObjectKey (s2l "backups") (s2l "postgres") (s2l "appdb") (s2l "full") t20240101
    (s2l "backup.zst") = s2l "backups/postgres/appdb/20240101T100000Z_full.backup.zst".
Proof. vm_compute. reflexivity. Qed.

Example prefix_example :
  BuildPrefix (s2l "/backups/") (s2l "postgres") (s2l "appdb") = s2l "backups/postgres/appdb".
Proof. vm_compute. reflexivity. Qed.

Example clean_examples :
  Clean (s2l "a/../../b/./c//") = s2l "../b/c" /\ Clean (s2l "/../x/..") = s2l "/" /\
  Clean (s2l "pg/../x") = s2l "x" /\ Clean (s2l "a/b/..") = s2l "a" /\ Clean (s2l "") = s2l ".".
Proof. vm_compute. repeat split. Qed.

(** ** Facts about the string primitives *)

Lemma gostr_eqb_refl : forall s, gostr_eqb s s = true.
Proof. induction s; simpl; [reflexivity | now rewrite Ascii.eqb_refl, IHs]. Qed.

Lemma gostr_eqb_eq : forall a b, gostr_eqb a b = true -> a = b.
Proof.
  induction a as [|x a IH]; destruct b as [|y b]; simpl; try discriminate; auto.
  intros H. apply andb_prop in H as [H1 H2].
  apply Ascii.eqb_eq in H1. subst. f_equal. auto.
Qed.

Lemma str_compare_refl : forall s, str_compare s s = Eq.
Proof. induction s; simpl; [reflexivity | now rewrite Nat.compare_refl]. Qed.

Lemma str_compare_app_same : forall p a b, str_compare (p ++ a) (p ++ b) = str_compare a b.
Proof. induction p; simpl; [reflexivity | now rewrite Nat.compare_refl]. Qed.

Lemma str_compare_app_len : forall x1 x2 r1 r2,
  length x1 = length x2 ->
  str_compare (x1 ++ r1) (x2 ++ r2) =
  match str_compare x1 x2 with Eq => str_compare r1 r2 | c => c end.
Proof.
  induction x1 as [|a x1 IH]; destruct x2 as [|b x2]; simpl; try discriminate; auto.
  intros r1 r2 H. assert (H' : length x1 = length x2) by (simpl in H; lia).
  destruct (Nat.compare (nat_of_ascii a) (nat_of_ascii b)); auto.
Qed.

Lemma HasPrefix_app : forall p s, HasPrefix (p ++ s) p = true.
Proof. induction p; intros s; simpl; [reflexivity | now rewrite Ascii.eqb_refl, IHp]. Qed.

(** ** Digits of the time layout *)

Lemma utod_nat : forall u, (0 <= u < 10)%Z -> nat_of_ascii (utod u) = 48 + Z.to_nat u.
Proof.
  intros u Hu. unfold utod. apply nat_ascii_embedding. lia.
Qed.

Lemma utod_compare : forall a b, (0 <= a < 10)%Z -> (0 <= b < 10)%Z ->
  Nat.compare (nat_of_ascii (utod a)) (nat_of_ascii (utod b)) = Z.compare a b.
Proof.
  intros a b Ha Hb. rewrite (utod_nat a Ha), (utod_nat b Hb).
  destruct (Z.compare_spec a b) as [E|E|E].
  - subst. apply Nat.compare_refl.
  - apply Nat.compare_lt_iff. lia.
  - apply Nat.compare_gt_iff. lia.
Qed.

Lemma utod_not_slash : forall u, (0 <= u < 10)%Z -> Ascii.eqb (utod u) slash = false.
Proof.
  intros u Hu. destruct (Ascii.eqb_spec (utod u) slash) as [E|E]; [|reflexivity].
  exfalso. apply (f_equal nat_of_ascii) in E. rewrite utod_nat in E by exact Hu.
  vm_compute in E. lia.
Qed.

Lemma lex_split : forall m q1 r1 q2 r2, (0 <= r1 < m)%Z -> (0 <= r2 < m)%Z ->
  Z.compare (m * q1 + r1) (m * q2 + r2) =
  match Z.compare q1 q2 with Eq => Z.compare r1 r2 | c => c end.
Proof.
  intros m q1 r1 q2 r2 H1 H2.
  destruct (Z.compare_spec q1 q2) as [E|E|E].
  - subst. apply Z.add_compare_mono_l.
  - apply Z.compare_lt_iff. nia.
  - apply Z.compare_gt_iff. nia.
Qed.

Lemma match_cmp_id : forall c, match c with Eq => Eq | Lt => Lt | Gt => Gt end = c.
Proof. destruct c; reflexivity. Qed.

Lemma two_compare : forall a b, (0 <= a < 100)%Z -> (0 <= b < 100)%Z ->
  str_compare (two a) (two b) = Z.compare a b.
Proof.
  intros a b Ha Hb. unfold two; cbn [str_compare].
  assert (Hq : forall x, (0 <= x < 100)%Z -> (0 <= x / 10 < 10)%Z).
  { intros x Hx. split; [apply Z.div_pos|apply Z.div_lt_upper_bound]; lia. }
  rewrite (utod_compare (a / 10)), (utod_compare (a mod 10)) by
    (auto || (apply Z.mod_pos_bound; lia)).
  rewrite match_cmp_id, <- (lex_split 10) by (apply Z.mod_pos_bound; lia).
  now rewrite <- !Z.div_mod by lia.
Qed.

Lemma four_compare : forall a b, (0 <= a < 10000)%Z -> (0 <= b < 10000)%Z ->
  str_compare (four a) (four b) = Z.compare a b.
Proof.
  intros a b Ha Hb. unfold four; cbn [str_compare].
  assert (Hd : forall x, (0 <= x < 10000)%Z -> (0 <= x / 1000 < 10)%Z).
  { intros x Hx. split; [apply Z.div_pos|apply Z.div_lt_upper_bound]; lia. }
  rewrite (utod_compare (a / 1000)) by auto.
  rewrite !utod_compare by (apply Z.mod_pos_bound; lia).
  assert (E : forall x, (0 <= x)%Z ->
    x = (10 * (10 * (10 * (x / 1000) + x / 100 mod 10) + x / 10 mod 10) + x mod 10)%Z).
  { intros x Hx.
    rewrite (Z.div_mod x 10) at 1 by lia. f_equal. f_equal.
    rewrite (Z.div_mod (x / 10) 10) at 1 by lia. f_equal. f_equal.
    rewrite Z.div_div by lia. simpl (10 * 10)%Z.
    rewrite (Z.div_mod (x / 100) 10) at 1 by lia. f_equal. f_equal.
    rewrite Z.div_div by lia. reflexivity. }
  rewrite match_cmp_id.
  transitivity (Z.compare
    (10 * (10 * (10 * (a / 1000) + a / 100 mod 10) + a / 10 mod 10) + a mod 10)%Z
    (10 * (10 * (10 * (b / 1000) + b / 100 mod 10) + b / 10 mod 10) + b mod 10)%Z).
  2: now rewrite <- (E a), <- (E b) by lia.
  rewrite !lex_split by (apply Z.mod_pos_bound; lia).
  destruct (Z.compare (a / 1000) (b / 1000)); auto.
  destruct (Z.compare (a / 100 mod 10) (b / 100 mod 10)); auto.
Qed.

(** ** [path.Clean] on well-formed paths *)

Lemma clean_copy : forall r s rest out dd, no_slash s = true ->
  clean_loop r (s ++ rest) true out dd = clean_loop r rest true (rev s ++ out) dd.
Proof.
  intros r s; induction s as [|a s IH]; intros rest out dd H; simpl; [reflexivity|].
  simpl in H. apply andb_prop in H as [Ha Hs].
  rewrite Ha. simpl. rewrite IH by exact Hs. now rewrite <- app_assoc.
Qed.

Lemma clean_slash : forall r rest cp out dd,
  clean_loop r (slash :: rest) cp out dd = clean_loop r rest false out dd.
Proof. intros r rest cp out dd. destruct cp; reflexivity. Qed.

Lemma seg_ok_inv : forall c s, seg_ok (c :: s) = true ->
  Ascii.eqb c slash = false /\ no_slash s = true /\
  (s = [] -> Ascii.eqb c dot = false) /\
  (forall d, s = [d] -> Ascii.eqb c dot && Ascii.eqb d dot = false).
Proof.
  intros c s H. unfold seg_ok in H. simpl in H.
  apply andb_prop in H as [H H4]. apply andb_prop in H as [H H3].
  apply andb_prop in H as [H1 H2].
  apply negb_true_iff in H1. repeat split; auto.
  - intros ->. simpl in H3. now rewrite andb_true_r in H3; apply negb_true_iff in H3.
  - intros d ->. simpl in H4. rewrite andb_true_r in H4. now apply negb_true_iff in H4.
Qed.

Lemma clean_loop_cons : forall r c s1 cp out dd,
  clean_loop r (c :: s1) cp out dd =
  if cp && negb (Ascii.eqb c slash) then clean_loop r s1 true (c :: out) dd
  else if Ascii.eqb c slash then clean_loop r s1 false out dd
  else if Ascii.eqb c dot && at_sep s1 then clean_loop r s1 false out dd
  else
    match s1 with
    | d :: s2 =>
        if Ascii.eqb c dot && Ascii.eqb d dot && at_sep s2 then
          let (out', dd') := dotdot_step r out dd in clean_loop r s2 false out' dd'
        else clean_loop r s1 true (start_seg r c out) dd
    | [] => clean_loop r s1 true (start_seg r c out) dd
    end.
Proof. reflexivity. Qed.

Lemma clean_seg : forall r c s rest out dd, seg_ok (c :: s) = true -> at_sep rest = true ->
  clean_loop r (c :: s ++ rest) false out dd =
  clean_loop r rest true (rev s ++ start_seg r c out) dd.
Proof.
  intros r c s rest out dd H Hrest.
  destruct (seg_ok_inv c s H) as (Hc & Hs & H1 & H2).
  rewrite clean_loop_cons, Hc. cbn [andb negb].
  destruct s as [|d s].
  - rewrite (H1 eq_refl). cbn [andb]. destruct rest; reflexivity.
  - simpl in Hs. apply andb_prop in Hs as [Hd Hs]. apply negb_true_iff in Hd.
    cbn [app at_sep]. rewrite Hd, andb_false_r.
    assert (Hdd : Ascii.eqb c dot && Ascii.eqb d dot && at_sep (s ++ rest) = false).
    { destruct s as [|e s].
      - rewrite (H2 d eq_refl). reflexivity.
      - simpl in Hs. apply andb_prop in Hs as [He _]. apply negb_true_iff in He.
        simpl. rewrite He. now rewrite andb_false_r. }
    rewrite Hdd. change (d :: s ++ rest) with ((d :: s) ++ rest).
    rewrite clean_copy by (simpl; rewrite Hd; exact Hs).
    simpl. now rewrite <- app_assoc.
Qed.

Lemma at_sep_slashed : forall segs, at_sep (concat (map (cons slash) segs)) = true.
Proof. destruct segs; reflexivity. Qed.

Lemma clean_plain : forall segs out dd, Forall (fun s => seg_ok s = true) segs ->
  length out <> 0 ->
  clean_loop false (concat (map (cons slash) segs)) true out dd =
  (rev (concat (map (cons slash) segs)) ++ out, dd).
Proof.
  induction segs as [|s segs IH]; intros out dd Hf Hout; [reflexivity|].
  inversion Hf as [|? ? Hs Hsegs]; subst.
  destruct s as [|c s]; [discriminate|].
  cbn [map concat app]. rewrite clean_slash.
  rewrite clean_seg by (auto using at_sep_slashed).
  unfold start_seg, sep_needed. simpl negb.
  destruct (Nat.eqb_spec (length out) 0) as [E|E]; [contradiction|]. simpl.
  rewrite IH; auto.
  - f_equal. simpl. rewrite !rev_app_distr. simpl. now rewrite <- !app_assoc.
  - rewrite length_app. simpl. lia.
Qed.

Lemma Clean_path_of : forall segs, segs <> [] -> Forall (fun s => seg_ok s = true) segs ->
  Clean (path_of segs) = path_of segs.
Proof.
  intros [|s0 segs] Hne Hf; [contradiction|].
  inversion Hf as [|? ? Hs Hsegs]; subst.
  destruct s0 as [|c s]; [discriminate|].
  destruct (seg_ok_inv c s Hs) as (Hc & _).
  unfold path_of, Clean. cbn [app]. rewrite Hc.
  rewrite clean_seg by (auto using at_sep_slashed).
  unfold start_seg, sep_needed. simpl.
  rewrite clean_plain; auto.
  - simpl. rewrite !rev_app_distr, !rev_involutive.
    match goal with |- context [?n =? 0] => destruct (Nat.eqb_spec n 0) as [E|E] end.
    + rewrite ?length_app, ?length_rev in E; simpl in E; lia.
    + reflexivity.
  - rewrite length_app. simpl. lia.
Qed.

(** ** [path.Join] on well-formed elements *)

Lemma join_buf_nonempty : forall l buf, buf <> [] ->
  join_buf buf l = buf ++ concat (map (cons slash) l).
Proof.
  induction l as [|e l IH]; intros buf Hb; simpl; [now rewrite app_nil_r|].
  destruct buf as [|x buf]; [contradiction|]. simpl.
  rewrite IH by discriminate. simpl. now rewrite <- !app_assoc.
Qed.

Lemma path_of_nonempty : forall segs, Forall (fun s => seg_ok s = true) segs ->
  path_of segs = [] -> segs = [].
Proof.
  intros [|[|c s] segs] Hf H; auto.
  - inversion Hf as [|? ? Hs _]. discriminate.
  - discriminate.
Qed.

Lemma path_of_app : forall psegs e rest, path_of (psegs ++ e :: rest) =
  match psegs with
  | [] => e ++ concat (map (cons slash) rest)
  | _ => path_of psegs ++ slash :: e ++ concat (map (cons slash) rest)
  end.
Proof.
  intros [|s0 psegs] e rest; [reflexivity|]. simpl.
  rewrite map_app, concat_app. simpl. now rewrite <- app_assoc.
Qed.

Lemma join_buf_parts : forall psegs (b : bool) e rest,
  Forall (fun s => seg_ok s = true) psegs -> (b = false -> psegs = []) -> e <> [] ->
  join_buf [] ((if b then [path_of psegs] else []) ++ e :: rest) =
  path_of (psegs ++ e :: rest).
Proof.
  intros psegs b e rest Hf Hb He. rewrite path_of_app.
  destruct b.
  - destruct psegs as [|s0 ps].
    + simpl. destruct e as [|x e]; [contradiction|]. simpl.
      rewrite join_buf_nonempty by discriminate. reflexivity.
    + assert (Hne : path_of (s0 :: ps) <> []).
      { intros E. apply path_of_nonempty in E; [discriminate|exact Hf]. }
      cbn [app join_buf]. destruct (path_of (s0 :: ps)) as [|x p] eqn:Ep; [contradiction|].
      simpl. rewrite join_buf_nonempty by (destruct p; discriminate).
      simpl. now rewrite <- !app_assoc.
  - rewrite (Hb eq_refl). simpl. destruct e as [|x e]; [contradiction|]. simpl.
    rewrite join_buf_nonempty by discriminate. reflexivity.
Qed.

Lemma fold_left_length : forall (l : list gostr) k,
  fold_left (fun n e => n + length e) l k = k + length (concat l).
Proof.
  induction l as [|e l IH]; intros k; simpl; [lia|].
  rewrite IH, length_app. lia.
Qed.

(** ** The time layout on valid civil times *)

Lemma appendInt2 : forall b x, (0 <= x < 100)%Z -> appendInt b x 2 = b ++ two x.
Proof.
  intros b x Hx. unfold appendInt, two.
  destruct (Z.ltb_spec x 0); [lia|]. rewrite Z.abs_eq by lia.
  destruct (Z.ltb_spec x 100); [|lia]. reflexivity.
Qed.

Lemma appendInt4 : forall b x, (0 <= x < 10000)%Z -> appendInt b x 4 = b ++ four x.
Proof.
  intros b x Hx. unfold appendInt, four.
  destruct (Z.ltb_spec x 0); [lia|]. rewrite Z.abs_eq by lia.
  destruct (Z.ltb_spec x 10000); [|lia]. simpl andb. reflexivity.
Qed.

Lemma FormatKeyTime_valid : forall t, valid_civil t ->
  FormatKeyTime t = four (year t) ++ two (month t) ++ two (day t) ++ [("T")%char] ++
                    two (hour t) ++ two (minute t) ++ two (second t) ++ [("Z")%char].
Proof.
  intros t (Hy & Hm & Hd & Hh & Hmi & Hs). unfold FormatKeyTime. cbv zeta.
  rewrite appendInt4 by lia. rewrite !appendInt2 by lia.
  now rewrite <- !app_assoc.
Qed.

Lemma FormatKeyTime_length : forall t, valid_civil t -> length (FormatKeyTime t) = 16.
Proof. intros t Ht. now rewrite FormatKeyTime_valid. Qed.

Lemma FormatKeyTime_compare : forall t1 t2, valid_civil t1 -> valid_civil t2 ->
  str_compare (FormatKeyTime t1) (FormatKeyTime t2) = civil_compare t1 t2.
Proof.
  intros t1 t2 H1 H2. rewrite !FormatKeyTime_valid by assumption.
  destruct H1 as (Hy1 & Hm1 & Hd1 & Hh1 & Hmi1 & Hs1).
  destruct H2 as (Hy2 & Hm2 & Hd2 & Hh2 & Hmi2 & Hs2).
  rewrite !str_compare_app_len by reflexivity.
  rewrite four_compare by lia. rewrite !two_compare by lia. rewrite !str_compare_refl.
  unfold civil_compare.
  destruct (Z.compare (year t1) (year t2)); auto.
  destruct (Z.compare (month t1) (month t2)); auto.
  destruct (Z.compare (day t1) (day t2)); auto.
  destruct (Z.compare (hour t1) (hour t2)); auto.
  destruct (Z.compare (minute t1) (minute t2)); auto.
  destruct (Z.compare (second t1) (second t2)); auto.
Qed.

(** ** Shape of the keys built from well-formed components *)

Lemma BuildObjectKey_eq : forall prefix dbType dbName backupType when extension,
  BuildObjectKey prefix dbType dbName backupType when extension =
  Join (((if 0 <? length prefix then [TrimSlash prefix] else []) ++ [dbType; dbName]) ++
        [key_suffix when backupType extension]).
Proof. reflexivity. Qed.

Lemma seg_ok_len : forall s, seg_ok s = true -> 0 < length s.
Proof.
  intros s H. unfold seg_ok in H.
  apply andb_prop in H as [H _]. apply andb_prop in H as [H _].
  apply andb_prop in H as [H _]. now apply Nat.ltb_lt.
Qed.

Lemma no_slash_two : forall x, (0 <= x < 100)%Z -> no_slash (two x) = true.
Proof.
  intros x Hx. unfold no_slash, two. cbn [forallb].
  rewrite !utod_not_slash; [reflexivity| |].
  - apply Z.mod_pos_bound; lia.
  - split; [apply Z.div_pos|apply Z.div_lt_upper_bound]; lia.
Qed.

Lemma no_slash_four : forall x, (0 <= x < 10000)%Z -> no_slash (four x) = true.
Proof.
  intros x Hx. unfold no_slash, four. cbn [forallb].
  rewrite !utod_not_slash; [reflexivity| | | |];
    try (apply Z.mod_pos_bound; lia).
  split; [apply Z.div_pos|apply Z.div_lt_upper_bound]; lia.
Qed.

Lemma no_slash_app : forall a b, no_slash (a ++ b) = no_slash a && no_slash b.
Proof. intros a b. apply forallb_app. Qed.

Lemma gostr_eqb_short : forall s t, length t < length s -> gostr_eqb s t = false.
Proof.
  intros s t H. destruct (gostr_eqb s t) eqn:E; [|reflexivity].
  apply gostr_eqb_eq in E. subst. lia.
Qed.

Lemma key_suffix_ok : forall t bt ext, valid_civil t -> no_slash bt = true ->
  no_slash ext = true -> seg_ok (key_suffix t bt ext) = true.
Proof.
  intros t bt ext Ht Hbt Hext.
  assert (Hf : no_slash (FormatKeyTime t) = true).
  { pose proof Ht as (Hy & Hm & Hd & Hh & Hmi & Hs).
    rewrite FormatKeyTime_valid by exact Ht. rewrite !no_slash_app.
    rewrite no_slash_four, !no_slash_two by lia. reflexivity. }
  assert (Hl : 16 <= length (key_suffix t bt ext)).
  { unfold key_suffix. rewrite <- (FormatKeyTime_length t Ht).
    destruct (0 <? length ext); rewrite !length_app; lia. }
  unfold seg_ok. rewrite !gostr_eqb_short by (simpl; lia).
  replace (0 <? length (key_suffix t bt ext)) with true by (symmetry; apply Nat.ltb_lt; lia).
  unfold key_suffix. destruct (0 <? length ext); rewrite !no_slash_app, Hf, Hbt;
    simpl; try rewrite Hext; reflexivity.
Qed.

(** Under well-formed components, [path.Join] is plain concatenation with slashes. *)
Lemma Join_plain : forall prefix psegs rest,
  TrimSlash prefix = path_of psegs -> Forall (fun s => seg_ok s = true) psegs ->
  rest <> [] -> Forall (fun s => seg_ok s = true) rest ->
  Join ((if 0 <? length prefix then [TrimSlash prefix] else []) ++ rest) =
  path_of (psegs ++ rest).
Proof.
  intros prefix psegs rest Ht Hp Hne Hr.
  destruct rest as [|e rest]; [contradiction|].
  inversion Hr as [|? ? He Hrest]; subst.
  pose proof (seg_ok_len e He) as Hel.
  unfold Join. rewrite fold_left_length.
  destruct (Nat.eqb_spec (0 + length (concat ((if 0 <? length prefix then [TrimSlash prefix]
                                               else []) ++ e :: rest))) 0) as [E|E].
  - rewrite concat_app, length_app in E. simpl in E. rewrite length_app in E. lia.
  - rewrite Ht. rewrite join_buf_parts; auto.
    + apply Clean_path_of; [destruct psegs; discriminate|].
      apply Forall_app; auto.
    + intros Hb. apply path_of_nonempty; auto. rewrite <- Ht.
      destruct prefix; [reflexivity|discriminate].
    + destruct e; [simpl in Hel; lia|discriminate].
Qed.

Lemma BuildPrefix_plain : forall prefix psegs dbType dbName,
  TrimSlash prefix = path_of psegs -> Forall (fun s => seg_ok s = true) psegs ->
  seg_ok dbType = true -> seg_ok dbName = true ->
  BuildPrefix prefix dbType dbName = path_of (psegs ++ [dbType; dbName]).
Proof.
  intros prefix psegs dbType dbName Ht Hp H1 H2. unfold BuildPrefix. cbv zeta.
  replace (0 <? length dbType) with true by (symmetry; apply Nat.ltb_lt, seg_ok_len; auto).
  replace (0 <? length dbName) with true by (symmetry; apply Nat.ltb_lt, seg_ok_len; auto).
  rewrite <- app_assoc. apply Join_plain; auto; discriminate.
Qed.

Lemma BuildObjectKey_plain : forall prefix psegs dbType dbName backupType when ext,
  TrimSlash prefix = path_of psegs -> Forall (fun s => seg_ok s = true) psegs ->
  seg_ok dbType = true -> seg_ok dbName = true ->
  no_slash backupType = true -> no_slash ext = true -> valid_civil when ->
  BuildObjectKey prefix dbType dbName backupType when ext =
  BuildPrefix prefix dbType dbName ++ slash :: key_suffix when backupType ext.
Proof.
  intros prefix psegs dbType dbName bt when ext Ht Hp H1 H2 Hbt Hext Hw.
  rewrite BuildObjectKey_eq, (BuildPrefix_plain prefix psegs) by auto.
  rewrite <- !app_assoc. rewrite Join_plain with (psegs := psegs); auto.
  - replace (psegs ++ [dbType; dbName] ++ [key_suffix when bt ext])
      with ((psegs ++ [dbType]) ++ dbName :: [key_suffix when bt ext])
      by (now rewrite <- app_assoc).
    replace (psegs ++ [dbType; dbName]) with ((psegs ++ [dbType]) ++ [dbName])
      by (now rewrite <- app_assoc).
    rewrite !path_of_app. destruct psegs; simpl; rewrite !app_nil_r, <- !app_assoc;
      reflexivity.
  - simpl; discriminate.
  - repeat constructor; auto. apply key_suffix_ok; auto.
Qed.

(** ** [path.Clean] keeps a final plain segment *)

Lemma at_sep_app_slash : forall a rest, at_sep (a ++ slash :: rest) = at_sep (a ++ [slash]).
Proof. destruct a; reflexivity. Qed.

Lemma clean_split : forall n a r cp out dd rest, length a <= n ->
  clean_loop r (a ++ slash :: rest) cp out dd =
  let (o, d) := clean_loop r (a ++ [slash]) cp out dd in clean_loop r rest false o d.
Proof.
  induction n as [|n IH]; intros a r cp out dd rest Hlen.
  - destruct a; [|simpl in Hlen; lia]. cbn [app]. rewrite !clean_slash. reflexivity.
  - destruct a as [|c a]; [cbn [app]; rewrite !clean_slash; reflexivity|].
    simpl in Hlen. cbn [app]. rewrite !clean_loop_cons, !at_sep_app_slash.
    destruct (cp && negb (Ascii.eqb c slash)); [apply IH; lia|].
    destruct (Ascii.eqb c slash); [apply IH; lia|].
    destruct (Ascii.eqb c dot && at_sep (a ++ [slash])); [apply IH; lia|].
    destruct a as [|d a].
    + cbn [app]. simpl (Ascii.eqb slash dot). rewrite andb_false_r. cbn [andb].
      apply (IH []). simpl; lia.
    + cbn [app]. rewrite at_sep_app_slash.
      destruct (Ascii.eqb c dot && Ascii.eqb d dot && at_sep (a ++ [slash])).
      * destruct (dotdot_step r out dd) as [o' d']. apply IH. simpl in Hlen; lia.
      * apply (IH (d :: a)). simpl in Hlen |- *; lia.
Qed.

Lemma Clean_last_seg : forall a c s, seg_ok (c :: s) = true ->
  exists P, Clean (a ++ slash :: c :: s) = P ++ c :: s.
Proof.
  intros a c s Hs. unfold Clean.
  destruct (a ++ slash :: c :: s) as [|h t] eqn:Ep; [destruct a; discriminate|].
  rewrite <- Ep. rewrite (clean_split (length a)) by lia.
  destruct (clean_loop _ (a ++ [slash]) false _ _) as [o d].
  replace (c :: s) with (c :: s ++ []) by (now rewrite app_nil_r).
  rewrite clean_seg by (exact Hs || reflexivity || (rewrite app_nil_r; exact Hs)).
  cbn [clean_loop fst]. unfold start_seg.
  destruct (Nat.eqb_spec (length (rev s ++ c :: (if sep_needed (Ascii.eqb h slash) o
                                                  then slash :: o else o))) 0) as [E|E].
  - rewrite length_app in E. simpl in E. lia.
  - exists (rev (if sep_needed (Ascii.eqb h slash) o then slash :: o else o)).
    rewrite rev_app_distr, rev_involutive, app_nil_r. simpl. now rewrite <- app_assoc.
Qed.

Lemma split_last_slash : forall l, exists A B, l = A ++ B /\ no_slash B = true /\
  (A = [] \/ exists A', A = A' ++ [slash]).
Proof.
  induction l as [|x l IH].
  - exists [], []. repeat split; auto.
  - destruct IH as (A & B & -> & HB & [-> | (A' & ->)]).
    + destruct (Ascii.eqb_spec x slash) as [->|Hx].
      * exists [slash], B. repeat split; auto. right. exists []. reflexivity.
      * exists [], (x :: B). repeat split; auto. simpl. rewrite HB.
        destruct (Ascii.eqb_spec x slash); [contradiction|reflexivity].
    + exists (x :: A' ++ [slash]), B. repeat split; auto. right. exists (x :: A').
      reflexivity.
Qed.

Lemma last_app_ne : forall (l l' : gostr) d, l' <> [] -> last (l ++ l') d = last l' d.
Proof.
  induction l as [|x l IH]; intros l' d H; [reflexivity|].
  simpl. rewrite IH by exact H. destruct l, l'; simpl; auto; contradiction.
Qed.

Lemma no_slash_last : forall l d, no_slash l = true -> l <> [] -> last l d <> slash.
Proof.
  induction l as [|x l IH]; intros d H Hne; [contradiction|].
  simpl in H. apply andb_prop in H as [Hx Hl].
  destruct l as [|y l].
  - simpl. intros E. subst. discriminate.
  - change (last (x :: y :: l) d) with (last (y :: l) d). apply IH; auto. discriminate.
Qed.

Lemma HasSuffix_last : forall s suf d, suf <> [] -> HasSuffix s suf = true ->
  last s d = last suf d.
Proof.
  intros s suf d Hne H. unfold HasSuffix in H. apply andb_prop in H as [_ H].
  apply gostr_eqb_eq in H.
  rewrite <- (firstn_skipn (length s - length suf) s), H.
  apply last_app_ne, Hne.
Qed.

Lemma HasSuffix_app : forall s suf, HasSuffix (s ++ suf) suf = true.
Proof.
  intros s suf. unfold HasSuffix. rewrite length_app.
  replace (length s + length suf - length suf) with (length s) by lia.
  rewrite skipn_app, skipn_all, Nat.sub_diag. simpl.
  rewrite gostr_eqb_refl, andb_true_r. apply Nat.leb_le. lia.
Qed.

Lemma join_buf_app : forall l1 l2 buf,
  join_buf buf (l1 ++ l2) = join_buf (join_buf buf l1) l2.
Proof.
  induction l1 as [|e l1 IH]; intros l2 buf; [reflexivity|].
  simpl. destruct ((0 <? length buf) || (0 <? length e)); apply IH.
Qed.

Lemma join_buf_last : forall b e, e <> [] ->
  join_buf b [e] = (if 0 <? length b then b ++ [slash] else b) ++ e.
Proof.
  intros b e He. simpl. destruct e as [|x e]; [contradiction|]. simpl.
  now rewrite orb_true_r.
Qed.

(** ** [path.Clean] of a path followed by one plain segment *)

Lemma at_sep_snoc : forall a, at_sep (a ++ [slash]) = at_sep a.
Proof. destruct a; reflexivity. Qed.

Lemma clean_trailing_slash : forall n X r cp out dd, length X <= n ->
  clean_loop r (X ++ [slash]) cp out dd = clean_loop r X cp out dd.
Proof.
  induction n as [|n IH]; intros X r cp out dd Hlen.
  - destruct X; [|simpl in Hlen; lia]. cbn [app]. rewrite clean_slash. destruct cp; reflexivity.
  - destruct X as [|c a]; [cbn [app]; rewrite clean_slash; destruct cp; reflexivity|].
    simpl in Hlen. cbn [app]. rewrite !clean_loop_cons, at_sep_snoc.
    destruct (cp && negb (Ascii.eqb c slash)); [apply IH; lia|].
    destruct (Ascii.eqb c slash); [apply IH; lia|].
    destruct (Ascii.eqb c dot && at_sep a); [apply IH; lia|].
    destruct a as [|d a].
    + cbn [app]. simpl (Ascii.eqb slash dot). rewrite andb_false_r. cbn [andb].
      rewrite clean_slash. reflexivity.
    + cbn [app]. rewrite at_sep_snoc.
      destruct (Ascii.eqb c dot && Ascii.eqb d dot && at_sep a).
      * destruct (dotdot_step r out dd) as [o' d']. apply IH. simpl in Hlen; lia.
      * apply (IH (d :: a)). simpl in Hlen |- *; lia.
Qed.

Lemma Clean_nonempty : forall X, X <> [] ->
  Clean X =
  let rooted := match X with [] => true | h :: _ => Ascii.eqb h slash end in
  let out := fst (clean_loop rooted X false (if rooted then [slash] else [])
                                         (if rooted then 1 else 0)) in
  if length out =? 0 then [dot] else rev out.
Proof. intros [|h X] H; [contradiction|reflexivity]. Qed.

Lemma rooted_app : forall (X R : gostr), X <> [] ->
  match X ++ R with [] => true | h :: _ => Ascii.eqb h slash end =
  match X with [] => true | h :: _ => Ascii.eqb h slash end.
Proof. intros [|h X] R H; [contradiction|reflexivity]. Qed.

(** Unless [X] cleans to ["."], a plain segment appended to [X] is appended to [Clean X],
    after a separating slash unless [Clean X] is the root. *)
Lemma Clean_append_seg : forall X, X <> [] -> Clean X <> [dot] ->
  exists sep, (sep = [] \/ sep = [slash]) /\
    forall c s, seg_ok (c :: s) = true -> Clean (X ++ slash :: c :: s) = Clean X ++ sep ++ c :: s.
Proof.
  intros X HX HC.
  assert (HXR : forall R, X ++ R <> []) by (intros R E; apply app_eq_nil in E; tauto).
  rewrite (Clean_nonempty X HX) in HC |- *. cbv zeta in HC |- *.
  set (r := match X with [] => true | h :: _ => Ascii.eqb h slash end) in HC |- *.
  destruct (clean_loop r X false (if r then [slash] else []) (if r then 1 else 0)) as [o d] eqn:E.
  cbn [fst] in HC |- *.
  destruct (Nat.eqb_spec (length o) 0) as [Ho|Ho]; [contradiction|].
  exists (if sep_needed r o then [slash] else []). split.
  { destruct (sep_needed r o); [right|left]; reflexivity. }
  intros c s Hs.
  rewrite (Clean_nonempty (X ++ slash :: c :: s) (HXR _)). cbv zeta.
  rewrite rooted_app by exact HX. fold r.
  rewrite (clean_split (length X)) by lia. rewrite clean_trailing_slash with (n := length X) by lia.
  rewrite E. cbv beta iota.
  replace (c :: s) with (c :: s ++ []) by (now rewrite app_nil_r).
  rewrite clean_seg by (rewrite ?app_nil_r; exact Hs || reflexivity).
  rewrite !app_nil_r. cbn [clean_loop fst]. unfold start_seg.
    destruct (Nat.eqb_spec (length (rev s ++ c :: (if sep_needed r o then slash :: o else o))) 0)
    as [E'|E'].
  - rewrite length_app in E'. simpl in E'. lia.
  - rewrite rev_app_distr, rev_involutive. cbn [rev].
    destruct (sep_needed r o); cbn [rev]; rewrite <- !app_assoc; reflexivity.
Qed.

Lemma join_buf_snoc_ne : forall l b e, e <> [] -> join_buf b (l ++ [e]) <> [].
Proof.
  intros l b e He. rewrite join_buf_app, join_buf_last by exact He.
  intros H. apply app_eq_nil in H. destruct H as [_ H]. contradiction.
Qed.

(** Whatever the storage prefix, unless the prefix path is ["."], the key is the prefix
    path followed by its last element, with a separating slash unless the prefix path is
    the root. *)
Lemma BuildObjectKey_any_prefix : forall prefix dbType dbName backupType ext,
  dbType <> [] -> dbName <> [] -> BuildPrefix prefix dbType dbName <> [dot] ->
  exists sep, (sep = [] \/ sep = [slash]) /\
    forall when, no_slash backupType = true -> no_slash ext = true -> valid_civil when ->
    BuildObjectKey prefix dbType dbName backupType when ext =
    BuildPrefix prefix dbType dbName ++ sep ++ key_suffix when backupType ext.
Proof.
  intros prefix dbType dbName bt ext Ht Hn Hp.
  set (P := if 0 <? length prefix then [TrimSlash prefix] else []).
  set (B := join_buf [] (P ++ [dbType; dbName])).
  assert (HB : B <> []).
  { unfold B. replace (P ++ [dbType; dbName]) with ((P ++ [dbType]) ++ [dbName])
      by (now rewrite <- app_assoc). apply join_buf_snoc_ne, Hn. }
  assert (Hlen : forall l, (0 + length (concat ((P ++ [dbType; dbName]) ++ l)) =? 0) = false).
  { intros l. apply Nat.eqb_neq. rewrite !concat_app, !length_app. cbn [concat].
    rewrite !length_app. destruct dbName; [contradiction|]. simpl. lia. }
  assert (HPre : BuildPrefix prefix dbType dbName = Clean B).
  { unfold BuildPrefix. cbv zeta. fold P.
    replace (0 <? length dbType) with true by (destruct dbType; [contradiction|reflexivity]).
    replace (0 <? length dbName) with true by (destruct dbName; [contradiction|reflexivity]).
    rewrite <- app_assoc. change ([dbType] ++ [dbName]) with [dbType; dbName].
    unfold Join. rewrite fold_left_length.
    pose proof (Hlen []) as H0. rewrite app_nil_r in H0. rewrite H0. reflexivity. }
  rewrite HPre in Hp |- *.
  destruct (Clean_append_seg B HB Hp) as (sep & Hsep & Hc).
  exists sep. split; [exact Hsep|]. intros when Hbt Hext Hw.
  pose proof (key_suffix_ok when bt ext Hw Hbt Hext) as Hs.
  destruct (key_suffix when bt ext) as [|c s] eqn:Eks; [discriminate|].
  rewrite BuildObjectKey_eq, Eks. fold P. unfold Join. rewrite fold_left_length.
  rewrite Hlen, join_buf_app, join_buf_last by discriminate.
  change (join_buf [] (P ++ [dbType; dbName])) with B.
  destruct B as [|b B']; [contradiction|]. cbn [length Nat.ltb Nat.leb].
  rewrite <- app_assoc. apply Hc, Hs.
Qed.

(** ** Claims on the key builder *)

(** C8 (counterexample).  With the non-empty database name [".."], [path.Join] cleans the
    dot-dot segment away: the prefix path is ["."] and the key
    ["20240101T100000Z_full.backup"] does not start with it.  A timestamp in the year
    10000 is printed with five year digits, so its key sorts before a key of the year 9999
    although it is later; the years -10 and -1 print as ["-0010"] and ["-0001"], so the
    earlier one sorts after.  A backup type or an extension of ["x/.."] makes
    [path.Join] clean the whole last element away: the key is the prefix path itself, not
    a strict extension of it. *)
Lemma BuildObjectKey_prefix_order_counterexample :
  HasPrefix (BuildObjectKey [] (s2l "pg") (s2l "..") (s2l "full") t20240101 (s2l "backup"))
            (BuildPrefix [] (s2l "pg") (s2l "..")) = false /\
  BuildPrefix [] (s2l "pg") (s2l "..") = s2l "." /\
  civil_compare t99991231 t100000101 = Lt /\
  str_compare
    (BuildObjectKey (s2l "backups") (s2l "pg") (s2l "db") (s2l "full") t99991231 (s2l "backup"))
    (BuildObjectKey (s2l "backups") (s2l "pg") (s2l "db") (s2l "full") t100000101 (s2l "backup"))
  = Gt /\
  civil_compare t_minus10 t_minus1 = Lt /\
  str_compare
    (BuildObjectKey (s2l "backups") (s2l "pg") (s2l "db") (s2l "full") t_minus10 (s2l "backup"))
    (BuildObjectKey (s2l "backups") (s2l "pg") (s2l "db") (s2l "full") t_minus1 (s2l "backup"))
  = Gt /\
  BuildObjectKey [] (s2l "pg") (s2l "db") (s2l "x/..") t20240101 [] =
  BuildPrefix [] (s2l "pg") (s2l "db") /\
  BuildObjectKey [] (s2l "pg") (s2l "db") (s2l "full") t20240101 (s2l "x/..") =
  BuildPrefix [] (s2l "pg") (s2l "db").
Proof. vm_compute. repeat split. Qed.

(** C8 (amended).  For every storage prefix, non-empty database type and name such that
    the built prefix path is not ["."], backup type and extension without a slash, and
    timestamps that are valid civil times of the years 0 to 9999: (1) a later timestamp
    gives a lexicographically greater key, and (2) the key starts with the prefix path and
    is longer than it. *)
Theorem BuildObjectKey_sorted_and_prefixed :
  forall prefix dbType dbName backupType ext t1 t2,
  dbType <> [] -> dbName <> [] -> BuildPrefix prefix dbType dbName <> s2l "." ->
  no_slash backupType = true -> no_slash ext = true ->
  valid_civil t1 -> valid_civil t2 ->
  (civil_compare t1 t2 = Lt ->
   str_lt (BuildObjectKey prefix dbType dbName backupType t1 ext)
          (BuildObjectKey prefix dbType dbName backupType t2 ext)) /\
  HasPrefix (BuildObjectKey prefix dbType dbName backupType t1 ext)
            (BuildPrefix prefix dbType dbName) = true /\
  length (BuildPrefix prefix dbType dbName) <
  length (BuildObjectKey prefix dbType dbName backupType t1 ext).
Proof.
  intros prefix dbType dbName bt ext t1 t2 Ht Hn Hp Hbt Hext Hv1 Hv2.
  destruct (BuildObjectKey_any_prefix prefix dbType dbName bt ext Ht Hn Hp) as (sep & _ & Hk).
  rewrite !Hk by assumption.
  repeat split.
  - intros Hlt. unfold str_lt. rewrite !app_assoc, str_compare_app_same.
    unfold key_suffix.
    assert (Hl : length (FormatKeyTime t1) = length (FormatKeyTime t2))
      by (now rewrite !FormatKeyTime_length).
    destruct (0 <? length ext); rewrite <- ?app_assoc;
      rewrite (str_compare_app_len (FormatKeyTime t1)) by exact Hl;
      rewrite FormatKeyTime_compare, Hlt by assumption; reflexivity.
  - apply HasPrefix_app.
  - rewrite !length_app. pose proof (seg_ok_len _ (key_suffix_ok t1 bt ext Hv1 Hbt Hext)). lia.
Qed.

(** A witness of the hypotheses of [BuildObjectKey_sorted_and_prefixed], on a prefix with
    an empty segment and a dot-dot segment. *)
Lemma BuildObjectKey_sorted_and_prefixed_witness :
  BuildPrefix (s2l "/a//b/../c/") (s2l "pg") (s2l "db") = s2l "a/c/pg/db" /\
  valid_civil t20240101 /\ valid_civil t99991231 /\
  civil_compare t20240101 t99991231 = Lt /\
  str_lt (BuildObjectKey (s2l "/a//b/../c/") (s2l "pg") (s2l "db") (s2l "full")
            t20240101 (s2l "backup.gz.enc"))
         (BuildObjectKey (s2l "/a//b/../c/") (s2l "pg") (s2l "db") (s2l "full")
            t99991231 (s2l "backup.gz.enc")) /\
  HasPrefix (BuildObjectKey (s2l "/a//b/../c/") (s2l "pg") (s2l "db") (s2l "full")
               t20240101 (s2l "backup.gz.enc"))
            (BuildPrefix (s2l "/a//b/../c/") (s2l "pg") (s2l "db")) = true.
Proof.
  assert (Hv1 : valid_civil t20240101) by (unfold valid_civil; simpl; lia).
  assert (Hv2 : valid_civil t99991231) by (unfold valid_civil; simpl; lia).
  assert (Hlt : civil_compare t20240101 t99991231 = Lt) by (vm_compute; reflexivity).
  assert (Hp : BuildPrefix (s2l "/a//b/../c/") (s2l "pg") (s2l "db") <> s2l ".")
    by (vm_compute; discriminate).
  destruct (BuildObjectKey_sorted_and_prefixed (s2l "/a//b/../c/") (s2l "pg") (s2l "db")
              (s2l "full") (s2l "backup.gz.enc") t20240101 t99991231
              ltac:(discriminate) ltac:(discriminate) Hp ltac:(reflexivity) ltac:(reflexivity)
              Hv1 Hv2) as (Hord & Hpre & _).
  refine (conj _ (conj Hv1 (conj Hv2 (conj Hlt (conj (Hord Hlt) Hpre))))).
  vm_compute; reflexivity.
Defined.

Lemma buildExtension_ok : forall compression encryption,
  ext_ok (buildExtension compression encryption) = true.
Proof.
  intros compression encryption. unfold buildExtension.
  destruct (gostr_eqb compression TypeGzip), (gostr_eqb compression TypeZstd), encryption;
    vm_compute; reflexivity.
Qed.

Lemma ext_ok_inv : forall ext, ext_ok ext = true ->
  no_slash ext = true /\ ext <> [] /\ last ext dot <> dot /\ last ext dot <> "n"%char.
Proof.
  intros ext H. unfold ext_ok in H.
  repeat match goal with H : _ && _ = true |- _ => apply andb_prop in H as [? ?] end.
  repeat split; auto.
  - destruct ext; [discriminate|]. discriminate.
  - intros E. rewrite E in *. discriminate.
  - intros E. rewrite E in *. discriminate.
Qed.

(** Whatever the components, the last byte of a key is the last byte of its extension. *)
Lemma BuildObjectKey_last : forall prefix dbType dbName backupType when ext,
  ext_ok ext = true ->
  last (BuildObjectKey prefix dbType dbName backupType when ext) dot = last ext dot.
Proof.
  intros prefix dbType dbName bt when ext Hext.
  destruct (ext_ok_inv ext Hext) as (Hns & Hne & Hdot & _).
  set (suffix := key_suffix when bt ext).
  assert (Hsuf : exists X, suffix = X ++ ext).
  { unfold suffix, key_suffix. destruct ext as [|x e]; [contradiction|]. simpl.
    exists (FormatKeyTime when ++ [("_")%char] ++ bt ++ [dot]).
    now rewrite <- !app_assoc. }
  destruct Hsuf as (X & HX).
  assert (Hlast : last suffix dot = last ext dot) by (rewrite HX; apply last_app_ne, Hne).
  assert (Hsne : suffix <> []) by (rewrite HX; destruct X, ext; try discriminate; contradiction).
  rewrite BuildObjectKey_eq. fold suffix. unfold Join. rewrite fold_left_length.
  rewrite join_buf_app, join_buf_last by exact Hsne.
  set (L := (if 0 <? length prefix then [TrimSlash prefix] else []) ++ [dbType; dbName]).
  destruct (Nat.eqb_spec (0 + length (concat (L ++ [suffix]))) 0) as [E|E].
  { rewrite concat_app, length_app in E. simpl in E. rewrite app_nil_r in E.
    destruct suffix; [contradiction|simpl in E; lia]. }
  destruct (split_last_slash suffix) as (A & B & HAB & HB & HA).
  assert (HBne : B <> []).
  { intros ->. rewrite app_nil_r in HAB. destruct HA as [-> | (A' & ->)]; subst.
    - contradiction.
    - rewrite HAB, last_last in Hlast. pose proof (no_slash_last ext dot Hns Hne).
      congruence. }
  assert (HlB : last B dot = last ext dot) by (rewrite <- Hlast, HAB; now apply eq_sym, last_app_ne).
  destruct B as [|c s]; [contradiction|].
  assert (Hseg : seg_ok (c :: s) = true).
  { unfold seg_ok. rewrite HB. simpl length.
    rewrite !(proj2 (Bool.negb_true_iff _)); [reflexivity| |].
    - destruct (gostr_eqb (c :: s) [dot; dot]) eqn:E2; [|reflexivity].
      apply gostr_eqb_eq in E2. rewrite E2 in HlB. simpl in HlB. congruence.
    - destruct (gostr_eqb (c :: s) [dot]) eqn:E1; [|reflexivity].
      apply gostr_eqb_eq in E1. rewrite E1 in HlB. simpl in HlB. congruence. }
  rewrite HAB, app_assoc.
  set (P0 := (if 0 <? length (join_buf [] L) then join_buf [] L ++ [slash] else join_buf [] L) ++ A).
  assert (HP0 : P0 = [] \/ exists P', P0 = P' ++ [slash]).
  { unfold P0. destruct HA as [-> | (A' & ->)].
    - rewrite app_nil_r. destruct (Nat.ltb_spec 0 (length (join_buf [] L))).
      + right. eexists. reflexivity.
      + left. destruct (join_buf [] L); [reflexivity|simpl in *; lia].
    - right. exists ((if 0 <? length (join_buf [] L) then join_buf [] L ++ [slash]
                      else join_buf [] L) ++ A'). now rewrite app_assoc. }
  rewrite <- HlB. destruct HP0 as [-> | (P' & ->)].
  - cbn [app].
    assert (HC : Clean (c :: s) = c :: s).
    { pose proof (Clean_path_of [c :: s]) as H0. unfold path_of in H0.
      cbn [map concat] in H0. rewrite app_nil_r in H0.
      apply H0; [discriminate|repeat constructor; exact Hseg]. }
    rewrite HC. reflexivity.
  - rewrite <- app_assoc. simpl. destruct (Clean_last_seg P' c s Hseg) as (P & ->).
    now apply last_app_ne.
Qed.

(** C10.  For every compression setting and encryption flag, the extension built by
    [buildExtension] starts with "backup" and does not end with ".manifest.json"; a
    manifest key always ends with it; so, for any prefix, database, backup type and time,
    the artifact key written by [Backup] is never classified as a manifest by the
    suffix test of the storage listing, and its sibling manifest key always is. *)
Theorem buildExtension_manifest_classification :
  forall compression encryption prefix dbType dbName backupType when,
  let ext := buildExtension compression encryption in
  let key := BuildObjectKey prefix dbType dbName backupType when ext in
  HasPrefix ext (s2l "backup") = true /\
  HasSuffix ext ManifestSuffix = false /\
  (forall k, HasSuffix (ManifestKey k) ManifestSuffix = true) /\
  IsManifest key = false /\
  IsManifest (ManifestKey key) = true.
Proof.
  intros compression encryption prefix dbType dbName bt when ext key.
  pose proof (buildExtension_ok compression encryption) as Hok. fold ext in Hok.
  destruct (ext_ok_inv ext Hok) as (_ & _ & _ & Hn).
  assert (Hnot : forall s, last s dot = last ext dot -> HasSuffix s ManifestSuffix = false).
  { intros s Hs. destruct (HasSuffix s ManifestSuffix) eqn:E; [|reflexivity].
    apply (HasSuffix_last s ManifestSuffix dot) in E; [|discriminate].
    rewrite Hs in E. vm_compute in E. contradiction. }
  repeat split.
  - unfold ext_ok in Hok.
    repeat match goal with H : _ && _ = true |- _ => apply andb_prop in H as [? ?] end.
    assumption.
  - apply Hnot. reflexivity.
  - intros k. apply HasSuffix_app.
  - apply Hnot. apply BuildObjectKey_last, Hok.
  - apply HasSuffix_app.
Qed.

(** ** DecryptConfig *)

Lemma gostr_eqb_neq : forall a b, a <> b -> gostr_eqb a b = false.
Proof.
  intros a b H. destruct (gostr_eqb a b) eqn:E; [|reflexivity].
  apply gostr_eqb_eq in E. contradiction.
Qed.

Lemma DecryptConfig_error_no_plain : forall lib ct key,
  snd (DecryptConfig lib ct key) <> None -> fst (DecryptConfig lib ct key) = None.
Proof.
  intros lib ct key. unfold DecryptConfig.
  destruct (length ct <? 4 + 2 + 12); [reflexivity|].
  destruct (negb (gostr_eqb (bytes_str (firstn 4 ct)) configMagic)); [reflexivity|].
  destruct (negb (Uint16BE (firstn 2 (skipn 4 ct)) =? configVer)%Z); [reflexivity|].
  destruct (aes_NewCipher_err key); [reflexivity|].
  destruct (gcm_Open lib key (firstn 12 (skipn 6 ct)) (skipn 18 ct)) as [plain [e|]];
    simpl; [reflexivity | intros H; contradiction].
Qed.

(** C9.  For every input and every 32-byte key, [DecryptConfig] returns no plaintext and
    an error when the input is shorter than 18 bytes, when its first four bytes are not
    "DBU1", when its big-endian version field is not 1, or when the AES-GCM open of the
    payload reports an error; and whatever the input, a call that returns an error
    returns no plaintext. *)
Theorem DecryptConfig_rejects : forall lib ciphertext key,
  length key = 32 ->
  (length ciphertext < 18 \/
   bytes_str (firstn 4 ciphertext) <> configMagic \/
   Uint16BE (firstn 2 (skipn 4 ciphertext)) <> configVer \/
   snd (gcm_Open lib key (firstn 12 (skipn 6 ciphertext)) (skipn 18 ciphertext)) <> None) ->
  (exists e, DecryptConfig lib ciphertext key = (None, Some e)) /\
  (forall ct, snd (DecryptConfig lib ct key) <> None -> fst (DecryptConfig lib ct key) = None).
Proof.
  intros lib ct key Hkey Hbad. split; [|intros c; apply DecryptConfig_error_no_plain].
  unfold DecryptConfig.
  destruct (length ct <? 4 + 2 + 12) eqn:E1; [eexists; reflexivity|].
  apply Nat.ltb_ge in E1.
  destruct (negb (gostr_eqb (bytes_str (firstn 4 ct)) configMagic)) eqn:E2;
    [eexists; reflexivity|].
  apply negb_false_iff, gostr_eqb_eq in E2.
  destruct (negb (Uint16BE (firstn 2 (skipn 4 ct)) =? configVer)%Z) eqn:E3;
    [eexists; reflexivity|].
  apply negb_false_iff, Z.eqb_eq in E3.
  unfold aes_NewCipher_err. rewrite Hkey.
  destruct (gcm_Open lib key (firstn 12 (skipn 6 ct)) (skipn 18 ct)) as [plain [e|]] eqn:E4;
    [eexists; reflexivity|].
  exfalso. simpl in Hbad. destruct Hbad as [H|[H|[H|H]]]; [lia | contradiction | contradiction | now apply H].
Qed.

Lemma DecryptConfig_rejects_witness :
  length (repeat Byte.x00 32) = 32 /\
  ((exists e, DecryptConfig sample_lib (map byte_of_ascii (s2l "DBU1")) (repeat Byte.x00 32)
              = (None, Some e)) /\
   (forall ct, snd (DecryptConfig sample_lib ct (repeat Byte.x00 32)) <> None ->
               fst (DecryptConfig sample_lib ct (repeat Byte.x00 32)) = None)).
Proof.
  split; [reflexivity|].
  apply (DecryptConfig_rejects sample_lib (map byte_of_ascii (s2l "DBU1")) (repeat Byte.x00 32)).
  - reflexivity.
  - left. simpl. lia.
Defined.

(** ** The transform chains *)

Lemma rbind_Ok : forall A (r : result A), rbind r (fun x => Ok x) = r.
Proof. intros A [a|e]; reflexivity. Qed.

Lemma ParseKey_nonempty : forall lib ks k, ParseKey lib ks = Ok k -> gostr_eqb ks [] = false.
Proof.
  intros lib ks k H. unfold ParseKey in H. destruct (gostr_eqb ks []); [discriminate|reflexivity].
Qed.

(** C1.  With a compression kind set and encryption on, the bytes the encode task sends
    to the storage sink are the compressor applied to the DARE encryption of the dump
    (encryption first, then compression), while the restore side decrypts the stored
    bytes first and decompresses the result. *)
Theorem encode_task_encrypts_then_compresses : forall lib cfg compWriter compReader k d,
  gostr_eqb (Compression cfg) [] = false ->
  gostr_eqb (Compression cfg) TypeNone = false ->
  WrapWriter lib (Compression cfg) = Ok compWriter ->
  WrapReader lib (Compression cfg) = Ok compReader ->
  Encryption cfg = true ->
  ParseKey lib (EncryptionKey cfg) = Ok k ->
  encode_task lib cfg (Ok d) = rbind (dare_w lib k d) compWriter /\
  (forall stored, decode_chain lib cfg true (Compression cfg) stored
                  = rbind (dare_r lib k stored) compReader).
Proof.
  intros lib cfg cw cr k d H1 H2 Hw Hr He Hk. split.
  - unfold encode_task. rewrite H1, H2, Hw, He, Hk. simpl.
    destruct (dare_w lib k d) as [x|e]; simpl; [apply rbind_Ok | reflexivity].
  - intros stored. unfold decode_chain. rewrite (ParseKey_nonempty _ _ _ Hk), Hk, H1. simpl.
    destruct (dare_r lib k stored); simpl; [rewrite Hr; reflexivity | reflexivity].
Qed.

Lemma encode_task_encrypts_then_compresses_witness :
  (gostr_eqb TypeGzip [] = false /\ gostr_eqb TypeGzip TypeNone = false /\
   WrapWriter sample_lib TypeGzip = Ok (gzip_w sample_lib) /\
   WrapReader sample_lib TypeGzip = Ok (gzip_r sample_lib) /\
   Encryption sample_cfg = true /\
   ParseKey sample_lib key32 = Ok (map byte_of_ascii key32)) /\
  (encode_task sample_lib sample_cfg (Ok (map byte_of_ascii (s2l "hello")))
     = rbind (dare_w sample_lib (map byte_of_ascii key32) (map byte_of_ascii (s2l "hello")))
         (gzip_w sample_lib) /\
   (forall stored, decode_chain sample_lib sample_cfg true TypeGzip stored
                   = rbind (dare_r sample_lib (map byte_of_ascii key32) stored)
                       (gzip_r sample_lib))).
Proof.
  split; [repeat split|].
  apply (encode_task_encrypts_then_compresses sample_lib sample_cfg (gzip_w sample_lib)
           (gzip_r sample_lib) (map byte_of_ascii key32)); reflexivity.
Defined.

(** With the sample codecs, the stored bytes start with the gzip header, then the DARE
    version byte: the compressor ran last. *)
Example encode_task_sample :
  encode_task sample_lib sample_cfg (Ok (map byte_of_ascii (s2l "hello")))
  = Ok ([Byte.x1f; Byte.x8b; Byte.x20] ++ map byte_of_ascii (s2l "hello")).
Proof. vm_compute. reflexivity. Qed.

(** C2.  The round trip fails for gzip with encryption: a gzip stream starts with the
    byte 0x1f, and the DARE reader rejects a stream whose first byte (the version) is
    0x1f; since the backup compresses after encrypting, the restore, which decrypts
    first, gets the gzip stream and reports an error, for every dump, the empty one
    included. *)
Theorem round_trip_fails_gzip_encrypted : forall lib cfg d,
  (forall x y, gzip_w lib x = Ok y -> exists t, y = Byte.x1f :: t) ->
  (forall k t, exists e, dare_r lib k (Byte.x1f :: t) = Err e) ->
  Compression cfg = TypeGzip ->
  Encryption cfg = true ->
  exists e, round_trip lib cfg d = Err e.
Proof.
  intros lib cfg d Hgz Hdare Hc He.
  unfold round_trip, encode_task. rewrite Hc, He. simpl.
  destruct (ParseKey lib (EncryptionKey cfg)) as [k|e] eqn:Hk; simpl; [|eexists; reflexivity].
  destruct (dare_w lib k d) as [x|e]; simpl; [|eexists; reflexivity].
  destruct (gzip_w lib x) as [y|e] eqn:Hy; simpl; [|eexists; reflexivity].
  destruct (Hgz x y Hy) as [t ->].
  unfold decode_chain. rewrite He, (ParseKey_nonempty _ _ _ Hk), Hk. simpl.
  destruct (Hdare k t) as [e He']. rewrite He'. eexists; reflexivity.
Qed.

Lemma round_trip_fails_gzip_encrypted_witness :
  ((forall x y, gzip_w sample_lib x = Ok y -> exists t, y = Byte.x1f :: t) /\
   (forall k t, exists e, dare_r sample_lib k (Byte.x1f :: t) = Err e) /\
   Compression sample_cfg = TypeGzip /\ Encryption sample_cfg = true) /\
  exists e, round_trip sample_lib sample_cfg [] = Err e.
Proof.
  assert (Hgz : forall x y, gzip_w sample_lib x = Ok y -> exists t, y = Byte.x1f :: t).
  { intros x y H. simpl in H. injection H as <-. exists (Byte.x8b :: x). reflexivity. }
  assert (Hd : forall k t, exists e, dare_r sample_lib k (Byte.x1f :: t) = Err e).
  { intros k t. eexists. reflexivity. }
  split; [repeat split; assumption|].
  apply (round_trip_fails_gzip_encrypted sample_lib sample_cfg []); auto.
Defined.

(** The three other combinations restore the dump, for codecs that invert each other. *)
Lemma round_trip_other_combinations : forall lib cfg k d,
  (forall x y, gzip_w lib x = Ok y -> gzip_r lib y = Ok x) ->
  (forall x y, zstd_w lib x = Ok y -> zstd_r lib y = Ok x) ->
  (forall x y, dare_w lib k x = Ok y -> dare_r lib k y = Ok x) ->
  (Encryption cfg = true -> ParseKey lib (EncryptionKey cfg) = Ok k) ->
  (Encryption cfg = false \/ gostr_eqb (Compression cfg) [] = true \/
   gostr_eqb (Compression cfg) TypeNone = true) ->
  forall y, encode_task lib cfg (Ok d) = Ok y -> round_trip lib cfg d = Ok d.
Proof.
  intros lib cfg k d Hg Hz Hd Hk Hcase y Hy.
  unfold round_trip. rewrite Hy. simpl.
  unfold encode_task in Hy. unfold decode_chain.
  assert (Hnone : gostr_eqb (Compression cfg) [] || gostr_eqb (Compression cfg) TypeNone = true ->
                  WrapReader lib (Compression cfg) = Ok (fun d => Ok d)).
  { intros H. unfold WrapReader. rewrite H. reflexivity. }
  destruct (Encryption cfg) eqn:He.
  - rewrite (Hk eq_refl) in Hy |- *. rewrite (ParseKey_nonempty _ _ _ (Hk eq_refl)).
    destruct Hcase as [Hc|Hc]; [discriminate|].
    assert (Hn : gostr_eqb (Compression cfg) [] || gostr_eqb (Compression cfg) TypeNone = true)
      by (destruct Hc as [Hc|Hc]; rewrite Hc; [reflexivity | apply orb_true_r]).
    assert (Hn' : negb (gostr_eqb (Compression cfg) []) && negb (gostr_eqb (Compression cfg) TypeNone) = false)
      by (rewrite <- negb_orb, Hn; reflexivity).
    rewrite Hn' in Hy. simpl in Hy.
    destruct (dare_w lib k d) as [x|e] eqn:Hx; simpl in Hy; [|discriminate].
    injection Hy as ->. simpl. rewrite (Hd _ _ Hx). simpl.
    destruct (gostr_eqb (Compression cfg) []); simpl; rewrite Hnone; auto.
  - destruct (gostr_eqb (Compression cfg) []) eqn:H0;
      [|destruct (gostr_eqb (Compression cfg) TypeNone) eqn:H1]; simpl in Hy |- *.
    + rewrite (Hnone eq_refl). simpl. congruence.
    + rewrite (Hnone eq_refl). simpl. congruence.
    + unfold WrapWriter in Hy. unfold WrapReader. rewrite ?H0, ?H1 in *. simpl in Hy |- *.
      destruct (gostr_eqb (Compression cfg) TypeGzip); simpl in Hy |- *.
      * destruct (gzip_w lib d) eqn:E; simpl in Hy; [|discriminate]. injection Hy as ->. auto.
      * destruct (gostr_eqb (Compression cfg) TypeZstd); simpl in Hy |- *; [|discriminate].
        destruct (zstd_w lib d) eqn:E; simpl in Hy; [|discriminate]. injection Hy as ->. auto.
Qed.

(** ** Backup: the idempotency check *)

Lemma backup_body_existing : forall lib cfg env s,
  Idempotent cfg = true -> exists_err env = None ->
  in_store (backup_key cfg env) (store s) = true ->
  exists e extra o,
    backup_body lib cfg env s = (Err e, mkSt (store s) (trace s ++ extra) o) /\
    (extra = [] \/
     (extra = [EvExists (backup_key cfg env)] /\
      e = s2l "backup already exists: " ++ backup_key cfg env)).
Proof.
  intros lib cfg env s Hid Hex Hin.
  assert (Hnil : forall e, exists extra o,
             (Err e, mkSt (store s) (trace s) (Some e)) = (@Err gostr e, mkSt (store s) (trace s ++ extra) o) /\
             (extra = [] \/ (extra = [EvExists (backup_key cfg env)] /\
                             e = s2l "backup already exists: " ++ backup_key cfg env))).
  { intros e. exists [], (Some e). rewrite app_nil_r. split; [reflexivity | now left]. }
  unfold backup_body.
  destruct (InWindow lib (clock env) (WindowStart cfg) (WindowEnd cfg) (Timezone cfg))
    as [[|]|e].
  2: { exists (s2l "current time is outside configured backup window"). apply Hnil. }
  2: { exists e, [], (opErr s). rewrite app_nil_r. destruct s. split; [reflexivity | now left]. }
  destruct (validate_err env) as [e|]; [exists e; apply Hnil|].
  destruct (EqualFold (BackupType cfg) (s2l "incremental") && negb (cap_incremental env));
    [eexists; apply Hnil|].
  destruct (EqualFold (BackupType cfg) (s2l "differential") && negb (cap_differential env));
    [eexists; apply Hnil|].
  destruct (Encryption cfg && gostr_eqb (EncryptionKey cfg) []); [eexists; apply Hnil|].
  rewrite Hid, Hex. unfold mbind, emit, get. cbv beta iota. cbn [add_ev store trace opErr].
  rewrite Hin.
  do 3 eexists. split; [reflexivity|]. right. split; reflexivity.
Qed.

(** C6.  With idempotent on, when the store already has an object at the key computed
    for the run (and the existence check does not fail), [Backup] returns an error and
    writes nothing: the store is unchanged, no dump is started and no Put is made;
    when the existence check is reached, the error is the pre-existing-artifact one. *)
Theorem Backup_idempotent_no_write : forall lib cfg env store0,
  Idempotent cfg = true ->
  exists_err env = None ->
  in_store (backup_key cfg env) store0 = true ->
  store (snd (Backup lib cfg env store0)) = store0 /\
  ~ In EvDump (trace (snd (Backup lib cfg env store0))) /\
  (forall k, ~ In (EvPut k) (trace (snd (Backup lib cfg env store0)))) /\
  (exists e, fst (Backup lib cfg env store0) = Err e) /\
  (In (EvExists (backup_key cfg env)) (trace (snd (Backup lib cfg env store0))) ->
   fst (Backup lib cfg env store0) = Err (s2l "backup already exists: " ++ backup_key cfg env)).
Proof.
  intros lib cfg env store0 Hid Hex Hin.
  unfold Backup.
  destruct (acquire_err env) as [e|].
  - destruct (has_notifier env); simpl;
      (split; [reflexivity|]); (split; [intuition discriminate|]);
      (split; [intros k; intuition discriminate|]);
      (split; [eexists; reflexivity|]); intuition discriminate.
  - destruct (backup_body_existing lib cfg env (add_ev EvAcquire (mkSt store0 [] None)) Hid Hex Hin)
      as (e & extra & o & -> & [-> | [-> ->]]);
      destruct (has_notifier env); simpl;
      (split; [reflexivity|]); (split; [intuition discriminate|]);
      (split; [intros k; intuition discriminate|]);
      (split; [eexists; reflexivity|]); intuition (try discriminate; try reflexivity).
Qed.

Lemma Backup_idempotent_no_write_witness :
  let cfg := {| LockFile := LockFile sample_cfg; DBType := DBType sample_cfg;
                Database := Database sample_cfg; BackupType := BackupType sample_cfg;
                Compression := Compression sample_cfg; Encryption := Encryption sample_cfg;
                EncryptionKey := EncryptionKey sample_cfg; Idempotent := true;
                KeepDays := 0; KeepLast := 0; MaxBytes := 0;
                StoragePrefix := StoragePrefix sample_cfg; WindowStart := [];
                WindowEnd := []; Timezone := [] |} in
  let store0 := [(backup_key cfg sample_env, mkObj [] 0%Z)] in
  (Idempotent cfg = true /\ exists_err sample_env = None /\
   in_store (backup_key cfg sample_env) store0 = true) /\
  (store (snd (Backup sample_lib cfg sample_env store0)) = store0 /\
   ~ In EvDump (trace (snd (Backup sample_lib cfg sample_env store0))) /\
   (forall k, ~ In (EvPut k) (trace (snd (Backup sample_lib cfg sample_env store0)))) /\
   (exists e, fst (Backup sample_lib cfg sample_env store0) = Err e) /\
   (In (EvExists (backup_key cfg sample_env)) (trace (snd (Backup sample_lib cfg sample_env store0))) ->
    fst (Backup sample_lib cfg sample_env store0)
    = Err (s2l "backup already exists: " ++ backup_key cfg sample_env))).
Proof.
  intros cfg store0.
  split; [split; [reflexivity | split; [reflexivity | vm_compute; reflexivity]]|].
  apply Backup_idempotent_no_write; [reflexivity | reflexivity | vm_compute; reflexivity].
Defined.

(** ** Backup: the notification *)

Lemma InWindow_bad_zone : forall lib clock start end_ tz le,
  gostr_eqb start [] = false -> gostr_eqb tz [] = false -> LoadLocation lib tz = Err le ->
  InWindow lib clock start end_ tz = Err (s2l "invalid timezone: " ++ le).
Proof.
  intros lib clock start end_ tz le Hs Htz Hl. unfold InWindow. rewrite Hs, Htz, Hl. reflexivity.
Qed.

(** C4.  The notification does not always match the outcome: when the lock is taken,
    a window start is configured and the configured time zone fails to load, [Backup]
    returns the "invalid timezone" error, yet the single notification it emits has the
    status "success" and no error, since this path returns without setting [opErr]. *)
Theorem Backup_window_error_notifies_success : forall lib cfg env store0 le,
  acquire_err env = None ->
  has_notifier env = true ->
  gostr_eqb (WindowStart cfg) [] = false ->
  gostr_eqb (Timezone cfg) [] = false ->
  LoadLocation lib (Timezone cfg) = Err le ->
  fst (Backup lib cfg env store0) = Err (s2l "invalid timezone: " ++ le) /\
  notifications (trace (snd (Backup lib cfg env store0))) = [EvNotify (s2l "success") None].
Proof.
  intros lib cfg env store0 le Ha Hn Hs Htz Hl.
  unfold Backup. rewrite Ha, Hn. unfold backup_body.
  rewrite (InWindow_bad_zone lib (clock env) _ (WindowEnd cfg) _ le Hs Htz Hl).
  split; reflexivity.
Qed.

Lemma Backup_window_error_notifies_success_witness :
  (acquire_err sample_env = None /\ has_notifier sample_env = true /\
   gostr_eqb (WindowStart window_cfg) [] = false /\
   gostr_eqb (Timezone window_cfg) [] = false /\
   LoadLocation sample_lib (Timezone window_cfg)
   = Err (s2l "unknown time zone Invalid/Zone")) /\
  (fst (Backup sample_lib window_cfg sample_env [])
   = Err (s2l "invalid timezone: " ++ s2l "unknown time zone Invalid/Zone") /\
   notifications (trace (snd (Backup sample_lib window_cfg sample_env [])))
   = [EvNotify (s2l "success") None]).
Proof.
  split; [repeat split|].
  apply Backup_window_error_notifies_success; reflexivity.
Defined.

(** ** Backup: the order of [dumpStream.Wait()] and [eg.Wait()] *)

Lemma mbind_grows : forall A B (m : M A) (f : A -> M B),
  grows m -> (forall a, grows (f a)) -> grows (mbind m f).
Proof.
  intros A B m f Hm Hf s. unfold mbind. destruct (Hm s) as [e1 H1].
  destruct (m s) as [[a|e] s'] eqn:E; simpl in H1 |- *.
  - destruct (Hf a s') as [e2 H2]. exists (e1 ++ e2). rewrite H2, H1, app_assoc. reflexivity.
  - exists e1. exact H1.
Qed.

Lemma mret_grows : forall A (a : A), grows (mret a).
Proof. intros A a s. exists []. symmetry. apply app_nil_r. Qed.

Lemma fail_op_grows : forall A e, grows (@fail_op A e).
Proof. intros A e s. exists []. symmetry. apply app_nil_r. Qed.

Lemma emit_grows : forall ev, grows (emit ev).
Proof. intros ev s. exists [ev]. reflexivity. Qed.

Lemma get_grows : grows get.
Proof. intros s. exists []. symmetry. apply app_nil_r. Qed.

Lemma storage_put_shape : forall env k c s, exists o st,
  storage_put env k c s = (Ok o, mkSt st (trace s ++ [EvPut k]) (opErr s)).
Proof.
  intros env k c s. unfold storage_put.
  destruct (put_fail env k); [|destruct c];
    (destruct (put_partial env k); do 2 eexists; reflexivity) || (do 2 eexists; reflexivity).
Qed.

Lemma storage_put_grows : forall env k c, grows (storage_put env k c).
Proof.
  intros env k c s. destruct (storage_put_shape env k c s) as (o & st & ->). exists [EvPut k].
  reflexivity.
Qed.

Lemma delete_all_grows : forall ks, grows (delete_all ks).
Proof.
  induction ks as [|k ks IH]; simpl; [apply mret_grows|].
  apply mbind_grows; [|intros; apply IH].
  intros s. exists [EvDelete k]. reflexivity.
Qed.

Lemma retention_st_grows : forall lib cfg env, grows (retention_st lib cfg env).
Proof.
  intros lib cfg env. unfold retention_st. apply mbind_grows; [apply get_grows|].
  intros s. apply delete_all_grows.
Qed.

Lemma backup_finish_grows : forall lib cfg env key, grows (backup_finish lib cfg env key).
Proof.
  intros lib cfg env key. unfold backup_finish. apply mbind_grows; [apply emit_grows|].
  intros _. destruct (stat_err env); [apply fail_op_grows|].
  apply mbind_grows; [apply storage_put_grows|].
  intros merr. apply mbind_grows; [destruct merr; [apply emit_grows | apply mret_grows]|].
  intros _. apply mbind_grows; [apply retention_st_grows | intros; apply mret_grows].
Qed.

Lemma quiet_not_wait : forall l, forallb quiet_ev l = true -> ~ In EvWait l.
Proof.
  induction l as [|ev l IH]; simpl; [tauto|].
  intros H [E|Hin]; apply andb_prop in H as [H1 H2]; [subst ev; discriminate | exact (IH H2 Hin)].
Qed.

Lemma occurs_before_quiet : forall l1 l2,
  forallb quiet_ev l1 = true -> occurs_before isWait isJoin (l1 ++ EvWait :: l2) = true.
Proof.
  induction l1 as [|ev l1 IH]; intros l2 H; simpl; [reflexivity|].
  apply andb_prop in H as [H1 H2]. unfold quiet_ev in H1.
  destruct (isWait ev); [reflexivity|]. destruct (isJoin ev); [discriminate|]. auto.
Qed.

Lemma forallb_quiet_app : forall l1 l2,
  forallb quiet_ev l1 = true -> forallb quiet_ev l2 = true -> forallb quiet_ev (l1 ++ l2) = true.
Proof. intros l1 l2 H1 H2. rewrite forallb_app, H1, H2. reflexivity. Qed.

Ltac put_shape :=
  match goal with
  | |- context [storage_put ?env ?k ?c ?s] =>
      let o := fresh "o" in let st := fresh "st" in let Hp := fresh "Hp" in
      destruct (storage_put_shape env k c s) as (o & st & Hp); rewrite Hp
  end.

Lemma backup_pipeline_wait : forall lib cfg env key s,
  (dump_err env <> None /\ trace (snd (backup_pipeline lib cfg env key s)) = trace s) \/
  (exists l2, trace (snd (backup_pipeline lib cfg env key s)) = trace s ++ EvDump :: EvWait :: l2 /\
     In EvJoin l2 /\
     forall e, wait_err env = Some e -> fst (backup_pipeline lib cfg env key s) = Err e).
Proof.
  intros lib cfg env key s. unfold backup_pipeline.
  destruct (dump_err env) as [e|]; [left; split; [discriminate | reflexivity] | right].
  unfold mbind, emit. cbv beta iota.
  destruct (wait_err env) as [e|].
  - put_shape. cbv beta iota. exists [EvPut key; EvJoin]. simpl.
    split; [rewrite <- !app_assoc; reflexivity|]. split; [auto|].
    intros e' H. injection H as ->. reflexivity.
  - put_shape. cbv beta iota.
    match goal with
    | |- context [match ?x with Some e => fail_op e | None => backup_finish lib cfg env key end ?s2] =>
        destruct x as [e|];
        [ exists [EvPut key; EvJoin]; simpl; split; [rewrite <- !app_assoc; reflexivity|];
          split; [auto | discriminate]
        | destruct (backup_finish_grows lib cfg env key s2) as [ext Hext];
          rewrite Hext; exists ([EvPut key; EvJoin] ++ ext); simpl;
          split; [rewrite <- !app_assoc; reflexivity|]; split; [auto | discriminate] ]
    end.
Qed.

Lemma wait_shape_pipeline : forall lib cfg env key s,
  forallb quiet_ev (trace s) = true ->
  wait_shape env (fst (backup_pipeline lib cfg env key s)) (trace (snd (backup_pipeline lib cfg env key s))).
Proof.
  intros lib cfg env key s Hq.
  destruct (backup_pipeline_wait lib cfg env key s) as [[_ ->] | (l2 & -> & Hj & Hr)].
  - left. apply quiet_not_wait, Hq.
  - right. exists (trace s ++ [EvDump]), l2. rewrite <- app_assoc. repeat split; auto.
    apply forallb_quiet_app; auto.
Qed.

Lemma backup_body_wait : forall lib cfg env s,
  forallb quiet_ev (trace s) = true ->
  wait_shape env (fst (backup_body lib cfg env s)) (trace (snd (backup_body lib cfg env s))).
Proof.
  intros lib cfg env s Hq.
  assert (Hfail : forall e, wait_shape env (fst (@fail_op gostr e s)) (trace (snd (@fail_op gostr e s))))
    by (intros; left; apply quiet_not_wait, Hq).
  unfold backup_body.
  destruct (InWindow lib (clock env) (WindowStart cfg) (WindowEnd cfg) (Timezone cfg))
    as [[|]|e]; [| apply Hfail | left; apply quiet_not_wait, Hq].
  destruct (validate_err env); [apply Hfail|].
  destruct (EqualFold (BackupType cfg) (s2l "incremental") && negb (cap_incremental env));
    [apply Hfail|].
  destruct (EqualFold (BackupType cfg) (s2l "differential") && negb (cap_differential env));
    [apply Hfail|].
  destruct (Encryption cfg && gostr_eqb (EncryptionKey cfg) []); [apply Hfail|].
  destruct (Idempotent cfg).
  - unfold mbind, emit, get. cbv beta iota.
    assert (Hq' : forallb quiet_ev (trace (add_ev (EvExists (backup_key cfg env)) s)) = true)
      by (apply forallb_quiet_app; auto).
    destruct (exists_err env); [left; apply quiet_not_wait, Hq'|].
    destruct (in_store (backup_key cfg env) (store (add_ev (EvExists (backup_key cfg env)) s)));
      [left; apply quiet_not_wait, Hq'|].
    apply wait_shape_pipeline, Hq'.
  - apply wait_shape_pipeline, Hq.
Qed.

(** C3 (code bug: the order the code has).  In every [Backup] run that calls the
    producer's [dumpStream.Wait()], the call comes before the join of the two pipeline
    tasks ([eg.Wait()], which is always reached afterwards), so the producer is waited for
    while the tasks may still be reading its output: for SQLite that [Wait] closes the
    database file under the encode task, and for a subprocess it is [cmd.Wait] before the
    reads of its stdout are done.  When [Wait] reports an error, [Backup] returns that
    error, whatever the tasks did. *)
Theorem Backup_wait_before_join : forall lib cfg env store0,
  In EvWait (trace (snd (Backup lib cfg env store0))) ->
  occurs_before isWait isJoin (trace (snd (Backup lib cfg env store0))) = true /\
  In EvJoin (trace (snd (Backup lib cfg env store0))) /\
  (forall e, wait_err env = Some e -> fst (Backup lib cfg env store0) = Err e).
Proof.
  intros lib cfg env store0 Hw. revert Hw. unfold Backup.
  destruct (acquire_err env) as [e|].
  - destruct (has_notifier env); simpl; intuition discriminate.
  - set (s0 := add_ev EvAcquire (mkSt store0 [] None)).
    pose proof (backup_body_wait lib cfg env s0 eq_refl) as Hb.
    destruct (backup_body lib cfg env s0) as [r s'] eqn:E. simpl in Hb.
    destruct Hb as [Hn | (l1 & l2 & Htr & Hq & Hj & Hr)].
    + destruct (has_notifier env); simpl; rewrite ?in_app_iff; simpl; intuition discriminate.
    + intros _. destruct (has_notifier env); simpl; rewrite Htr, <- !app_assoc; simpl;
        (split; [apply occurs_before_quiet, Hq|]);
        (split; [apply in_or_app; right; right; apply in_or_app; left; exact Hj | exact Hr]).
Qed.

Lemma Backup_wait_before_join_witness :
  In EvWait (trace (snd (Backup sample_lib sample_cfg sample_env []))) /\
  (occurs_before isWait isJoin (trace (snd (Backup sample_lib sample_cfg sample_env []))) = true /\
   In EvJoin (trace (snd (Backup sample_lib sample_cfg sample_env []))) /\
   (forall e, wait_err sample_env = Some e -> fst (Backup sample_lib sample_cfg sample_env []) = Err e)).
Proof.
  assert (H : In EvWait (trace (snd (Backup sample_lib sample_cfg sample_env []))))
    by (vm_compute; auto 10).
  split; [exact H | apply (Backup_wait_before_join sample_lib sample_cfg sample_env [] H)].
Defined.

(** C3 (code bug: failing run).  In the sample run, where every collaborator succeeds, the
    producer's [Wait] is called, and it comes before the join of the pipeline tasks: no
    [eg.Wait()] precedes it. *)
Lemma Backup_wait_after_join_counterexample :
  let tr := trace (snd (Backup sample_lib sample_cfg sample_env [])) in
  In EvWait tr /\ In EvJoin tr /\ occurs_before isJoin isWait tr = false.
Proof. vm_compute. split; [auto 10 | split; [auto 10 | reflexivity]]. Qed.

(** ** Backup: the manifest write *)

Lemma gostr_eqb_sym : forall a b, gostr_eqb a b = gostr_eqb b a.
Proof.
  intros a b. destruct (gostr_eqb a b) eqn:E, (gostr_eqb b a) eqn:F; auto.
  - apply gostr_eqb_eq in E. subst. rewrite gostr_eqb_refl in F. discriminate.
  - apply gostr_eqb_eq in F. subst. rewrite gostr_eqb_refl in E. discriminate.
Qed.

Lemma filter_twice : forall A (f g : A -> bool) l,
  filter f (filter g l) = filter (fun x => g x && f x) l.
Proof.
  intros A f g l. induction l as [|x l IH]; [reflexivity|]. simpl.
  destruct (g x); simpl; [destruct (f x)|]; rewrite ?IH; reflexivity.
Qed.

Lemma remove_key_comm : forall a b st, remove_key a (remove_key b st) = remove_key b (remove_key a st).
Proof.
  intros a b st. unfold remove_key. rewrite !filter_twice.
  apply filter_ext. intros x. apply andb_comm.
Qed.

Lemma remove_key_idem : forall a st, remove_key a (remove_key a st) = remove_key a st.
Proof.
  intros a st. unfold remove_key. rewrite filter_twice.
  apply filter_ext. intros x. apply andb_diag.
Qed.

Lemma remove_put_other : forall mk k o st,
  gostr_eqb k mk = false ->
  remove_key mk (store_put k o st) = (k, o) :: remove_key mk (remove_key k st).
Proof. intros mk k o st Hk. unfold store_put, remove_key at 1. cbn [filter fst]. rewrite Hk. reflexivity. Qed.

Lemma agree_put_other : forall mk k o st1 st2,
  gostr_eqb k mk = false -> agree_except mk st1 st2 ->
  agree_except mk (store_put k o st1) (store_put k o st2).
Proof.
  intros mk k o st1 st2 Hk H. unfold agree_except in *.
  rewrite !remove_put_other by exact Hk. rewrite !(remove_key_comm mk k), H. reflexivity.
Qed.

Lemma agree_put_mk : forall mk o st, agree_except mk (store_put mk o st) st.
Proof.
  intros mk o st. unfold agree_except, store_put. unfold remove_key at 1. cbn [filter fst].
  rewrite gostr_eqb_refl. simpl. apply remove_key_idem.
Qed.

Lemma agree_trans : forall mk a b c, agree_except mk a b -> agree_except mk b c -> agree_except mk a c.
Proof. unfold agree_except. congruence. Qed.

Lemma agree_remove : forall mk k st1 st2,
  agree_except mk st1 st2 -> agree_except mk (remove_key k st1) (remove_key k st2).
Proof.
  intros mk k st1 st2 H. unfold agree_except in *. rewrite !(remove_key_comm mk k), H. reflexivity.
Qed.

Lemma lookup_remove_other : forall k mk st,
  gostr_eqb k mk = false -> lookup k (remove_key mk st) = lookup k st.
Proof.
  intros k mk st Hk. induction st as [|[k' o] st IH]; [reflexivity|].
  unfold remove_key in *. simpl. destruct (gostr_eqb k' mk) eqn:E; simpl.
  - apply gostr_eqb_eq in E. subst k'. rewrite gostr_eqb_sym, Hk. exact IH.
  - rewrite IH. reflexivity.
Qed.

Lemma agree_lookup : forall mk k st1 st2,
  agree_except mk st1 st2 -> k <> mk -> lookup k st1 = lookup k st2.
Proof.
  intros mk k st1 st2 H Hk. apply gostr_eqb_neq in Hk.
  rewrite <- (lookup_remove_other k mk st1 Hk), <- (lookup_remove_other k mk st2 Hk), H.
  reflexivity.
Qed.

Lemma artifacts_listing_remove : forall mk p st,
  HasSuffix mk ManifestSuffix = true ->
  artifacts_of (listing p (remove_key mk st)) = artifacts_of (listing p st).
Proof.
  intros mk p st Hm. induction st as [|[k o] st IH]; [reflexivity|].
  unfold artifacts_of, listing, remove_key in *. simpl.
  destruct (gostr_eqb k mk) eqn:E; simpl.
  - apply gostr_eqb_eq in E. subst k. rewrite IH.
    destruct (under p mk); simpl; [rewrite Hm|]; reflexivity.
  - destruct (under p k); simpl; [|exact IH].
    destruct (HasSuffix k ManifestSuffix); simpl; rewrite IH; reflexivity.
Qed.

Lemma agree_artifacts : forall mk p st1 st2,
  HasSuffix mk ManifestSuffix = true -> agree_except mk st1 st2 ->
  artifacts_of (listing p st1) = artifacts_of (listing p st2).
Proof.
  intros mk p st1 st2 Hm H.
  rewrite <- (artifacts_listing_remove mk p st1 Hm), <- (artifacts_listing_remove mk p st2 Hm), H.
  reflexivity.
Qed.

Lemma sim_bind : forall A B mk (m1 m2 : M A) (f1 f2 : A -> M B),
  sim mk m1 m2 -> (forall a, sim mk (f1 a) (f2 a)) -> sim mk (mbind m1 f1) (mbind m2 f2).
Proof.
  intros A B mk m1 m2 f1 f2 Hm Hf s1 s2 HR. unfold mbind.
  destruct (Hm s1 s2 HR) as [Hr HR'].
  destruct (m1 s1) as [r1 s1'], (m2 s2) as [r2 s2']. simpl in Hr, HR'. subst r2.
  destruct r1 as [a|e]; [apply Hf, HR' | split; [reflexivity | exact HR']].
Qed.

Lemma sim_emit : forall mk ev, sim mk (emit ev) (emit ev).
Proof. intros mk ev s1 s2 HR. split; [reflexivity | exact HR]. Qed.

Lemma sim_mret : forall A mk (a : A), sim mk (mret a) (mret a).
Proof. intros A mk a s1 s2 HR. split; [reflexivity | exact HR]. Qed.

Lemma sim_fail_op : forall A mk e, sim mk (@fail_op A e) (@fail_op A e).
Proof. intros A mk e s1 s2 [_ HR]. split; [reflexivity | split; [reflexivity | exact HR]]. Qed.

Lemma sim_fail : forall A mk e, sim mk (@fail A e) (@fail A e).
Proof. intros A mk e s1 s2 HR. split; [reflexivity | exact HR]. Qed.

Lemma sim_put_other : forall mk env1 env2 k c,
  gostr_eqb k mk = false -> put_fail env1 k = put_fail env2 k ->
  put_partial env1 k = put_partial env2 k -> now_unix env1 = now_unix env2 ->
  sim mk (storage_put env1 k c) (storage_put env2 k c).
Proof.
  intros mk env1 env2 k c Hk Hf Hp Hn s1 s2 [Ho Hs]. unfold storage_put.
  rewrite Hf, Hp, Hn. cbn [add_ev store trace opErr].
  destruct (put_fail env2 k); [|destruct c];
    try (destruct (put_partial env2 k));
    (split; [reflexivity | split; [exact Ho | simpl; try apply agree_put_other; assumption]]).
Qed.

(** The Put of [mk] and the logging of its error, whatever its outcome. *)
Lemma sim_put_mk : forall mk env1 env2 c,
  now_unix env1 = now_unix env2 ->
  sim mk (let* merr := storage_put env1 mk c in
          match merr with Some _ => emit (EvLog (s2l "failed to write manifest")) | None => mret tt end)
         (let* merr := storage_put env2 mk c in
          match merr with Some _ => emit (EvLog (s2l "failed to write manifest")) | None => mret tt end).
Proof.
  intros mk env1 env2 c Hn s1 s2 [Ho Hs].
  assert (H1 : forall env s, now_unix env = now_unix env1 ->
            fst ((let* merr := storage_put env mk c in
                  match merr with Some _ => emit (EvLog (s2l "failed to write manifest"))
                                | None => mret tt end) s) = Ok tt /\
            opErr (snd ((let* merr := storage_put env mk c in
                  match merr with Some _ => emit (EvLog (s2l "failed to write manifest"))
                                | None => mret tt end) s)) = opErr s /\
            agree_except mk (store (snd ((let* merr := storage_put env mk c in
                  match merr with Some _ => emit (EvLog (s2l "failed to write manifest"))
                                | None => mret tt end) s))) (store s)).
  { intros env s _. unfold mbind, storage_put. cbn [add_ev store trace opErr].
    destruct (put_fail env mk); [|destruct c];
      try (destruct (put_partial env mk));
      (split; [reflexivity | split; [reflexivity | simpl]]);
      first [apply agree_put_mk | reflexivity]. }
  destruct (H1 env1 s1 eq_refl) as (R1 & O1 & A1).
  destruct (H1 env2 s2 (eq_sym Hn)) as (R2 & O2 & A2).
  split; [congruence|]. split; [congruence|].
  unfold agree_except in *. congruence.
Qed.

Lemma mbind_assoc : forall A B C (m : M A) (f : A -> M B) (g : B -> M C) s,
  mbind m (fun a => mbind (f a) g) s = mbind (mbind m f) g s.
Proof. intros. unfold mbind. destruct (m s) as [[a|e] s']; reflexivity. Qed.

Lemma sim_ext : forall A mk (m1 m1' m2 m2' : M A),
  (forall s, m1 s = m1' s) -> (forall s, m2 s = m2' s) -> sim mk m1' m2' -> sim mk m1 m2.
Proof. intros A mk m1 m1' m2 m2' H1 H2 H s1 s2 HR. rewrite H1, H2. apply H, HR. Qed.

Lemma sim_delete_all : forall mk ks, sim mk (delete_all ks) (delete_all ks).
Proof.
  intros mk ks. induction ks as [|k ks IH]; simpl; [apply sim_mret|].
  apply sim_bind; [|intros; exact IH].
  intros s1 s2 [Ho Hs]. split; [reflexivity|]. split; [exact Ho|]. apply agree_remove, Hs.
Qed.

Lemma applyRetention_artifacts : forall lib cfg c l1 l2,
  artifacts_of l1 = artifacts_of l2 ->
  applyRetention lib cfg c (Ok l1) = applyRetention lib cfg c (Ok l2).
Proof. intros lib cfg c l1 l2 H. unfold applyRetention, artifacts_of in *. rewrite H. reflexivity. Qed.

Lemma sim_retention : forall mk lib cfg env1 env2,
  HasSuffix mk ManifestSuffix = true ->
  list_err env1 = list_err env2 -> cutoffOf env1 = cutoffOf env2 ->
  sim mk (retention_st lib cfg env1) (retention_st lib cfg env2).
Proof.
  intros mk lib cfg env1 env2 Hm Hl Hc s1 s2 HR.
  unfold retention_st, mbind, get. cbv beta iota. rewrite Hl, Hc.
  destruct (list_err env2) as [e|].
  - apply sim_delete_all, HR.
  - rewrite (applyRetention_artifacts lib cfg (cutoffOf env2) _ (listing
      (BuildPrefix (StoragePrefix cfg) (DBType cfg) (Database cfg)) (store s2))).
    + apply sim_delete_all, HR.
    + apply (agree_artifacts mk). exact Hm. apply HR.
Qed.

Lemma sim_finish : forall lib cfg env1 env2 key,
  stat_err env1 = stat_err env2 -> manifest_json env1 = manifest_json env2 ->
  now_unix env1 = now_unix env2 -> list_err env1 = list_err env2 ->
  cutoffOf env1 = cutoffOf env2 ->
  sim (ManifestKey key) (backup_finish lib cfg env1 key) (backup_finish lib cfg env2 key).
Proof.
  intros lib cfg env1 env2 key Hs Hj Hn Hl Hc. unfold backup_finish.
  rewrite Hs, Hj.
  apply sim_bind; [apply sim_emit | intros _].
  destruct (stat_err env2); [apply sim_fail_op|].
  assert (Hm : HasSuffix (ManifestKey key) ManifestSuffix = true) by apply HasSuffix_app.
  (* regroup the manifest Put with its logging *)
  eapply sim_ext; [intros s; apply mbind_assoc | intros s; apply mbind_assoc|].
  apply sim_bind; [apply sim_put_mk, Hn | intros _].
  apply sim_bind; [apply sim_retention; assumption | intros; apply sim_mret].
Qed.

Lemma key_not_manifest_key : forall key, gostr_eqb key (ManifestKey key) = false.
Proof.
  intros key. apply gostr_eqb_neq. intros H.
  apply (f_equal (@length ascii)) in H. unfold ManifestKey in H. rewrite length_app in H.
  simpl in H. lia.
Qed.

Lemma sim_pipeline : forall lib cfg env pf1 pp1 pf2 pp2 key,
  pf1 key = pf2 key -> pp1 key = pp2 key ->
  sim (ManifestKey key) (backup_pipeline lib cfg (set_puts env pf1 pp1) key)
                        (backup_pipeline lib cfg (set_puts env pf2 pp2) key).
Proof.
  intros lib cfg env pf1 pp1 pf2 pp2 key Hf Hp. unfold backup_pipeline.
  cbn [set_puts dump_err dump_read wait_err wait_cuts_pipe].
  pose proof (key_not_manifest_key key) as Hk.
  destruct (dump_err env); [apply sim_fail_op|].
  apply sim_bind; [apply sim_emit | intros _].
  apply sim_bind; [apply sim_emit | intros _].
  destruct (wait_err env).
  - apply sim_bind; [apply sim_put_other; auto | intros _].
    apply sim_bind; [apply sim_emit | intros _]. apply sim_fail_op.
  - apply sim_bind; [apply sim_put_other; auto | intros perr].
    apply sim_bind; [apply sim_emit | intros _].
    destruct (match encode_task lib cfg (dump_read env) with Ok _ => perr | Err e => Some e end);
      [apply sim_fail_op | apply sim_finish; reflexivity].
Qed.

Lemma sim_body : forall lib cfg env pf1 pp1 pf2 pp2,
  pf1 (backup_key cfg env) = pf2 (backup_key cfg env) ->
  pp1 (backup_key cfg env) = pp2 (backup_key cfg env) ->
  sim (ManifestKey (backup_key cfg env)) (backup_body lib cfg (set_puts env pf1 pp1))
                                         (backup_body lib cfg (set_puts env pf2 pp2)).
Proof.
  intros lib cfg env pf1 pp1 pf2 pp2 Hf Hp.
  assert (Hkey : forall pf pp, backup_key cfg (set_puts env pf pp) = backup_key cfg env)
    by reflexivity.
  unfold backup_body. rewrite !Hkey.
  cbn [set_puts clock validate_err cap_incremental cap_differential adapter_name exists_err].
  destruct (InWindow lib (clock env) (WindowStart cfg) (WindowEnd cfg) (Timezone cfg))
    as [[|]|e]; [| apply sim_fail_op | apply sim_fail].
  destruct (validate_err env); [apply sim_fail_op|].
  destruct (EqualFold (BackupType cfg) (s2l "incremental") && negb (cap_incremental env));
    [apply sim_fail_op|].
  destruct (EqualFold (BackupType cfg) (s2l "differential") && negb (cap_differential env));
    [apply sim_fail_op|].
  destruct (Encryption cfg && gostr_eqb (EncryptionKey cfg) []); [apply sim_fail_op|].
  apply sim_bind; [| intros _; apply sim_pipeline; assumption].
  destruct (Idempotent cfg); [|apply sim_mret].
  apply sim_bind; [apply sim_emit | intros _].
  destruct (exists_err env); [apply sim_fail_op|].
  intros s1 s2 HR. unfold mbind, get. cbv beta iota.
  assert (Hne : backup_key cfg env <> ManifestKey (backup_key cfg env)).
  { intros H. pose proof (key_not_manifest_key (backup_key cfg env)) as K.
    rewrite <- H, gostr_eqb_refl in K. discriminate. }
  unfold in_store. rewrite (agree_lookup _ _ (store s1) (store s2) (proj2 HR) Hne).
  destruct (lookup (backup_key cfg env) (store s2)); [apply sim_fail_op, HR | apply sim_mret, HR].
Qed.

(** C7.  The outcome of the manifest write does not matter: for every environment, two
    [Backup] runs that differ only in what the Put of the manifest key does (success, or
    failure with any error and any leftover) return the same result (the manifest error
    is only logged), and end with the same object at every key other than the manifest
    key, the artifact key in particular. *)
Theorem Backup_manifest_failure_ignored : forall lib cfg env store0 f1 l1 f2 l2,
  let mk := ManifestKey (backup_key cfg env) in
  fst (Backup lib cfg (with_manifest_put env mk f1 l1) store0)
  = fst (Backup lib cfg (with_manifest_put env mk f2 l2) store0) /\
  (forall k, k <> mk ->
   lookup k (store (snd (Backup lib cfg (with_manifest_put env mk f1 l1) store0)))
   = lookup k (store (snd (Backup lib cfg (with_manifest_put env mk f2 l2) store0)))).
Proof.
  intros lib cfg env store0 f1 l1 f2 l2 mk.
  unfold with_manifest_put, Backup. cbn [set_puts acquire_err has_notifier].
  destruct (acquire_err env) as [e|].
  - destruct (has_notifier env); simpl; split; reflexivity.
  - set (s0 := add_ev EvAcquire (mkSt store0 [] None)).
    pose proof (key_not_manifest_key (backup_key cfg env)) as Hk.
    destruct (sim_body lib cfg env
                (fun k => if gostr_eqb k mk then f1 else put_fail env k)
                (fun k => if gostr_eqb k mk then l1 else put_partial env k)
                (fun k => if gostr_eqb k mk then f2 else put_fail env k)
                (fun k => if gostr_eqb k mk then l2 else put_partial env k))
      with (s1 := s0) (s2 := s0) as [Hr [Ho Hs]];
      [unfold mk; rewrite Hk; reflexivity | unfold mk; rewrite Hk; reflexivity
      | split; reflexivity |].
    destruct (backup_body lib cfg _ s0) as [r1 s1], (backup_body lib cfg _ s0) as [r2 s2].
    simpl in Hr, Ho, Hs. subst r2.
    destruct (has_notifier env); simpl; (split; [reflexivity|]);
      intros k Hne; apply (agree_lookup mk); assumption.
Qed.

Example Backup_manifest_failure_sample :
  let mk := ManifestKey (backup_key sample_cfg sample_env) in
  fst (Backup sample_lib sample_cfg
         (with_manifest_put sample_env mk (Some (s2l "disk full")) None) [])
  = Ok (backup_key sample_cfg sample_env).
Proof. vm_compute. reflexivity. Qed.

(** ** applyRetention *)

Lemma insert_by_time_perm : forall o l, Permutation (insert_by_time o l) (o :: l).
Proof.
  intros o l. induction l as [|x l IH]; simpl; [reflexivity|].
  destruct (Modified x <? Modified o)%Z; [reflexivity|].
  rewrite IH. apply perm_swap.
Qed.

Lemma sort_by_time_perm : forall l, Permutation (sort_by_time l) l.
Proof.
  induction l as [|o l IH]; simpl; [reflexivity|].
  unfold sort_by_time in IH. rewrite insert_by_time_perm, IH. reflexivity.
Qed.

Lemma insert_by_time_sorted : forall o l,
  Sorted newest_first l -> Sorted newest_first (insert_by_time o l).
Proof.
  intros o l. induction l as [|x l IH]; intros H; simpl; [repeat constructor|].
  destruct (Modified x <? Modified o)%Z eqn:E.
  - apply Z.ltb_lt in E. constructor; [exact H | constructor; unfold newest_first; lia].
  - apply Z.ltb_ge in E. inversion H as [|x' l' Hl Hhd]; subst.
    constructor; [apply IH, Hl|].
    destruct l as [|y l']; simpl.
    + constructor. unfold newest_first. lia.
    + destruct (Modified y <? Modified o)%Z; constructor; [unfold newest_first; lia|].
      inversion Hhd; assumption.
Qed.

Lemma sort_by_time_sorted : forall l, Sorted newest_first (sort_by_time l).
Proof.
  induction l as [|o l IH]; simpl; [constructor|].
  apply insert_by_time_sorted, IH.
Qed.

Lemma newest_first_trans : forall a b c, newest_first a b -> newest_first b c -> newest_first a c.
Proof. intros a b c H1 H2. unfold newest_first in *. lia. Qed.

(** Two newest-first orders of the same objects, whose times are pairwise distinct,
    are the same list. *)
Lemma newest_first_unique : forall l1 l2,
  Permutation l1 l2 -> StronglySorted newest_first l1 -> StronglySorted newest_first l2 ->
  NoDup (map Modified l1) -> l1 = l2.
Proof.
  induction l1 as [|a l1 IH]; intros l2 Hp H1 H2 Hn.
  - symmetry. apply Permutation_nil, Hp.
  - destruct l2 as [|b l2]; [apply Permutation_sym, Permutation_nil_cons in Hp; contradiction|].
    apply StronglySorted_inv in H1 as [H1 F1]. apply StronglySorted_inv in H2 as [H2 F2].
    inversion Hn as [|x y Hnin Hn']; subst.
    assert (Hab : a = b).
    { destruct (in_inv (Permutation_in b (Permutation_sym Hp) (or_introl eq_refl)))
        as [E|Hb]; [exact E|].
      destruct (in_inv (Permutation_in a Hp (or_introl eq_refl))) as [E|Ha]; [symmetry; exact E|].
      assert (Hba : newest_first a b) by (rewrite Forall_forall in F1; apply F1, Hb).
      assert (Hab : newest_first b a) by (rewrite Forall_forall in F2; apply F2, Ha).
      unfold newest_first in *. exfalso. apply Hnin.
      replace (Modified a) with (Modified b) by lia. apply in_map, Hb. }
    subst b. f_equal. apply IH; auto. apply Permutation_cons_inv in Hp. exact Hp.
Qed.

Lemma sum_sizes : forall l a,
  fold_left (fun acc obj => (acc + Size obj)%Z) l a = (a + fold_right (fun o acc => (Size o + acc)%Z) 0%Z l)%Z.
Proof.
  induction l as [|o l IH]; intros a; simpl; [lia|]. rewrite IH. lia.
Qed.

Lemma retention_loop_spec : forall kl kd mb c bs i total dels,
  snd (fold_left (spec_step kl kd mb c) bs (i, total, dels))
  = dels ++ retention_loop kl kd mb c (Z.of_nat i) bs total.
Proof.
  intros kl kd mb c. induction bs as [|o bs IH]; intros i total dels; simpl.
  - symmetry. apply app_nil_r.
  - replace (Z.of_nat i + 1)%Z with (Z.of_nat (S i)) by lia.
    unfold spec_step at 1, spec_retained.
    destruct ((0 <? kl) && (Z.of_nat i <? kl))%Z; simpl; [apply IH|].
    destruct ((0 <? kd) && (c <? Modified o))%Z; simpl; [apply IH|].
    destruct ((0 <? mb) && (total <=? mb))%Z; simpl; [apply IH|].
    rewrite IH, <- app_assoc. reflexivity.
Qed.

Lemma applyRetention_by_spec : forall lib cfg cutoffOf objects,
  applyRetention lib cfg cutoffOf (Ok objects)
  = retention_by_spec cfg (cutoffOf (- KeepDays cfg)%Z) (SortSlice lib) objects.
Proof.
  intros lib cfg cutoffOf objects. unfold applyRetention, retention_by_spec.
  destruct ((KeepDays cfg =? 0)%Z && (KeepLast cfg =? 0)%Z && (MaxBytes cfg =? 0)%Z);
    [reflexivity|].
  rewrite retention_loop_spec, sum_sizes. reflexivity.
Qed.

(** C5.  For a [sort.Slice] that orders newest first, [applyRetention] deletes exactly
    what the rule of the specification deletes, on the order that sort produces
    (manifests excluded, keep-last by position, keep-days by strict newness against the
    cutoff, max-bytes on the remaining running total, each deletion also deleting the
    manifest); it deletes nothing when the three policy fields are zero; and on
    artifacts aged 0, 1, 2, 3 and 10 days of 10 bytes each, with keep_last 2, keep_days
    5 and max_bytes 0, it deletes the 10-day artifact and its manifest only. *)
Theorem applyRetention_matches_spec : forall lib,
  (forall l, Permutation (SortSlice lib l) l /\ Sorted newest_first (SortSlice lib l)) ->
  (forall cfg cutoffOf objects,
     applyRetention lib cfg cutoffOf (Ok objects)
     = retention_by_spec cfg (cutoffOf (- KeepDays cfg)%Z) (SortSlice lib) objects) /\
  (forall cfg cutoffOf objects,
     KeepDays cfg = 0%Z -> KeepLast cfg = 0%Z -> MaxBytes cfg = 0%Z ->
     applyRetention lib cfg cutoffOf objects = []) /\
  applyRetention lib retention_cfg (fun n => (now0 + n * 86400)%Z) (Ok retention_objects)
  = [s2l "b/d10"; ManifestKey (s2l "b/d10")].
Proof.
  intros lib Hsort. split; [apply applyRetention_by_spec|]. split.
  - intros cfg cutoffOf objects H1 H2 H3. unfold applyRetention. rewrite H1, H2, H3.
    reflexivity.
  - assert (Hs : SortSlice lib (filter (fun obj => negb (IsManifestObj obj)) retention_objects)
                 = retention_sorted).
    { destruct (Hsort (filter (fun obj => negb (IsManifestObj obj)) retention_objects))
        as [Hp Hsd].
      apply newest_first_unique.
      - rewrite Hp. change retention_sorted
          with (sort_by_time (filter (fun obj => negb (IsManifestObj obj)) retention_objects)).
        symmetry. apply sort_by_time_perm.
      - apply Sorted_StronglySorted; [exact newest_first_trans | exact Hsd].
      - apply Sorted_StronglySorted; [exact newest_first_trans|].
        change retention_sorted
          with (sort_by_time (filter (fun obj => negb (IsManifestObj obj)) retention_objects)).
        apply sort_by_time_sorted.
      - apply (Permutation_NoDup (Permutation_map Modified (Permutation_sym Hp))).
        vm_compute. repeat constructor; simpl; intuition discriminate. }
    unfold applyRetention. rewrite Hs. vm_compute. reflexivity.
Qed.

Lemma applyRetention_matches_spec_witness :
  (forall l, Permutation (SortSlice sample_lib l) l /\ Sorted newest_first (SortSlice sample_lib l)) /\
  ((forall cfg cutoffOf objects,
     applyRetention sample_lib cfg cutoffOf (Ok objects)
     = retention_by_spec cfg (cutoffOf (- KeepDays cfg)%Z) (SortSlice sample_lib) objects) /\
  (forall cfg cutoffOf objects,
     KeepDays cfg = 0%Z -> KeepLast cfg = 0%Z -> MaxBytes cfg = 0%Z ->
     applyRetention sample_lib cfg cutoffOf objects = []) /\
  applyRetention sample_lib retention_cfg (fun n => (now0 + n * 86400)%Z) (Ok retention_objects)
  = [s2l "b/d10"; ManifestKey (s2l "b/d10")]).
Proof.
  assert (H : forall l, Permutation (SortSlice sample_lib l) l /\
                        Sorted newest_first (SortSlice sample_lib l))
    by (intros l; split; [apply sort_by_time_perm | apply sort_by_time_sorted]).
  split; [exact H | apply (applyRetention_matches_spec sample_lib H)].
Defined.

(** ** Config encryption: cryptoutil.EncryptConfig, config.EncryptConfigFile and
    config.decryptConfig *)

Lemma config_envelope_open : forall lib nonce ct key plain,
  length nonce = 12 -> aes_NewCipher_err key = None ->
  gcm_Open lib key nonce ct = (Some plain, None) ->
  DecryptConfig lib (str_bytes configMagic ++ configVerBytes ++ nonce ++ ct) key
  = (Some plain, None).
Proof.
  intros lib nonce ct key plain Hn Ha Ho.
  set (hdr := [Byte.x44; Byte.x42; Byte.x55; Byte.x31; Byte.x00; Byte.x01]).
  change (str_bytes configMagic ++ configVerBytes ++ nonce ++ ct) with (hdr ++ nonce ++ ct).
  assert (Hl : length (hdr ++ nonce ++ ct) = 18 + length ct)
    by (rewrite !length_app, Hn; reflexivity).
  assert (H4 : firstn 4 (hdr ++ nonce ++ ct) = [Byte.x44; Byte.x42; Byte.x55; Byte.x31])
    by reflexivity.
  assert (H2 : firstn 2 (skipn 4 (hdr ++ nonce ++ ct)) = [Byte.x00; Byte.x01])
    by reflexivity.
  assert (H12 : firstn 12 (skipn 6 (hdr ++ nonce ++ ct)) = nonce).
  { change (skipn 6 (hdr ++ nonce ++ ct)) with (nonce ++ ct).
    rewrite firstn_app, Hn, Nat.sub_diag, firstn_O, app_nil_r, <- Hn. apply firstn_all. }
  assert (H18 : skipn 18 (hdr ++ nonce ++ ct) = ct).
  { change (skipn 18 (hdr ++ nonce ++ ct)) with (skipn 12 (nonce ++ ct)).
    rewrite <- Hn. rewrite skipn_app, skipn_all, Nat.sub_diag. reflexivity. }
  unfold DecryptConfig. rewrite Hl, H4, H2, H12, H18.
  replace (18 + length ct <? 4 + 2 + 12) with false by (symmetry; apply Nat.ltb_ge; lia).
  cbv beta iota.
  change (negb (gostr_eqb (bytes_str [Byte.x44; Byte.x42; Byte.x55; Byte.x31]) configMagic))
    with false.
  change (negb (Uint16BE [Byte.x00; Byte.x01] =? configVer)%Z) with false.
  cbv beta iota. rewrite Ha, Ho. reflexivity.
Qed.

Lemma EncryptConfig_eq : forall seal nonce plain key,
  aes_NewCipher_err key = None ->
  EncryptConfig seal (Ok nonce) plain key
  = Ok (str_bytes configMagic ++ configVerBytes ++ nonce ++ seal key nonce plain).
Proof.
  intros seal nonce plain key Ha. unfold EncryptConfig. cbn [rbind]. rewrite Ha.
  rewrite app_assoc. reflexivity.
Qed.

Lemma ParseKey_32 : forall lib key k, ParseKey lib key = Ok k -> length k = 32.
Proof.
  intros lib key k H. unfold ParseKey in H.
  destruct (gostr_eqb key []); [discriminate|].
  match type of H with
  | match ?d with Ok _ => _ | Err _ => _ end = _ => destruct d as [data|e]
  end; [|discriminate].
  destruct (Nat.eqb (length data) 32) eqn:E; [|discriminate].
  injection H as <-. apply Nat.eqb_eq. exact E.
Qed.

(** X1.  Config envelope round trip: with a 12-byte nonce and a key of a valid AES
    size, [EncryptConfig] writes the magic "DBU1", the version 1, the nonce and the
    sealed payload, and [DecryptConfig] of that output returns the plaintext whenever
    GCM opens the sealed payload. *)
Theorem EncryptConfig_DecryptConfig : forall lib seal nonce plain key,
  length nonce = 12 -> aes_NewCipher_err key = None ->
  gcm_Open lib key nonce (seal key nonce plain) = (Some plain, None) ->
  EncryptConfig seal (Ok nonce) plain key
  = Ok (str_bytes configMagic ++ configVerBytes ++ nonce ++ seal key nonce plain) /\
  DecryptConfig lib (str_bytes configMagic ++ configVerBytes ++ nonce ++ seal key nonce plain) key
  = (Some plain, None).
Proof.
  intros lib seal nonce plain key Hn Ha Ho. split.
  - apply EncryptConfig_eq. exact Ha.
  - apply config_envelope_open; assumption.
Qed.

Lemma EncryptConfig_DecryptConfig_witness :
  (length nonce12 = 12 /\ aes_NewCipher_err (map byte_of_ascii key32) = None /\
   gcm_Open sample_lib (map byte_of_ascii key32) nonce12
     (id_seal (map byte_of_ascii key32) nonce12 (str_bytes (s2l "a: 1")))
   = (Some (str_bytes (s2l "a: 1")), None)) /\
  (EncryptConfig id_seal (Ok nonce12) (str_bytes (s2l "a: 1")) (map byte_of_ascii key32)
   = Ok (str_bytes configMagic ++ configVerBytes ++ nonce12 ++
         id_seal (map byte_of_ascii key32) nonce12 (str_bytes (s2l "a: 1"))) /\
   DecryptConfig sample_lib (str_bytes configMagic ++ configVerBytes ++ nonce12 ++
         id_seal (map byte_of_ascii key32) nonce12 (str_bytes (s2l "a: 1")))
     (map byte_of_ascii key32)
   = (Some (str_bytes (s2l "a: 1")), None)).
Proof.
  split; [split; [reflexivity | split; reflexivity]|].
  apply EncryptConfig_DecryptConfig; reflexivity.
Defined.

(** ** ParseKey with Go's decoders *)

Lemma hex_digit_check_all : forall c, hex_digit c = true -> hex_digit_check c = true.
Proof.
  assert (H : forallb (fun n => implb (hex_digit (ascii_of_nat n)) (hex_digit_check (ascii_of_nat n)))
                (seq 0 256) = true) by (vm_compute; reflexivity).
  intros c Hc. rewrite forallb_forall in H.
  specialize (H (nat_of_ascii c)). rewrite ascii_nat_embedding in H. rewrite Hc in H.
  apply H. apply in_seq. pose proof (nat_ascii_bounded c). lia.
Qed.

Lemma hex_digit_props : forall c, hex_digit c = true ->
  asciiSpace c = false /\ nat_of_ascii c < 128 /\ (exists v, b64_index c = Some v) /\
  exists v, hex_val c = Some v.
Proof.
  intros c Hc. pose proof (hex_digit_check_all c Hc) as H. unfold hex_digit_check, b64_ok in H.
  apply andb_prop in H as [H H3]. apply andb_prop in H as [H1 H2].
  split; [destruct (asciiSpace c); [discriminate|reflexivity]|].
  split; [apply Nat.ltb_lt; exact H2|].
  split; [destruct (b64_index c) as [v|]; [exists v; reflexivity|discriminate]|].
  unfold hex_digit in Hc. destruct (hex_val c) as [v|]; [exists v; reflexivity|discriminate].
Qed.

Lemma HasPrefix_cons_ne : forall c t x e, Ascii.eqb x c = false -> HasPrefix (c :: t) (x :: e) = false.
Proof. intros c t x e H. simpl. rewrite H. reflexivity. Qed.

Lemma find_none : forall A (f : A -> bool) l, (forall x, In x l -> f x = false) -> find f l = None.
Proof.
  intros A f l H. induction l as [|x l IH]; [reflexivity|]. simpl.
  rewrite (H x (or_introl eq_refl)). apply IH. intros y Hy. apply H. right. exact Hy.
Qed.

(** A byte that is neither an ASCII space nor the start of any of [encs] stops the trim. *)
Lemma trim_spaces_stop : forall encs fuel c t,
  asciiSpace c = false ->
  forallb (fun e => match e with x :: _ => 128 <=? nat_of_ascii x | [] => false end) encs = true ->
  nat_of_ascii c < 128 ->
  trim_spaces encs fuel (c :: t) = c :: t.
Proof.
  intros encs [|f] c t Hs Henc Hc; [reflexivity|]. simpl. rewrite Hs.
  rewrite find_none; [reflexivity|].
  intros e He. rewrite forallb_forall in Henc. specialize (Henc e He).
  destruct e as [|x e]; [discriminate|]. apply HasPrefix_cons_ne.
  apply Nat.leb_le in Henc. destruct (Ascii.eqb_spec x c) as [->|]; [lia|reflexivity].
Qed.

Lemma go_TrimSpace_plain : forall s,
  match s with [] => True | c :: _ => asciiSpace c = false /\ nat_of_ascii c < 128 end ->
  match rev s with [] => True | c :: _ => asciiSpace c = false /\ nat_of_ascii c < 128 end ->
  go_TrimSpace s = s.
Proof.
  intros s H1 H2. unfold go_TrimSpace.
  assert (E1 : trim_spaces utf8_spaces (length s) s = s).
  { destruct s as [|c t]; [destruct (length (@nil ascii)); reflexivity|].
    destruct H1 as [Hs Hc]. apply trim_spaces_stop; auto. }
  rewrite E1.
  destruct (rev s) as [|c t] eqn:Er.
  - destruct (length s); simpl; apply (f_equal (@rev ascii)) in Er;
      rewrite rev_involutive in Er; rewrite Er; reflexivity.
  - destruct H2 as [Hs Hc]. rewrite trim_spaces_stop; auto.
    rewrite <- Er, rev_involutive. reflexivity.
Qed.

Lemma b64_bytes_length : forall q, length q <= 4 -> length (b64_bytes q) = length q - 1.
Proof.
  intros q Hq. unfold b64_bytes. rewrite length_firstn. simpl. lia.
Qed.

(** Input made of base64 characters only, in whole quanta, decodes to three bytes per
    quantum. *)
Lemma b64_go_plain : forall s si q out m,
  Forall (fun c => exists v, b64_index c = Some v) s -> length q <= 3 ->
  length q + length s = 4 * m ->
  exists bs, b64_go s si q out = Ok (out ++ bs) /\ length bs = 3 * m.
Proof.
  induction s as [|c t IH]; intros si q out m Hall Hq Hm.
  - destruct q; [|simpl in Hq, Hm; lia].
    exists []. rewrite app_nil_r. split; [reflexivity|]. simpl in Hm |- *; lia.
  - inversion Hall as [|? ? [v Hv] Ht]; subst. simpl. rewrite Hv.
    destruct (Nat.eqb_spec (length q) 3) as [E|E].
    + destruct m as [|m]; [simpl in Hm; lia|].
      destruct (IH (S si) [] (out ++ b64_bytes (q ++ [v])) m Ht) as (bs & H1 & H2);
        [simpl; lia | simpl in Hm |- *; lia|].
      rewrite H1. exists (b64_bytes (q ++ [v]) ++ bs). rewrite app_assoc. split; [reflexivity|].
      rewrite length_app, b64_bytes_length, length_app; simpl; [|rewrite length_app; simpl; lia].
      lia.
    + apply IH; auto; [rewrite length_app; simpl; lia|].
      rewrite length_app. simpl in Hm |- *. lia.
Qed.

Lemma hex_go_plain : forall m s out,
  Forall (fun c => exists v, hex_val c = Some v) s -> length s = 2 * m ->
  exists k, hex_go s out = Ok (out ++ k) /\ length k = m.
Proof.
  induction m as [|m IH]; intros s out Hall Hl.
  - destruct s; [|simpl in Hl; lia]. exists []. rewrite app_nil_r. split; reflexivity.
  - destruct s as [|a [|b t]]; simpl in Hl; try lia.
    inversion Hall as [|? ? [va Ha] Hall']; subst. inversion Hall' as [|? ? [vb Hb] Ht]; subst.
    simpl. rewrite Ha, Hb.
    destruct (IH t (out ++ [byte_of_Z (va * 16 + vb)]) Ht) as (k & H1 & H2); [lia|].
    rewrite H1. exists (byte_of_Z (va * 16 + vb) :: k). rewrite <- app_assoc. split; [reflexivity|].
    simpl. lia.
Qed.

Lemma HasPrefix_inv : forall p s, HasPrefix s p = true -> exists r, s = p ++ r.
Proof.
  induction p as [|x p IH]; intros s H; [exists s; reflexivity|].
  destruct s as [|c s]; [discriminate|]. simpl in H. apply andb_prop in H as [Hx Hs].
  apply Ascii.eqb_eq in Hx. subst. destruct (IH s Hs) as [r ->]. exists r. reflexivity.
Qed.

Lemma hex_no_prefix : forall s p, forallb hex_digit s = true -> forallb hex_digit p = false ->
  HasPrefix s p = false.
Proof.
  intros s p Hs Hp. destruct (HasPrefix s p) eqn:E; [|reflexivity].
  destruct (HasPrefix_inv p s E) as [r ->]. rewrite forallb_app, Hp in Hs. discriminate.
Qed.

(** Go's decoders on a few inputs, as Go 1.22 answers them. *)
Lemma go_decoders_samples :
  go_b64decode (s2l "TWFu") = Ok (str_bytes (s2l "Man")) /\
  go_b64decode (s2l "TQ==") = Ok (str_bytes (s2l "M")) /\
  go_b64decode (s2l "TQ=") = Err (s2l "illegal base64 data at input byte 3") /\
  go_b64decode (s2l "TW!u") = Err (s2l "illegal base64 data at input byte 2") /\
  go_hexdecode (s2l "4d61") = Ok (str_bytes (s2l "Ma")) /\
  go_hexdecode (s2l "0g") = Err (s2l "encoding/hex: invalid byte: U+0067 'g'") /\
  go_hexdecode (s2l "abc") = Err hex_ErrLength.
Proof. vm_compute. repeat split. Qed.

(** X2.  A 32-byte key written as 64 hex digits without the "hex:" prefix is rejected.
    Every hex digit is also a base64 character, so the base64 attempt, made first, decodes
    the 64 characters to 48 bytes without error; the hex fallback is never reached and
    [ParseKey] fails with "invalid key length: 48 (expected 32 bytes)".  hex.DecodeString
    reads the same digits as 32 bytes, which [ParseKey] returns when the digits carry the
    "hex:" prefix. *)
Theorem ParseKey_bare_hex_rejected : forall s,
  length s = 64 -> forallb hex_digit s = true ->
  ParseKey go_lib s = Err (s2l "invalid key length: 48 (expected 32 bytes)") /\
  exists k, go_hexdecode s = Ok k /\ length k = 32 /\ ParseKey go_lib (s2l "hex:" ++ s) = Ok k.
Proof.
  intros s Hl Hh.
  assert (Hall : forall c, In c s -> hex_digit c = true) by (apply forallb_forall; exact Hh).
  assert (Hplain : forall c, In c s -> asciiSpace c = false /\ nat_of_ascii c < 128)
    by (intros c Hc; destruct (hex_digit_props c (Hall c Hc)) as (? & ? & _); auto).
  assert (Hlast : match rev s with [] => True
                  | c :: _ => asciiSpace c = false /\ nat_of_ascii c < 128 end).
  { destruct (rev s) as [|c t] eqn:Er; [exact I|]. apply Hplain. apply in_rev. rewrite Er.
    left; reflexivity. }
  assert (Hne : gostr_eqb s [] = false) by (destruct s; [discriminate|reflexivity]).
  assert (Htrim : go_TrimSpace s = s).
  { apply go_TrimSpace_plain; [|exact Hlast].
    destruct s as [|c t]; [exact I|]. apply Hplain. left; reflexivity. }
  destruct (b64_go_plain s 0 [] [] 16) as (bs & Hb & Hbl).
  { apply Forall_forall. intros c Hc. destruct (hex_digit_props c (Hall c Hc)) as (_ & _ & H & _).
    exact H. }
  { simpl; lia. }
  { simpl; lia. }
  destruct (hex_go_plain 32 s []) as (k & Hk & Hkl); [|lia|].
  { apply Forall_forall. intros c Hc. destruct (hex_digit_props c (Hall c Hc)) as (_ & _ & _ & H).
    exact H. }
  split.
  - unfold ParseKey. rewrite Hne.
    change (TrimSpace go_lib s) with (go_TrimSpace s). rewrite Htrim.
    rewrite !hex_no_prefix by (exact Hh || reflexivity).
    change (b64decode go_lib s) with (b64_go s 0 [] []). rewrite Hb. cbn [app].
    rewrite Hbl. reflexivity.
  - exists k. split; [exact Hk|]. split; [exact Hkl|].
    unfold ParseKey.
    change (TrimSpace go_lib (s2l "hex:" ++ s)) with (go_TrimSpace (s2l "hex:" ++ s)).
    rewrite go_TrimSpace_plain.
    2:{ split; reflexivity || (vm_compute; lia). }
    2:{ rewrite rev_app_distr. destruct (rev s) as [|c t]; [split; [reflexivity|vm_compute; lia]|exact Hlast]. }
    change (gostr_eqb (s2l "hex:" ++ s) []) with false. cbv iota.
    change (HasPrefix (s2l "hex:" ++ s) (s2l "base64:")) with false.
    rewrite HasPrefix_app. unfold TrimPrefix. rewrite HasPrefix_app.
    change (skipn (length (s2l "hex:")) (s2l "hex:" ++ s)) with s.
    change (hexdecode go_lib s) with (hex_go s []). rewrite Hk. cbn [app].
    rewrite Hkl. reflexivity.
Qed.

Lemma ParseKey_bare_hex_rejected_witness :
  length hex_key64 = 64 /\ forallb hex_digit hex_key64 = true /\
  ParseKey go_lib hex_key64 = Err (s2l "invalid key length: 48 (expected 32 bytes)").
Proof.
  assert (Hl : length hex_key64 = 64) by reflexivity.
  assert (Hh : forallb hex_digit hex_key64 = true) by (vm_compute; reflexivity).
  split; [exact Hl|]. split; [exact Hh|].
  exact (proj1 (ParseKey_bare_hex_rejected hex_key64 Hl Hh)).
Defined.

(** X3.  [EncryptConfigFile] followed by [decryptConfig] (the path [Load] takes for an
    encrypted config) gives back the file's content: when the input file exists, the
    key parses, the output write succeeds and GCM opens what it sealed, the output file
    holds an envelope that decrypts with the same key string to the input bytes. *)
Theorem EncryptConfigFile_roundtrip : forall lib seal nonce write_fail fs input output key plain k,
  ReadFile fs input = Ok plain -> ParseKey lib key = Ok k -> length nonce = 12 ->
  gcm_Open lib k nonce (seal k nonce plain) = (Some plain, None) -> write_fail output = None ->
  exists fs' ct,
    EncryptConfigFile lib seal (Ok nonce) write_fail fs input output key = Ok fs' /\
    ReadFile fs' output = Ok ct /\ decryptConfig lib ct key = (Some plain, None).
Proof.
  intros lib seal nonce write_fail fs input output key plain k Hr Hk Hn Ho Hw.
  assert (Ha : aes_NewCipher_err k = None)
    by (unfold aes_NewCipher_err; rewrite (ParseKey_32 lib key k Hk); reflexivity).
  unfold EncryptConfigFile. rewrite Hr. cbn [rbind]. rewrite Hk. cbn [rbind].
  pose proof (EncryptConfig_eq seal nonce plain k Ha) as He.
  change (@Ok bytes nonce) with (@Ok (list Byte.byte) nonce) in He.
  rewrite He. cbn [rbind].
  unfold WriteFile. rewrite Hw.
  eexists; eexists; split; [reflexivity|]. split.
  - unfold ReadFile. simpl. rewrite gostr_eqb_refl. reflexivity.
  - unfold decryptConfig. rewrite Hk. apply config_envelope_open; assumption.
Qed.

Lemma EncryptConfigFile_roundtrip_witness :
  (ReadFile [(s2l "dbu.yaml", str_bytes (s2l "a: 1"))] (s2l "dbu.yaml")
   = Ok (str_bytes (s2l "a: 1")) /\
   ParseKey sample_lib key32 = Ok (map byte_of_ascii key32) /\
   length nonce12 = 12 /\
   gcm_Open sample_lib (map byte_of_ascii key32) nonce12
     (id_seal (map byte_of_ascii key32) nonce12 (str_bytes (s2l "a: 1")))
   = (Some (str_bytes (s2l "a: 1")), None)) /\
  exists fs' ct,
    EncryptConfigFile sample_lib id_seal (Ok nonce12) (fun _ => None)
      [(s2l "dbu.yaml", str_bytes (s2l "a: 1"))] (s2l "dbu.yaml") (s2l "dbu.yaml.enc") key32
    = Ok fs' /\
    ReadFile fs' (s2l "dbu.yaml.enc") = Ok ct /\
    decryptConfig sample_lib ct key32 = (Some (str_bytes (s2l "a: 1")), None).
Proof.
  split; [split; [vm_compute; reflexivity | split; [vm_compute; reflexivity | split; reflexivity]]|].
  apply (EncryptConfigFile_roundtrip sample_lib id_seal nonce12 (fun _ => None)
           [(s2l "dbu.yaml", str_bytes (s2l "a: 1"))] (s2l "dbu.yaml") (s2l "dbu.yaml.enc") key32
           (str_bytes (s2l "a: 1")) (map byte_of_ascii key32));
    first [vm_compute; reflexivity | reflexivity].
Defined.

(** ** util.Retry *)

Lemma retry_loop_spec : forall n i f c err,
  err <> None \/ 0 < n ->
  let '(r, k) := retry_loop n i f c err in
  i <= k <= i + n /\ (0 < n -> i < k) /\ (forall j, i <= j -> S j < k -> f j <> None) /\
  (0 < k - i -> (r = None <-> f (k - 1) = None)) /\
  (k = i -> r = err) /\
  ((forall j, c j = None) -> r <> None -> k = i + n /\ (0 < n -> r = f (k - 1))).
Proof.
  induction n as [|n IH]; intros i f c err Hne; simpl.
  - split; [lia|]. split; [lia|]. split; [intros j Hj Hk; lia|]. split; [intros; lia|].
    split; [reflexivity|]. intros _ _. split; [lia | intros; lia].
  - destruct (f i) as [e|] eqn:Ef.
    + destruct (c i) as [ce|] eqn:Ec.
      * split; [lia|]. split; [lia|]. split; [intros j Hj Hk; lia|]. split.
        { intros _. replace (S i - 1) with i by lia. split; intros H; congruence. }
        split; [intros; lia|]. intros Hc. rewrite Hc in Ec. discriminate.
      * assert (Hse : Some e <> None \/ 0 < n) by (left; discriminate).
        specialize (IH (S i) f c (Some e) Hse).
        destruct (retry_loop n (S i) f c (Some e)) as [r k] eqn:Er.
        destruct IH as (Hb & Hpos & Hfail & Hlast & Hk0 & Hc).
        split; [lia|]. split; [lia|]. split.
        { intros j Hj Hk. destruct (Nat.eq_dec j i) as [->|Hji]; [congruence|].
          apply Hfail; lia. }
        split.
        { intros _. destruct (Nat.eq_dec k (S i)) as [->|Hki].
          - rewrite (Hk0 eq_refl). replace (S i - 1) with i by lia.
            split; intros H; congruence.
          - apply Hlast. lia. }
        split; [intros; lia|].
        intros Hcc Hr. destruct (Hc Hcc Hr) as [Hk Hv]. split; [lia|].
        intros _. destruct n as [|n'].
        -- simpl in Er. injection Er as <- <-. replace (S i - 1) with i by lia. congruence.
        -- apply Hv. lia.
    + split; [lia|]. split; [lia|]. split; [intros j Hj Hk; lia|]. split.
      { intros _. replace (S i - 1) with i by lia. split; intros _; [exact Ef | reflexivity]. }
      split; [intros; lia|]. intros _ H. congruence.
Qed.

(** X4.  [util.Retry] calls [fn] at least once and at most [max 1 attempts] times; every
    call but the last failed; the result is nil exactly when the last call succeeded;
    and when the context is never cancelled, a failing [Retry] made all its calls and
    returns the last call's error. *)
Lemma Retry_calls : forall attempts f c,
  let '(r, k) := Retry attempts f c in
  1 <= k <= Nat.max 1 (Z.to_nat attempts) /\
  (forall j, S j < k -> f j <> None) /\
  (r = None <-> f (k - 1) = None) /\
  ((forall j, c j = None) -> r <> None -> k = Nat.max 1 (Z.to_nat attempts) /\ r = f (k - 1)).
Proof.
  intros attempts f c. unfold Retry.
  destruct (attempts <=? 1)%Z eqn:Ea.
  - apply Z.leb_le in Ea.
    assert (Z.to_nat attempts <= 1) by lia.
    split; [lia|]. split; [intros j Hj; lia|]. split; [reflexivity|].
    intros _ _. split; [lia | reflexivity].
  - apply Z.leb_gt in Ea.
    assert (Hn0 : @None gostr <> None \/ 0 < Z.to_nat attempts) by (right; lia).
    pose proof (retry_loop_spec (Z.to_nat attempts) 0 f c None Hn0) as H.
    destruct (retry_loop (Z.to_nat attempts) 0 f c None) as [r k] eqn:Er.
    destruct H as (Hb & Hpos & Hfail & Hlast & Hk0 & Hc).
    assert (Hk : 0 < k) by (apply Hpos; lia).
    split; [lia|]. split; [intros j Hj; apply Hfail; lia|]. split; [apply Hlast; lia|].
    intros Hcc Hr. destruct (Hc Hcc Hr) as [Hk1 Hv]. split; [lia|]. apply Hv. lia.
Qed.

(** ** notify.Multi.Notify *)

Lemma Multi_Notify_loop_called : forall T (notify : T -> option gostr) targets err,
  snd (Multi_Notify_loop notify targets err) = non_nil targets.
Proof.
  intros T notify. induction targets as [|[t|] ts IH]; intros err; simpl; auto.
  specialize (IH (match notify t with Some nerr => Some nerr | None => err end)).
  destruct (Multi_Notify_loop notify ts _) as [r called]. simpl in *. congruence.
Qed.

Lemma Multi_Notify_loop_err : forall T (notify : T -> option gostr) targets err,
  (fst (Multi_Notify_loop notify targets err) = err /\
   forall t, In t (non_nil targets) -> notify t = None) \/
  (exists pre t post e, non_nil targets = pre ++ t :: post /\ notify t = Some e /\
     fst (Multi_Notify_loop notify targets err) = Some e /\
     forall u, In u post -> notify u = None).
Proof.
  intros T notify. induction targets as [|[t|] ts IH]; intros err; simpl.
  - left. split; [reflexivity | intros t []].
  - pose proof (Multi_Notify_loop_called T notify ts
                  (match notify t with Some nerr => Some nerr | None => err end)) as Hc.
    destruct (IH (match notify t with Some nerr => Some nerr | None => err end))
      as [[Hr Hall] | (pre & u & post & e & Hs & Hu & Hr & Hpost)];
    destruct (Multi_Notify_loop notify ts _) as [r called] eqn:E; simpl in *.
    + destruct (notify t) as [e|] eqn:Et.
      * right. exists [], t, (non_nil ts), e. simpl. repeat split; auto.
      * left. split; [exact Hr|]. intros v [<-|Hv]; auto.
    + right. exists (t :: pre), u, post, e. rewrite Hs. repeat split; auto.
  - apply IH.
Qed.

(** X5.  [Multi.Notify] calls every non-nil target, in order, even after one fails; it
    returns nil exactly when all of them succeed, and otherwise the error of the last
    target that failed. *)
Lemma Multi_Notify_all_called : forall T (notify : T -> option gostr) targets,
  snd (Multi_Notify notify targets) = non_nil targets /\
  (fst (Multi_Notify notify targets) = None <-> forall t, In t (non_nil targets) -> notify t = None) /\
  (forall e, fst (Multi_Notify notify targets) = Some e ->
   exists pre t post, non_nil targets = pre ++ t :: post /\ notify t = Some e /\
     forall u, In u post -> notify u = None).
Proof.
  intros T notify targets. unfold Multi_Notify.
  split; [apply Multi_Notify_loop_called|].
  destruct (Multi_Notify_loop_err T notify targets None)
    as [[Hr Hall] | (pre & t & post & e & Hs & Ht & Hr & Hpost)]; rewrite Hr.
  - split; [split; auto|]. intros e H; discriminate.
  - split.
    + split; [discriminate|]. intros H. rewrite Hs in H.
      rewrite (H t) in Ht; [discriminate|]. apply in_or_app. right. left. reflexivity.
    + intros e' He. injection He as <-. exists pre, t, post. auto.
Qed.

(** ** applyRetention: what it deletes *)

Lemma existsb_gostr_In : forall t l, existsb (gostr_eqb t) l = true <-> In t l.
Proof.
  intros t l. rewrite existsb_exists. split.
  - intros (x & Hx & He). apply gostr_eqb_eq in He. subst. exact Hx.
  - intros Ht. exists t. split; [exact Ht|apply gostr_eqb_refl].
Qed.

Lemma retention_loop_origin : forall kl kd mb c bs i total k,
  In k (retention_loop kl kd mb c i bs total) ->
  exists j obj, nth_error bs j = Some obj /\ (k = Key obj \/ k = ManifestKey (Key obj)) /\
    (0 < kl -> kl <= i + Z.of_nat j)%Z /\ (0 < kd -> Modified obj <= c)%Z.
Proof.
  induction bs as [|o bs IH]; intros i total k Hin; simpl in Hin; [contradiction|].
  destruct ((0 <? kl) && (i <? kl))%Z eqn:E1;
  [|destruct ((0 <? kd) && (c <? Modified o))%Z eqn:E2;
  [|destruct ((0 <? mb) && (total <=? mb))%Z eqn:E3]].
  - destruct (IH _ _ _ Hin) as (j & obj & Hj & Hk & H1 & H2).
    exists (S j), obj. rewrite Nat2Z.inj_succ. repeat split; auto. intros H; specialize (H1 H); lia.
  - destruct (IH _ _ _ Hin) as (j & obj & Hj & Hk & H1 & H2).
    exists (S j), obj. rewrite Nat2Z.inj_succ. repeat split; auto. intros H; specialize (H1 H); lia.
  - destruct (IH _ _ _ Hin) as (j & obj & Hj & Hk & H1 & H2).
    exists (S j), obj. rewrite Nat2Z.inj_succ. repeat split; auto. intros H; specialize (H1 H); lia.
  - destruct Hin as [Hk | [Hk | Hin]].
    + exists 0%nat, o. simpl. split; [reflexivity|]. split; [left; auto|].
      apply andb_false_iff in E1. apply andb_false_iff in E2.
      split; intros H; [destruct E1 as [E|E]; apply Z.ltb_ge in E; lia|].
      destruct E2 as [E|E]; apply Z.ltb_ge in E; lia.
    + exists 0%nat, o. simpl. split; [reflexivity|]. split; [right; auto|].
      apply andb_false_iff in E1. apply andb_false_iff in E2.
      split; intros H; [destruct E1 as [E|E]; apply Z.ltb_ge in E; lia|].
      destruct E2 as [E|E]; apply Z.ltb_ge in E; lia.
    + destruct (IH _ _ _ Hin) as (j & obj & Hj & Hk & H1 & H2).
      exists (S j), obj. rewrite Nat2Z.inj_succ. repeat split; auto. intros H; specialize (H1 H); lia.
Qed.

(** X6.  Every key the retention pass deletes is an artifact of the listing, or the manifest
    key of one: never a manifest object itself.  The artifact sits at a position of the
    sorted list that [KeepLast] does not protect, and it is not newer than the
    [KeepDays] cutoff. *)
Theorem applyRetention_never_deletes : forall lib cfg cutoffOf objects k,
  (forall l, Permutation (SortSlice lib l) l) ->
  In k (applyRetention lib cfg cutoffOf (Ok objects)) ->
  exists i obj,
    nth_error (SortSlice lib (filter (fun o => negb (IsManifestObj o)) objects)) i = Some obj /\
    In obj objects /\ IsManifestObj obj = false /\
    (k = Key obj \/ k = ManifestKey (Key obj)) /\
    (0 < KeepLast cfg -> KeepLast cfg <= Z.of_nat i)%Z /\
    (0 < KeepDays cfg -> Modified obj <= cutoffOf (- KeepDays cfg))%Z.
Proof.
  intros lib cfg cutoffOf objects k Hperm Hin. unfold applyRetention in Hin.
  destruct ((KeepDays cfg =? 0)%Z && (KeepLast cfg =? 0)%Z && (MaxBytes cfg =? 0)%Z);
    [contradiction|].
  destruct (retention_loop_origin _ _ _ _ _ _ _ _ Hin) as (j & obj & Hj & Hk & H1 & H2).
  exists j, obj. split; [exact Hj|].
  assert (Hobj : In obj (filter (fun o => negb (IsManifestObj o)) objects)).
  { apply (Permutation_in _ (Hperm _)). eapply nth_error_In. exact Hj. }
  apply filter_In in Hobj. destruct Hobj as [Hobj Hm]. apply negb_true_iff in Hm.
  repeat split; auto.
Qed.

Lemma applyRetention_never_deletes_witness :
  ((forall l, Permutation (SortSlice sample_lib l) l) /\
   In (s2l "b/d10")
     (applyRetention sample_lib retention_cfg (cutoffOf sample_env) (Ok retention_objects))) /\
  exists i obj,
    nth_error (SortSlice sample_lib (filter (fun o => negb (IsManifestObj o)) retention_objects)) i
      = Some obj /\
    In obj retention_objects /\ IsManifestObj obj = false /\
    (s2l "b/d10" = Key obj \/ s2l "b/d10" = ManifestKey (Key obj)) /\
    (0 < KeepLast retention_cfg -> KeepLast retention_cfg <= Z.of_nat i)%Z /\
    (0 < KeepDays retention_cfg ->
       Modified obj <= cutoffOf sample_env (- KeepDays retention_cfg))%Z.
Proof.
  assert (Hp : forall l, Permutation (SortSlice sample_lib l) l) by exact sort_by_time_perm.
  assert (Hin : In (s2l "b/d10")
     (applyRetention sample_lib retention_cfg (cutoffOf sample_env) (Ok retention_objects)))
    by (apply existsb_gostr_In; vm_compute; reflexivity).
  split; [split; [exact Hp | exact Hin]|].
  exact (applyRetention_never_deletes sample_lib retention_cfg (cutoffOf sample_env)
           retention_objects (s2l "b/d10") Hp Hin).
Defined.

Lemma retention_loop_max_bytes : forall mb c bs i,
  (0 < mb)%Z ->
  exists n, retention_loop 0 0 mb c i bs (size_sum bs) = flat_map artifact_keys (firstn n bs) /\
    (n < length bs -> (size_sum (skipn n bs) <= mb)%Z) /\
    (forall m, m < n -> (mb < size_sum (skipn m bs))%Z) /\ n <= length bs.
Proof.
  intros mb c bs i Hmb. revert i.
  induction bs as [|o bs IH]; intros i.
  - exists 0. simpl. repeat split; intros; lia.
  - cbn [retention_loop]. simpl andb.
    assert (Hmb' : (0 <? mb)%Z = true) by (apply Z.ltb_lt; lia). rewrite Hmb'. simpl andb.
    change (size_sum (o :: bs)) with (Size o + size_sum bs)%Z.
    destruct (Size o + size_sum bs <=? mb)%Z eqn:E.
    + (* every later object is kept too: the total does not change *)
      assert (Hkeep : forall bs' j, retention_loop 0 0 mb c j bs' (Size o + size_sum bs)%Z = []).
      { induction bs' as [|o' bs' IH']; intros j; [reflexivity|]. cbn [retention_loop].
        rewrite Hmb'. simpl andb. rewrite E. apply IH'. }
      exists 0. rewrite Hkeep. apply Z.leb_le in E. cbn [skipn firstn flat_map size_sum fold_right].
      split; [reflexivity|]. split; [intros; exact E|]. split; intros; [lia|]. simpl; lia.
    + apply Z.leb_gt in E.
      replace (Size o + size_sum bs - Size o)%Z with (size_sum bs) by lia.
      destruct (IH (i + 1)%Z) as (n & Hn & Hle & Hlt & Hlen).
      exists (S n). rewrite Hn. simpl. split; [reflexivity|]. split; [intros; apply Hle; lia|].
      split; [|lia]. intros m Hm. destruct m as [|m]; [exact E|]. apply Hlt. lia.
Qed.

(** X7.  With only [MaxBytes] set, the retention pass deletes a prefix of the sorted list
    (the newest artifacts first, under the newest-first sort of [App]), each with its
    manifest.  It stops at the first artifact whose remaining total fits in
    [MaxBytes]; before that point the remaining total always exceeds it. *)
Theorem applyRetention_max_bytes_only : forall lib cfg cutoffOf objects,
  KeepLast cfg = 0%Z -> KeepDays cfg = 0%Z -> (0 < MaxBytes cfg)%Z ->
  let bs := SortSlice lib (filter (fun o => negb (IsManifestObj o)) objects) in
  exists n, applyRetention lib cfg cutoffOf (Ok objects) = flat_map artifact_keys (firstn n bs) /\
    (n < length bs -> (size_sum (skipn n bs) <= MaxBytes cfg)%Z) /\
    (forall m, m < n -> (MaxBytes cfg < size_sum (skipn m bs))%Z).
Proof.
  intros lib cfg cutoffOf objects Hl Hd Hm bs. unfold applyRetention.
  rewrite Hl, Hd. replace (MaxBytes cfg =? 0)%Z with false by (symmetry; apply Z.eqb_neq; lia).
  simpl andb. cbv iota zeta. rewrite sum_sizes, Z.add_0_l.
  destruct (retention_loop_max_bytes (MaxBytes cfg) (cutoffOf (- 0)%Z) bs 0 Hm)
    as (n & H1 & H2 & H3 & _).
  exists n. fold bs. fold (size_sum bs). rewrite H1. auto.
Qed.

Lemma applyRetention_max_bytes_only_witness :
  (KeepLast maxbytes_cfg = 0 /\ KeepDays maxbytes_cfg = 0 /\ 0 < MaxBytes maxbytes_cfg)%Z /\
  let bs := SortSlice sample_lib (filter (fun o => negb (IsManifestObj o)) retention_objects) in
  exists n,
    applyRetention sample_lib maxbytes_cfg (cutoffOf sample_env) (Ok retention_objects)
    = flat_map artifact_keys (firstn n bs) /\
    (n < length bs -> (size_sum (skipn n bs) <= MaxBytes maxbytes_cfg)%Z) /\
    (forall m, m < n -> (MaxBytes maxbytes_cfg < size_sum (skipn m bs))%Z).
Proof.
  split; [split; [reflexivity | split; [reflexivity | vm_compute; reflexivity]]|].
  apply applyRetention_max_bytes_only; [reflexivity | reflexivity | vm_compute; reflexivity].
Defined.

(** ** storage.Local.CleanupOld *)

Lemma lookup_remove_same : forall k st, lookup k (remove_key k st) = None.
Proof.
  intros k st. induction st as [|[k' o] st IH]; [reflexivity|].
  unfold remove_key in *. simpl. destruct (gostr_eqb k' k) eqn:E; simpl; [exact IH|].
  rewrite E. exact IH.
Qed.

Lemma lookup_remove_key : forall k mk st,
  lookup k (remove_key mk st) = if gostr_eqb k mk then None else lookup k st.
Proof.
  intros k mk st. destruct (gostr_eqb k mk) eqn:E.
  - apply gostr_eqb_eq in E. subst. apply lookup_remove_same.
  - apply lookup_remove_other. exact E.
Qed.

Lemma lookup_fold_delete : forall l s k,
  lookup k (fold_left Local_Delete_ignored l s) = if deleted_by l k then None else lookup k s.
Proof.
  induction l as [|o l IH]; intros s k; [reflexivity|]. cbn [fold_left]. rewrite IH.
  unfold deleted_by at 2. cbn [existsb]. fold (deleted_by l k).
  destruct (deleted_by l k); [rewrite orb_true_r; reflexivity|rewrite orb_false_r].
  unfold Local_Delete_ignored. rewrite !lookup_remove_key.
  destruct (gostr_eqb k (Key o)); destruct (gostr_eqb k (ManifestKey (Key o))); reflexivity.
Qed.

Lemma deleted_by_In : forall l k,
  deleted_by l k = true <-> exists o, In o l /\ (k = Key o \/ k = ManifestKey (Key o)).
Proof.
  intros l k. unfold deleted_by. rewrite existsb_exists. split.
  - intros (o & Ho & H). exists o. split; [exact Ho|].
    apply orb_true_iff in H. destruct H as [H|H]; apply gostr_eqb_eq in H; auto.
  - intros (o & Ho & H). exists o. split; [exact Ho|].
    destruct H as [ -> | -> ]; rewrite gostr_eqb_refl; [reflexivity|apply orb_true_r].
Qed.

(** X8.  [Local.CleanupOld] (with a live context) removes exactly the returned objects,
    each with its manifest key, and leaves every other key of the store unchanged.  The
    returned objects are non-manifest objects older than the cutoff.  With [keep > 0]
    the last [keep] eligible objects of the listing are spared, but only when there are
    more than [keep] of them: with [keep] or fewer, all of them are removed. *)
Theorem CleanupOld_effect : forall objects cutoff keep s,
  let eligible := filter (fun obj => (Modified obj <? cutoff)%Z && negb (IsManifestObj obj)) objects in
  exists removed,
    CleanupOld (Ok objects) cutoff keep s = (Ok removed, fold_left Local_Delete_ignored removed s) /\
    (forall o, In o removed -> In o objects /\ (Modified o < cutoff)%Z /\ IsManifestObj o = false) /\
    (forall k, lookup k (fold_left Local_Delete_ignored removed s) =
               if deleted_by removed k then None else lookup k s) /\
    ((0 < keep)%Z -> (length eligible <= Z.to_nat keep)%nat -> removed = eligible) /\
    ((0 < keep)%Z -> (Z.to_nat keep < length eligible)%nat ->
       length removed = (length eligible - Z.to_nat keep)%nat /\
       removed ++ skipn (length eligible - Z.to_nat keep) eligible = eligible) /\
    ((keep <= 0)%Z -> removed = eligible).
Proof.
  intros objects cutoff keep s eligible.
  set (b := (0 <? keep)%Z && (keep <? Z.of_nat (length eligible))%Z).
  exists (if b then firstn (length eligible - Z.to_nat keep) eligible else eligible).
  split; [reflexivity|].
  assert (Hsub : forall o, In o (if b then firstn (length eligible - Z.to_nat keep) eligible else eligible) ->
                           In o eligible).
  { intros o Ho. destruct b; [|exact Ho].
    rewrite <- (firstn_skipn (length eligible - Z.to_nat keep) eligible).
    apply in_or_app. left. exact Ho. }
  split.
  - intros o Ho. apply Hsub in Ho. unfold eligible in Ho. apply filter_In in Ho.
    destruct Ho as [Ho Hc]. apply andb_true_iff in Hc. destruct Hc as [H1 H2].
    apply Z.ltb_lt in H1. apply negb_true_iff in H2. auto.
  - split; [intros k; apply lookup_fold_delete|].
    split; [|split].
    + intros Hk Hlen. unfold b. replace (keep <? Z.of_nat (length eligible))%Z with false; [now destruct (0 <? keep)%Z|].
      symmetry. apply Z.ltb_ge. lia.
    + intros Hk Hlen. unfold b. replace ((0 <? keep) && (keep <? Z.of_nat (length eligible)))%Z with true.
      * split; [rewrite length_firstn; lia|apply firstn_skipn].
      * symmetry. apply andb_true_iff. split; apply Z.ltb_lt; lia.
    + intros Hk. unfold b. replace (0 <? keep)%Z with false; [reflexivity|]. symmetry. apply Z.ltb_ge. lia.
Qed.

(** ** util.InWindow with equal bounds *)

Lemma window_same_clock : forall (h m ch cm : Z) b,
  (if (h * 60 + m <? h * 60 + m)%Z
   then Ok ((h * 60 + m <=? ch * 60 + cm) && (ch * 60 + cm <=? h * 60 + m))%Z
   else Ok ((h * 60 + m <=? ch * 60 + cm) || (ch * 60 + cm <=? h * 60 + m))%Z) = Ok b ->
  b = true.
Proof.
  intros h m ch cm b H.
  destruct (h * 60 + m <? h * 60 + m)%Z eqn:E; [apply Z.ltb_lt in E; lia|].
  injection H as <-. destruct (h * 60 + m <=? ch * 60 + cm)%Z eqn:E1; [reflexivity|].
  apply Z.leb_gt in E1. simpl. apply Z.leb_le. lia.
Qed.

(** X9.  A backup window whose start equals its end is always open: whatever the clock,
    [InWindow] never answers false for it. *)
Theorem InWindow_equal_bounds_always : forall lib clock w tz b,
  InWindow lib clock w w tz = Ok b -> b = true.
Proof.
  intros lib clock w tz b. unfold InWindow.
  destruct (gostr_eqb w []) eqn:Ew; simpl andb; cbv iota.
  - intros H. injection H as <-. reflexivity.
  - destruct (gostr_eqb tz []); cbv iota.
    + cbn [rbind].
      destruct (ParseClock lib w (s2l "Local")) as [[h m]|e]; [|discriminate].
      destruct (clock (s2l "Local")) as [ch cm]. apply window_same_clock.
    + destruct (LoadLocation lib tz) as [loc|e]; cbn [rbind]; [|discriminate].

      destruct (ParseClock lib w loc) as [[h m]|e]; [|discriminate].
      destruct (clock loc) as [ch cm]. apply window_same_clock.
Qed.

Lemma InWindow_equal_bounds_always_witness :
  InWindow sample_lib (fun _ => (3, 0)%Z) (s2l "02:00") (s2l "02:00") (s2l "UTC") = Ok true /\
  true = true.
Proof.
  split; [vm_compute; reflexivity|].
  apply (InWindow_equal_bounds_always sample_lib (fun _ => (3, 0)%Z) (s2l "02:00") (s2l "UTC") true).
  vm_compute. reflexivity.
Defined.

(** ** The database adapters *)

(** X10.  The MySQL adapter never puts the password on the command line: the program and
    arguments of the dump and restore commands do not depend on it.  It reaches
    mysqldump and mysql only through the environment, as MYSQL_PWD when non-empty. *)
Theorem MySQL_password_only_in_env : forall LookPath environ int_seconds start_err allow cfg pw b r mt,
  cmd_line (MySQL_Dump LookPath environ int_seconds start_err allow (with_password cfg pw) b)
  = cmd_line (MySQL_Dump LookPath environ int_seconds start_err allow cfg b) /\
  cmd_line (MySQL_Restore LookPath environ int_seconds start_err allow (with_password cfg pw) r mt)
  = cmd_line (MySQL_Restore LookPath environ int_seconds start_err allow cfg r mt) /\
  (forall c, MySQL_Dump LookPath environ int_seconds start_err allow cfg b = Ok c \/
             MySQL_Restore LookPath environ int_seconds start_err allow cfg r mt = Ok c ->
   CEnv c = environ ++ (if gostr_eqb (Password cfg) [] then [] else [s2l "MYSQL_PWD=" ++ Password cfg])).
Proof.
  intros. split; [|split].
  - unfold MySQL_Dump. destruct (check_tools _ _ _); [reflexivity|].
    destruct (unsupported_type _ _); [reflexivity|]. unfold start. destruct start_err; reflexivity.
  - unfold MySQL_Restore. destruct (check_tools _ _ _); [reflexivity|].
    destruct (_ && _); [reflexivity|]. destruct (if (0 <? length (RTables r))%nat && (0 <? length mt)%nat then find _ (RTables r) else None); [reflexivity|].
    unfold start. destruct start_err; reflexivity.
  - intros c [H|H].
    + unfold MySQL_Dump in H. destruct (check_tools _ _ _); [discriminate|].
      destruct (unsupported_type _ _); [discriminate|]. unfold start in H.
      destruct start_err; [discriminate|]. injection H as <-. reflexivity.
    + unfold MySQL_Restore in H. destruct (check_tools _ _ _); [discriminate|].
      destruct (_ && _); [discriminate|]. destruct (if (0 <? length (RTables r))%nat && (0 <? length mt)%nat then find _ (RTables r) else None); [discriminate|].
      unfold start in H. destruct start_err; [discriminate|]. injection H as <-. reflexivity.
Qed.

Lemma buildPostgresEnv_password : forall int_seconds cfg pw,
  let E := buildPostgresEnv int_seconds (with_password cfg []) in
  buildPostgresEnv int_seconds (with_password cfg pw)
  = firstn 4 E ++ (if gostr_eqb pw [] then [] else [s2l "PGPASSWORD=" ++ pw]) ++ skipn 4 E.
Proof.
  intros int_seconds cfg pw E. unfold E, buildPostgresEnv, with_password.
  cbn [Host Port Username Password DatabaseName Params SSLMode SSLCA SSLCert SSLKey ConnectionTimeout].
  replace (gostr_eqb [] []) with true by (symmetry; apply gostr_eqb_refl).
  destruct (gostr_eqb pw []) eqn:Ep;
  destruct (gostr_eqb (SSLMode cfg) []); destruct (gostr_eqb (SSLCA cfg) []);
  destruct (gostr_eqb (SSLCert cfg) []); destruct (gostr_eqb (SSLKey cfg) []);
  destruct (0 <? ConnectionTimeout cfg)%Z; reflexivity.
Qed.

Lemma fold_left_app_prefix : forall {A} (f : A -> list gostr) (l : list A) (a : list gostr),
  exists suffix, fold_left (fun args x => args ++ f x) l a = a ++ suffix.
Proof.
  intros A f. induction l as [|x l IH]; intros a; simpl.
  - exists []. rewrite app_nil_r. reflexivity.
  - destruct (IH (a ++ f x)) as [suf Hs]. exists (f x ++ suf). rewrite Hs, app_assoc. reflexivity.
Qed.

Lemma mongoConnArgs_password : forall equalFold cfg,
  gostr_eqb (Password cfg) [] = false ->
  exists pre post, mongoConnArgs equalFold cfg = pre ++ [s2l "--password"; Password cfg] ++ post.
Proof.
  intros equalFold cfg Hp. unfold mongoConnArgs. rewrite Hp.
  set (a0 := if gostr_eqb (Username cfg) [] then _ else _).
  exists a0.
  destruct (gostr_eqb (SSLMode cfg) []); [|destruct (equalFold (SSLMode cfg) (s2l "disable"))];
  destruct (gostr_eqb (SSLCA cfg) []); destruct (gostr_eqb (SSLCert cfg) []);
  destruct (map_lookup (s2l "authSource") (Params cfg));
  eexists; rewrite <- ?app_assoc; reflexivity.
Qed.

(** X12.  The MongoDB adapter, unlike the other two, passes a non-empty password as a
    command-line argument: the arguments of mongodump and mongorestore contain
    "--password" followed by the password. *)
Theorem Mongo_password_on_command_line :
  forall LookPath environ start_err equalFold allow cfg b r c,
  gostr_eqb (Password cfg) [] = false ->
  Mongo_Dump LookPath environ start_err equalFold allow cfg b = Ok c \/
  Mongo_Restore LookPath environ start_err equalFold allow cfg r = Ok c ->
  exists pre post, Args c = pre ++ [s2l "--password"; Password cfg] ++ post.
Proof.
  intros LookPath environ start_err equalFold allow cfg b r c Hp H.
  destruct (mongoConnArgs_password equalFold cfg Hp) as (pre & post & Hm).
  destruct H as [H|H].
  - unfold Mongo_Dump, start in H. destruct (check_tools _ _ _); [discriminate|].
    destruct (unsupported_type _ _); [discriminate|]. destruct start_err; [discriminate|].
    apply (f_equal (fun r => match r with Ok c => Args c | Err _ => [] end)) in H.
    cbv beta iota in H. change (Args (mkCmd _ ?a _)) with a in H. rewrite <- H, Hm.
    destruct (fold_left_app_prefix (fun coll => [s2l "--collection"; coll]) (Collections b)
      ([s2l "--archive"; s2l "--db"; DatabaseName cfg] ++ pre ++ [s2l "--password"; Password cfg] ++ post))
      as [suf Hs].
    cbv beta in Hs. rewrite Hs. exists ([s2l "--archive"; s2l "--db"; DatabaseName cfg] ++ pre), (post ++ suf).
    rewrite <- !app_assoc. reflexivity.
  - unfold Mongo_Restore, start in H. destruct (check_tools _ _ _); [discriminate|].
    destruct start_err; [discriminate|].
    apply (f_equal (fun r => match r with Ok c => Args c | Err _ => [] end)) in H.
    cbv beta iota in H. change (Args (mkCmd _ ?a _)) with a in H. rewrite <- H, Hm.
    set (a1 := if DropExisting r then _ else _).
    assert (Ha1 : exists s1, a1 = ([s2l "--archive"; s2l "--db"; DatabaseName cfg] ++ pre ++
                   [s2l "--password"; Password cfg] ++ post) ++ s1).
    { unfold a1. destruct (DropExisting r); [eexists; reflexivity|exists []; rewrite app_nil_r; reflexivity]. }
    destruct Ha1 as [s1 ->].
    destruct (fold_left_app_prefix (fun coll => [s2l "--nsInclude"; DatabaseName cfg ++ s2l "." ++ coll])
      (RCollections r) (([s2l "--archive"; s2l "--db"; DatabaseName cfg] ++ pre ++
                   [s2l "--password"; Password cfg] ++ post) ++ s1)) as [suf Hs].
    cbv beta in Hs. rewrite Hs. exists ([s2l "--archive"; s2l "--db"; DatabaseName cfg] ++ pre), (post ++ s1 ++ suf).
    rewrite <- !app_assoc. reflexivity.
Qed.

Lemma Mongo_password_on_command_line_witness :
  gostr_eqb (Password sample_db) [] = false /\
  exists c, Mongo_Dump (fun _ => true) [] None EqualFold false sample_db sample_backup_cfg = Ok c /\
    exists pre post, Args c = pre ++ [s2l "--password"; Password sample_db] ++ post.
Proof.
  split; [reflexivity|].
  destruct (Mongo_Dump (fun _ => true) [] None EqualFold false sample_db sample_backup_cfg)
    as [c|e] eqn:E.
  - exists c. split; [reflexivity|].
    apply (Mongo_password_on_command_line (fun _ => true) [] None EqualFold false sample_db
             sample_backup_cfg sample_restore_cfg c); [reflexivity | left; exact E].
  - vm_compute in E. discriminate E.
Defined.

Lemma find_none_intro : forall {A} (f : A -> bool) l,
  (forall x, In x l -> f x = false) -> find f l = None.
Proof.
  intros A f. induction l as [|x l IH]; intros H; [reflexivity|]. simpl.
  rewrite (H x (or_introl eq_refl)). apply IH. intros y Hy. apply H. right. exact Hy.
Qed.

Lemma find_some_intro : forall {A} (f : A -> bool) l x,
  In x l -> f x = true -> exists y, find f l = Some y.
Proof.
  intros A f. induction l as [|z l IH]; intros x Hx Hf; [contradiction|]. simpl.
  destruct (f z) eqn:Ez; [eexists; reflexivity|].
  destruct Hx as [<-|Hx]; [congruence|]. exact (IH x Hx Hf).
Qed.

(** X13.  The MySQL restore checks the requested tables against the manifest but does
    not pass them to mysql.  When all of them are in the manifest, the command is the
    same as with no table requested.  When one is missing, the restore fails. *)
Theorem MySQL_Restore_tables_checked_not_passed :
  forall LookPath environ int_seconds start_err allow cfg r mt,
  ((forall t, In t (RTables r) -> In t mt) ->
   MySQL_Restore LookPath environ int_seconds start_err allow cfg r mt
   = MySQL_Restore LookPath environ int_seconds start_err allow cfg (with_rtables r []) mt) /\
  ((exists t, In t (RTables r) /\ ~ In t mt) ->
   exists e, MySQL_Restore LookPath environ int_seconds start_err allow cfg r mt = Err e).
Proof.
  intros. unfold MySQL_Restore. destruct (check_tools _ _ _) as [e|].
  { split; [reflexivity|]. intros _. exists e. reflexivity. }
  cbn [with_rtables RTables length Nat.ltb Nat.leb andb].
  split.
  - intros Hall. destruct (RTables r) as [|t0 ts] eqn:Er; [reflexivity|].
    assert (Hmt : In t0 mt) by (apply Hall; left; reflexivity).
    destruct mt as [|m0 ms]; [contradiction|]. cbn [length Nat.ltb Nat.leb Nat.eqb andb].
    rewrite find_none_intro; [reflexivity|].
    intros x Hx. apply negb_false_iff. apply existsb_gostr_In. apply Hall. exact Hx.
  - intros (t & Ht & Hn). destruct (RTables r) as [|t0 ts] eqn:Er; [contradiction|].
    destruct mt as [|m0 ms]; [eexists; reflexivity|]. cbn [length Nat.ltb Nat.leb Nat.eqb andb].
    assert (Hf : negb (existsb (gostr_eqb t) (m0 :: ms)) = true).
    { apply negb_true_iff. destruct (existsb (gostr_eqb t) (m0 :: ms)) eqn:E; [|reflexivity].
      apply existsb_gostr_In in E. contradiction. }
    destruct (find_some_intro (fun t => negb (existsb (gostr_eqb t) (m0 :: ms))) _ t Ht Hf) as [y Hy]. rewrite Hy. eexists; reflexivity.
Qed.

(** X11.  The Postgres adapter never puts the password on the command line: pg_dump's and
    pg_restore's arguments do not depend on it.  The environment gets PGPASSWORD, when
    the password is non-empty, right after the four connection variables. *)
Theorem Postgres_password_only_in_env :
  forall LookPath environ int_seconds start_err allow cfg pw b r,
  cmd_line (Postgres_Dump LookPath environ int_seconds start_err allow (with_password cfg pw) b)
  = cmd_line (Postgres_Dump LookPath environ int_seconds start_err allow (with_password cfg []) b) /\
  cmd_line (Postgres_Restore LookPath environ int_seconds start_err allow (with_password cfg pw) r)
  = cmd_line (Postgres_Restore LookPath environ int_seconds start_err allow (with_password cfg []) r) /\
  (forall c, Postgres_Dump LookPath environ int_seconds start_err allow (with_password cfg pw) b = Ok c \/
             Postgres_Restore LookPath environ int_seconds start_err allow (with_password cfg pw) r = Ok c ->
   let E := buildPostgresEnv int_seconds (with_password cfg []) in
   CEnv c = environ ++ firstn 4 E ++ (if gostr_eqb pw [] then [] else [s2l "PGPASSWORD=" ++ pw]) ++ skipn 4 E).
Proof.
  intros. split; [|split].
  - unfold Postgres_Dump. destruct (check_tools _ _ _); [reflexivity|].
    destruct (unsupported_type _ _); [reflexivity|]. unfold start. destruct start_err; reflexivity.
  - unfold Postgres_Restore. destruct (check_tools _ _ _); [reflexivity|].
    unfold start. destruct start_err; reflexivity.
  - intros c H. cbv zeta. rewrite <- buildPostgresEnv_password. destruct H as [H|H].
    + unfold Postgres_Dump in H. destruct (check_tools _ _ _); [discriminate|].
      destruct (unsupported_type _ _); [discriminate|]. unfold start in H.
      destruct start_err; [discriminate|]. injection H as <-. reflexivity.
    + unfold Postgres_Restore in H. destruct (check_tools _ _ _); [discriminate|].
      unfold start in H. destruct start_err; [discriminate|]. injection H as <-. reflexivity.
Qed.

(** ** App.Restore *)

Lemma no_notify_nil : no_notify [].
Proof. intros st e []. Qed.

Lemma no_notify_app : forall l1 l2, no_notify l1 -> no_notify l2 -> no_notify (l1 ++ l2).
Proof. intros l1 l2 H1 H2 st e Hin. apply in_app_or in Hin. destruct Hin; [eapply H1|eapply H2]; eauto. Qed.

Lemma tracks_ret : forall A (a : A), tracks (rret a).
Proof.
  intros A a s H. simpl. split; [exact H|]. exists []. rewrite app_nil_r. split; [reflexivity|apply no_notify_nil].
Qed.

Lemma tracks_emit : forall ev, (forall st e, ev <> RNotify st e) -> tracks (remit ev).
Proof.
  intros ev Hev s H. simpl. split; [exact H|]. exists [ev]. split; [reflexivity|].
  intros st e [Heq|[]]. exact (Hev st e Heq).
Qed.

Lemma tracks_fail : forall A e, tracks (@rfail_op A e).
Proof.
  intros A e s H. simpl. split; [reflexivity|]. exists []. rewrite app_nil_r. split; [reflexivity|apply no_notify_nil].
Qed.

Lemma tracks_check : forall err, tracks (rcheck err).
Proof. intros [e|]; [apply tracks_fail|apply tracks_ret]. Qed.

Lemma tracks_bind : forall A B (m : RM A) (f : A -> RM B),
  tracks m -> (forall a, tracks (f a)) -> tracks (rmbind m f).
Proof.
  intros A B m f Hm Hf s Hs. unfold rmbind. specialize (Hm s Hs).
  destruct (m s) as [[a|e] s'] eqn:E.
  - destruct Hm as [H1 [l1 [H2 N1]]]. specialize (Hf a s' H1).
    destruct (f a s') as [[b|e'] s''];
    destruct Hf as [H3 [l2 [H4 N2]]]; (split; [exact H3|]); exists (l1 ++ l2);
    (split; [rewrite H4, H2, app_assoc; reflexivity|apply no_notify_app; assumption]).
  - exact Hm.
Qed.

Ltac not_notify := let st := fresh in let e := fresh in intros st e; discriminate.

Lemma tracks_readManifest : forall renv st key, tracks (readManifest renv st key).
Proof.
  intros. unfold readManifest. apply tracks_bind; [apply tracks_emit; not_notify|]. intros _.
  destruct (r_get_err _ _); [apply tracks_ret|].
  destruct (lookup _ _); [destruct (r_decode _ _)|]; apply tracks_ret.
Qed.

Lemma tracks_restore_body : forall lib cfg dryRun renv st key,
  tracks (restore_body lib cfg dryRun renv st key).
Proof.
  intros. unfold restore_body.
  apply tracks_bind; [apply tracks_emit; not_notify|intros _].
  apply tracks_bind; [apply tracks_check|intros _].
  apply tracks_bind; [apply tracks_readManifest|intros rm].
  destruct dryRun; [apply tracks_emit; not_notify|].
  apply tracks_bind; [apply tracks_emit; not_notify|intros _].
  destruct (r_get_err renv key); [apply tracks_fail|].
  apply tracks_bind.
  { destruct (_ || _); [|apply tracks_ret]. destruct (gostr_eqb _ _); [apply tracks_fail|].
    destruct (ParseKey _ _); [apply tracks_check|apply tracks_fail]. }
  intros _. apply tracks_bind.
  { destruct (WrapReader _ _); [|apply tracks_fail]. destruct (_ || _); [apply tracks_check|apply tracks_ret]. }
  intros _.
  repeat (apply tracks_bind; [first [apply tracks_emit; not_notify|apply tracks_check]|intros _]).
  apply tracks_check.
Qed.

(** X15.  [App.Restore] with a notifier sends exactly one notification, as its last step,
    whose status and error match its result; without a notifier it sends none. *)
Theorem Restore_notification_matches_result : forall lib cfg dryRun renv st key,
  let '(r, tr) := Restore lib cfg dryRun renv st key in
  (r_has_notifier renv = true ->
     exists pre, tr = pre ++ [RNotify (statusFromErr (err_of r)) (err_of r)] /\ no_notify pre) /\
  (r_has_notifier renv = false -> no_notify tr).
Proof.
  intros. unfold Restore.
  assert (Hpre : exists r s, (r, s) = match r_acquire_err renv with
                    | Some e => rfail_op e (mkRSt [RAcquire] None)
                    | None => let '(r, s) := restore_body lib cfg dryRun renv st key (mkRSt [RAcquire] None) in
                              (r, mkRSt (rtrace s ++ [RRelease]) (ropErr s))
                    end /\ ropErr s = err_of r /\ no_notify (rtrace s)).
  { destruct (r_acquire_err renv) as [e|].
    - exists (Err e), (mkRSt [RAcquire] (Some e)). split; [reflexivity|]. split; [reflexivity|].
      intros st' e' [H|[]]. discriminate.
    - pose proof (tracks_restore_body lib cfg dryRun renv st key (mkRSt [RAcquire] None) eq_refl) as T.
      destruct (restore_body lib cfg dryRun renv st key (mkRSt [RAcquire] None)) as [[u|e] s'].
      + destruct T as [H1 [l [H2 N]]]. exists (Ok u), (mkRSt (rtrace s' ++ [RRelease]) (ropErr s')).
        split; [reflexivity|]. split; [exact H1|]. cbn [rtrace]. rewrite H2.
        apply no_notify_app; [apply no_notify_app; [|exact N]|].
        * intros st' e' [H|[]]. discriminate.
        * intros st' e' [H|[]]. discriminate.
      + destruct T as [H1 [l [H2 N]]]. exists (Err e), (mkRSt (rtrace s' ++ [RRelease]) (ropErr s')).
        split; [reflexivity|]. split; [exact H1|]. cbn [rtrace]. rewrite H2.
        apply no_notify_app; [apply no_notify_app; [|exact N]|].
        * intros st' e' [H|[]]. discriminate.
        * intros st' e' [H|[]]. discriminate. }
  destruct Hpre as (r & s & Heq & Herr & N). rewrite <- Heq.
  split.
  - intros Hn. rewrite Hn. exists (rtrace s). rewrite Herr. split; [reflexivity|exact N].
  - intros Hn. rewrite Hn. exact N.
Qed.

(** X16.  A dry-run restore whose lock and validation succeed only reads the manifest,
    logs, releases the lock and returns success: it never reads the artifact nor starts
    the adapter, even when the manifest is missing or unreadable. *)
Theorem Restore_dry_run : forall lib cfg renv st key,
  r_acquire_err renv = None -> r_validate_err renv = None ->
  Restore lib cfg true renv st key
  = (Ok tt, notified renv (Ok tt)
              [RAcquire; RValidate; RGet (ManifestKey key); RLog (s2l "dry run restore"); RRelease]).
Proof.
  intros lib cfg renv st key Ha Hv. unfold Restore, notified. rewrite Ha.
  unfold restore_body, rmbind, remit, rcheck. rewrite Hv. unfold rret, readManifest, rmbind, remit.
  destruct (r_get_err renv (ManifestKey key)); [reflexivity|].
  destruct (lookup (ManifestKey key) st) as [o|]; [destruct (r_decode renv (data o))|]; reflexivity.
Qed.

Lemma Restore_dry_run_witness :
  (r_acquire_err sample_renv = None /\ r_validate_err sample_renv = None) /\
  Restore sample_lib sample_cfg true sample_renv [] (s2l "k")
  = (Ok tt, notified sample_renv (Ok tt)
              [RAcquire; RValidate; RGet (ManifestKey (s2l "k")); RLog (s2l "dry run restore");
               RRelease]).
Proof.
  split; [split; reflexivity|].
  apply Restore_dry_run; reflexivity.
Defined.

Lemma readManifest_run : forall renv st key s,
  exists rm, readManifest renv st key s = (Ok rm, mkRSt (rtrace s ++ [RGet (ManifestKey key)]) (ropErr s)) /\
    match rm with Ok m => m | Err _ => zero_manifest end = manifest_of renv st key.
Proof.
  intros. unfold readManifest, manifest_of, rmbind, remit, rret.
  destruct (r_get_err renv (ManifestKey key)); [eexists; split; reflexivity|].
  destruct (lookup (ManifestKey key) st) as [o|]; [destruct (r_decode renv (data o))|];
    eexists; split; reflexivity.
Qed.

Ltac restore_fwd :=
  repeat (match goal with
          | H : false = true |- _ => discriminate H
          | |- _ /\ _ => split
          | |- _ -> _ => intros ?
          | |- exists _, _ = _ => eexists
          end);
  first [reflexivity | discriminate | congruence].

Ltac restore_bwd :=
  unfold rret, rmbind, remit, rcheck; simpl;
  destruct (r_adapter_err _ _), (r_copy_err _), (r_close_err _), (r_wait_err _),
    (r_has_notifier _); simpl; auto 20.

(** X17.  [App.Restore] starts the adapter's restore exactly when the lock and validation
    succeed, the run is not a dry run, and [Storage.Get] of the key returns a reader; when
    encryption applies (the manifest's flag or the configured one), the key must be
    non-empty, parse, and [DecryptReader] must succeed; the effective compression (the
    manifest's, else the configured one) must be known to [WrapReader], and for gzip or
    zstd its reader must open.  Whether the store holds the artifact plays no role of its
    own: a [Storage.Get] that returns a reader for a missing object (S3's lazy
    [GetObject]) lets the adapter start. *)
Theorem Restore_adapter_reached_only_if : forall lib cfg dryRun renv st key,
  let m := manifest_of renv st key in
  let compression := if gostr_eqb (MCompression m) [] then Compression cfg else MCompression m in
  In RAdapterRestore (snd (Restore lib cfg dryRun renv st key)) <->
  r_acquire_err renv = None /\ r_validate_err renv = None /\ dryRun = false /\
  r_get_err renv key = None /\
  (MEncryption m || Encryption cfg = true ->
     gostr_eqb (EncryptionKey cfg) [] = false /\
     (exists k, ParseKey lib (EncryptionKey cfg) = Ok k) /\ r_decrypt_err renv = None) /\
  (exists rd, WrapReader lib compression = Ok rd) /\
  (gostr_eqb compression TypeGzip || gostr_eqb compression TypeZstd = true ->
     r_reader_err renv = None).
Proof.
  intros lib cfg dryRun renv st key m compression. unfold Restore.
  destruct (r_acquire_err renv) as [e|].
  { split; [|intros (H & _); discriminate].
    intros H. simpl in H. destruct (r_has_notifier renv); simpl in H; intuition discriminate. }
  unfold restore_body at 1, rmbind at 1, remit at 1.
  unfold rmbind at 1, rcheck at 1.
  destruct (r_validate_err renv) as [e|].
  { split; [|intros (_ & H & _); discriminate].
    intros H. simpl in H. destruct (r_has_notifier renv); simpl in H; intuition discriminate. }
  unfold rret at 1, rmbind at 1. cbn [rtrace ropErr app].
  destruct (readManifest_run renv st key (mkRSt [RAcquire; RValidate] None)) as (rm & Hrm & Hm).
  cbn [rtrace ropErr app] in Hrm. rewrite Hrm, Hm. fold m.
  destruct dryRun.
  { split; [|intros (_ & _ & H & _); discriminate].
    intros H. simpl in H. destruct (r_has_notifier renv); simpl in H; intuition discriminate. }
  unfold rmbind at 1, remit at 1.
  destruct (r_get_err renv key) as [e|].
  { split; [|intros (_ & _ & _ & H & _); discriminate].
    intros H. simpl in H. destruct (r_has_notifier renv); simpl in H; intuition discriminate. }
  unfold rmbind at 1. fold compression.
  destruct (MEncryption m || Encryption cfg) eqn:Hem.
  - destruct (gostr_eqb (EncryptionKey cfg) []) eqn:Hk.
    { split; [|intros (_ & _ & _ & _ & H & _); destruct (H eq_refl); discriminate].
      intros H. simpl in H. destruct (r_has_notifier renv); simpl in H; intuition discriminate. }
    destruct (ParseKey lib (EncryptionKey cfg)) as [k|e] eqn:Hp.
    2:{ split; [|intros (_ & _ & _ & _ & H & _); destruct (H eq_refl) as (_ & [k' Hk'] & _);
                 discriminate].
        intros H. simpl in H. destruct (r_has_notifier renv); simpl in H; intuition discriminate. }
    unfold rcheck at 1. destruct (r_decrypt_err renv) as [e|].
    { split; [|intros (_ & _ & _ & _ & H & _); destruct (H eq_refl) as (_ & _ & Hd);
               discriminate].
      intros H. simpl in H. destruct (r_has_notifier renv); simpl in H; intuition discriminate. }
    unfold rret at 1, rmbind at 1.
    destruct (WrapReader lib compression) as [rd|e] eqn:Hw.
    2:{ split; [|intros (_ & _ & _ & _ & _ & [rd' Hrd] & _); discriminate].
        intros H. simpl in H. destruct (r_has_notifier renv); simpl in H; intuition discriminate. }
    destruct (gostr_eqb compression TypeGzip || gostr_eqb compression TypeZstd) eqn:Hc.
    + unfold rcheck at 1. destruct (r_reader_err renv) as [e|].
      { split; [|intros (_ & _ & _ & _ & _ & _ & H); specialize (H eq_refl); discriminate].
        intros H. simpl in H. destruct (r_has_notifier renv); simpl in H; intuition discriminate. }
      split; [intros _|intros _; restore_bwd].
      restore_fwd.
    + split; [intros _|intros _; restore_bwd].
      restore_fwd.
  - unfold rret at 1, rmbind at 1.
    destruct (WrapReader lib compression) as [rd|e] eqn:Hw.
    2:{ split; [|intros (_ & _ & _ & _ & _ & [rd' Hrd] & _); discriminate].
        intros H. simpl in H. destruct (r_has_notifier renv); simpl in H; intuition discriminate. }
    destruct (gostr_eqb compression TypeGzip || gostr_eqb compression TypeZstd) eqn:Hc.
    + unfold rcheck at 1. destruct (r_reader_err renv) as [e|].
      { split; [|intros (_ & _ & _ & _ & _ & _ & H); specialize (H eq_refl); discriminate].
        intros H. simpl in H. destruct (r_has_notifier renv); simpl in H; intuition discriminate. }
      split; [intros _|intros _; restore_bwd].
      restore_fwd.
    + split; [intros _|intros _; restore_bwd].
      restore_fwd.
Qed.

(** A witness of [Restore_adapter_reached_only_if]: with a [Storage.Get] that returns a
    reader for any key, a restore from an empty store starts the adapter. *)
Lemma Restore_adapter_reached_only_if_witness :
  lookup (s2l "k") [] = None /\
  In RAdapterRestore (snd (Restore sample_lib sample_cfg false sample_renv [] (s2l "k"))).
Proof.
  split; [reflexivity|].
  apply (proj2 (Restore_adapter_reached_only_if sample_lib sample_cfg false sample_renv []
                  (s2l "k"))).
  vm_compute. restore_fwd.
Defined.

(** ** Backup: a successful run stores the artifact and its manifest *)

Lemma lookup_store_put : forall k k' o st,
  lookup k (store_put k' o st) = if gostr_eqb k' k then Some o else lookup k st.
Proof.
  intros k k' o st. unfold store_put. simpl. destruct (gostr_eqb k' k) eqn:E; [reflexivity|].
  apply lookup_remove_other. rewrite gostr_eqb_sym. exact E.
Qed.

Lemma finish_success : forall lib cfg env key s r s',
  retention_off cfg -> put_fail env (ManifestKey key) = None ->
  backup_finish lib cfg env key s = (Ok r, s') ->
  r = key /\ store s' = store_put (ManifestKey key) (mkObj (manifest_json env) (now_unix env)) (store s).
Proof.
  intros lib cfg env key s r s' [Hd [Hl Hm]] Hpf H.
  unfold backup_finish, mbind, emit in H. cbv beta iota in H.
  destruct (stat_err env); [discriminate|].
  unfold storage_put in H. rewrite Hpf in H. cbv beta iota zeta in H.
  unfold retention_st, mbind, get in H. cbv beta iota in H.
  unfold applyRetention in H. rewrite Hd, Hl, Hm in H. cbn [Z.eqb andb delete_all] in H.
  unfold mret in H. injection H as <- <-. split; reflexivity.
Qed.

Lemma pipeline_success : forall lib cfg env key s r s',
  backup_pipeline lib cfg env key s = (Ok r, s') ->
  exists d, encode_task lib cfg (dump_read env) = Ok d /\ put_fail env key = None /\
    exists s1, store s1 = store_put key (mkObj d (now_unix env)) (store s) /\
      backup_finish lib cfg env key s1 = (Ok r, s').
Proof.
  intros lib cfg env key s r s' H. unfold backup_pipeline in H.
  destruct (dump_err env); [discriminate|].
  unfold mbind, emit in H. cbv beta iota in H.
  destruct (wait_err env) as [e|].
  - destruct (storage_put_shape env key (if wait_cuts_pipe env then Err e else encode_task lib cfg (dump_read env))
                (add_ev EvWait (add_ev EvDump s))) as (o & st & Hp).
    rewrite Hp in H. cbv beta iota in H. discriminate.
  - destruct (encode_task lib cfg (dump_read env)) as [d|e] eqn:Henc.
    + unfold storage_put in H. destruct (put_fail env key) as [e|] eqn:Hpf.
      * cbv beta iota zeta in H. discriminate.
      * cbv beta iota zeta in H. exists d. split; [reflexivity|]. split; [reflexivity|].
        eexists. split; [|exact H]. reflexivity.
    + destruct (storage_put_shape env key (Err e) (add_ev EvWait (add_ev EvDump s))) as (o & st & Hp).
      rewrite Hp in H. cbv beta iota in H. discriminate.
Qed.

Lemma body_success : forall lib cfg env s r s',
  backup_body lib cfg env s = (Ok r, s') ->
  exists s0, store s0 = store s /\ backup_pipeline lib cfg env (backup_key cfg env) s0 = (Ok r, s').
Proof.
  intros lib cfg env s r s' H. unfold backup_body in H.
  destruct (InWindow _ _ _ _ _) as [[|]|e]; [|discriminate|discriminate].
  destruct (validate_err env); [discriminate|].
  destruct (_ && negb (cap_incremental env)); [discriminate|].
  destruct (_ && negb (cap_differential env)); [discriminate|].
  destruct (_ && _); [discriminate|].
  destruct (Idempotent cfg).
  - unfold mbind, emit, get in H. cbv beta iota in H.
    destruct (exists_err env); [discriminate|].
    destruct (in_store _ _); [discriminate|].
    unfold mret in H. eexists. split; [|exact H]. reflexivity.
  - unfold mbind, mret in H. eexists. split; [|exact H]. reflexivity.
Qed.

Lemma delete_all_ok : forall ks s, exists s', delete_all ks s = (Ok tt, s').
Proof.
  induction ks as [|k ks IH]; intros s; [eexists; reflexivity|].
  simpl. unfold mbind, storage_delete. apply IH.
Qed.

Lemma finish_returns_key : forall lib cfg env key s r s',
  backup_finish lib cfg env key s = (Ok r, s') -> key = r.
Proof.
  intros lib cfg env key s r s' H.
  unfold backup_finish, mbind at 1, emit in H. cbv beta iota in H.
  destruct (stat_err env); [discriminate|].
  unfold mbind at 1 in H.
  destruct (storage_put_shape env (ManifestKey key) (Ok (manifest_json env)) (add_ev (EvStat key) s))
    as (o & st & Hp). rewrite Hp in H. cbv beta iota in H.
  unfold mbind at 1 in H.
  destruct o; unfold emit, mret at 1 in H; cbv beta iota in H;
  unfold retention_st at 1 in H; unfold mbind, get in H; cbv beta iota in H;
  match type of H with
  | (let (_, _) := delete_all ?ks ?s2 in _) = _ =>
      destruct (delete_all_ok ks s2) as [s3 Hd]; rewrite Hd in H
  end; unfold mret in H; congruence.
Qed.

(** X18.  When retention is off and the manifest write succeeds, a successful [App.Backup]
    returns the key built by [BuildObjectKey].  The store then holds the encoded dump
    under that key and the manifest JSON under its manifest key. *)
Theorem Backup_success_stores_artifact_and_manifest : forall lib cfg env store0 key,
  retention_off cfg -> put_fail env (ManifestKey key) = None ->
  fst (Backup lib cfg env store0) = Ok key ->
  key = backup_key cfg env /\
  (exists d, encode_task lib cfg (dump_read env) = Ok d /\
     lookup key (store (snd (Backup lib cfg env store0))) = Some (mkObj d (now_unix env))) /\
  lookup (ManifestKey key) (store (snd (Backup lib cfg env store0)))
    = Some (mkObj (manifest_json env) (now_unix env)).
Proof.
  intros lib cfg env store0 key Hoff Hpf H. unfold Backup in *.
  destruct (acquire_err env); [discriminate|].
  destruct (backup_body lib cfg env (add_ev EvAcquire (mkSt store0 [] None))) as [r s] eqn:Hb.
  cbn [fst] in H. subst r.
  destruct (body_success _ _ _ _ _ _ Hb) as (s0 & Hs0 & Hp).
  destruct (pipeline_success _ _ _ _ _ _ _ Hp) as (d & Henc & Hpk & s1 & Hs1 & Hf).
  assert (Hk : key = backup_key cfg env) by (symmetry; exact (finish_returns_key _ _ _ _ _ _ _ Hf)).
  subst key.
  destruct (finish_success _ _ _ _ _ _ _ Hoff Hpf Hf) as [_ Hst].
  assert (Hstore : store (if has_notifier env then add_ev (EvNotify (statusFromErr (opErr (add_ev EvRelease s))) (opErr (add_ev EvRelease s))) (add_ev EvRelease s) else add_ev EvRelease s) = store s)
    by (destruct (has_notifier env); reflexivity).
  cbn [snd]. rewrite Hstore, Hst.
  split; [reflexivity|]. split.
  - exists d. split; [exact Henc|]. rewrite lookup_store_put, gostr_eqb_sym, key_not_manifest_key.
    rewrite Hs1, lookup_store_put, gostr_eqb_refl. reflexivity.
  - rewrite lookup_store_put, gostr_eqb_refl. reflexivity.
Qed.

Lemma Backup_success_stores_artifact_and_manifest_witness :
  (retention_off sample_cfg /\
   put_fail sample_env (ManifestKey (backup_key sample_cfg sample_env)) = None /\
   fst (Backup sample_lib sample_cfg sample_env []) = Ok (backup_key sample_cfg sample_env)) /\
  (backup_key sample_cfg sample_env = backup_key sample_cfg sample_env /\
   (exists d, encode_task sample_lib sample_cfg (dump_read sample_env) = Ok d /\
      lookup (backup_key sample_cfg sample_env)
        (store (snd (Backup sample_lib sample_cfg sample_env []))) = Some (mkObj d (now_unix sample_env))) /\
   lookup (ManifestKey (backup_key sample_cfg sample_env))
     (store (snd (Backup sample_lib sample_cfg sample_env [])))
   = Some (mkObj (manifest_json sample_env) (now_unix sample_env))).
Proof.
  assert (Hr : retention_off sample_cfg) by (split; [reflexivity | split; reflexivity]).
  assert (Hb : fst (Backup sample_lib sample_cfg sample_env [])
               = Ok (backup_key sample_cfg sample_env)) by (vm_compute; reflexivity).
  split; [split; [exact Hr | split; [reflexivity | exact Hb]]|].
  exact (Backup_success_stores_artifact_and_manifest sample_lib sample_cfg sample_env []
           (backup_key sample_cfg sample_env) Hr eq_refl Hb).
Defined.

(** ** Config paths *)

Lemma gostr_eqb_app_r : forall x y s, gostr_eqb (x ++ s) (y ++ s) = gostr_eqb x y.
Proof.
  intros x y s. destruct (gostr_eqb x y) eqn:E.
  - apply gostr_eqb_eq in E. subst. apply gostr_eqb_refl.
  - apply gostr_eqb_neq. intros H. apply app_inv_tail in H. subst. rewrite gostr_eqb_refl in E. discriminate.
Qed.

Lemma HasSuffix_app_same : forall p q s, HasSuffix (p ++ s) (q ++ s) = HasSuffix p q.
Proof.
  intros p q s. unfold HasSuffix. rewrite !length_app.
  destruct (length q <=? length p) eqn:E.
  - apply Nat.leb_le in E.
    replace (length q + length s <=? length p + length s) with true by (symmetry; apply Nat.leb_le; lia).
    replace (length p + length s - (length q + length s)) with (length p - length q) by lia.
    rewrite skipn_app. replace (length p - length q - length p) with 0 by lia.
    simpl. apply gostr_eqb_app_r.
  - apply Nat.leb_gt in E.
    replace (length q + length s <=? length p + length s) with false by (symmetry; apply Nat.leb_gt; lia).
    reflexivity.
Qed.

Lemma HasSuffix_app_r : forall p a b, HasSuffix p (a ++ b) = true -> HasSuffix p b = true.
Proof.
  intros p a b H. unfold HasSuffix in *. apply andb_prop in H as [H1 H2].
  apply Nat.leb_le in H1. rewrite length_app in H1. apply gostr_eqb_eq in H2.
  apply andb_true_intro. split; [apply Nat.leb_le; lia|].
  replace (length p - length b) with (length a + (length p - length (a ++ b)))
    by (rewrite length_app; lia).
  rewrite <- skipn_skipn, H2, skipn_app, skipn_all, Nat.sub_diag. apply gostr_eqb_refl.
Qed.

Lemma HasSuffix_last_false : forall s suf d, suf <> [] -> last s d <> last suf d ->
  HasSuffix s suf = false.
Proof.
  intros s suf d Hne Hl. destruct (HasSuffix s suf) eqn:E; [|reflexivity].
  exfalso. apply Hl. apply HasSuffix_last; assumption.
Qed.

Lemma last_app_enc : forall p (e : gostr) d, e <> [] -> last (p ++ e) d = last e d.
Proof. intros. apply last_app_ne. assumption. Qed.

(** X19.  Appending ".enc" or ".encrypted" to a config path that is not encrypted makes
    [isEncryptedPath] true and leaves the format chosen by [configTypeFromPath]
    unchanged. *)
Theorem encrypted_name_keeps_type : forall p suf,
  suf = s2l ".enc" \/ suf = s2l ".encrypted" ->
  isEncryptedPath p = false ->
  isEncryptedPath (p ++ suf) = true /\ configTypeFromPath (p ++ suf) = configTypeFromPath p.
Proof.
  intros p suf Hsuf Hp. unfold isEncryptedPath in Hp. apply orb_false_elim in Hp as [He1 He2].
  assert (Hno : forall x, HasSuffix p (x ++ s2l ".enc") = false /\ HasSuffix p (x ++ s2l ".encrypted") = false).
  { intros x. split.
    - destruct (HasSuffix p (x ++ s2l ".enc")) eqn:E; [|reflexivity].
      apply HasSuffix_app_r in E. congruence.
    - destruct (HasSuffix p (x ++ s2l ".encrypted")) eqn:E; [|reflexivity].
      apply HasSuffix_app_r in E. congruence. }
  destruct (Hno (s2l ".toml")) as [T1 T2]. destruct (Hno (s2l ".json")) as [J1 J2].
  destruct Hsuf as [-> | ->]; split; unfold isEncryptedPath, configTypeFromPath;
  change (s2l ".toml.enc") with (s2l ".toml" ++ s2l ".enc");
  change (s2l ".toml.encrypted") with (s2l ".toml" ++ s2l ".encrypted");
  change (s2l ".json.enc") with (s2l ".json" ++ s2l ".enc");
  change (s2l ".json.encrypted") with (s2l ".json" ++ s2l ".encrypted").
  - rewrite HasSuffix_app. reflexivity.
  - rewrite !HasSuffix_app_same, T1, T2, J1, J2.
    rewrite (HasSuffix_last_false (p ++ s2l ".enc") (s2l ".toml") "a"%char) by (try discriminate; rewrite last_app_enc; discriminate).
    rewrite (HasSuffix_last_false (p ++ s2l ".enc") (s2l ".json") "a"%char) by (try discriminate; rewrite last_app_enc; discriminate).
    rewrite (HasSuffix_last_false (p ++ s2l ".enc") (s2l ".toml" ++ s2l ".encrypted") "a"%char) by (try discriminate; rewrite last_app_enc; discriminate).
    rewrite (HasSuffix_last_false (p ++ s2l ".enc") (s2l ".json" ++ s2l ".encrypted") "a"%char) by (try discriminate; rewrite last_app_enc; discriminate).
    rewrite ?orb_false_r, ?orb_false_l. reflexivity.
  - rewrite HasSuffix_app, orb_true_r. reflexivity.
  - rewrite !HasSuffix_app_same, T1, T2, J1, J2.
    rewrite (HasSuffix_last_false (p ++ s2l ".encrypted") (s2l ".toml") "a"%char) by (try discriminate; rewrite last_app_enc; discriminate).
    rewrite (HasSuffix_last_false (p ++ s2l ".encrypted") (s2l ".json") "a"%char) by (try discriminate; rewrite last_app_enc; discriminate).
    rewrite (HasSuffix_last_false (p ++ s2l ".encrypted") (s2l ".toml" ++ s2l ".enc") "a"%char) by (try discriminate; rewrite last_app_enc; discriminate).
    rewrite (HasSuffix_last_false (p ++ s2l ".encrypted") (s2l ".json" ++ s2l ".enc") "a"%char) by (try discriminate; rewrite last_app_enc; discriminate).
    rewrite ?orb_false_r, ?orb_false_l. reflexivity.
Qed.

Lemma encrypted_name_keeps_type_witness :
  ((s2l ".enc" = s2l ".enc" \/ s2l ".enc" = s2l ".encrypted") /\
   isEncryptedPath (s2l "dbu.toml") = false) /\
  isEncryptedPath (s2l "dbu.toml" ++ s2l ".enc") = true /\
  configTypeFromPath (s2l "dbu.toml" ++ s2l ".enc") = configTypeFromPath (s2l "dbu.toml").
Proof.
  split; [split; [left; reflexivity | vm_compute; reflexivity]|].
  apply encrypted_name_keeps_type; [left; reflexivity | vm_compute; reflexivity].
Defined.

Lemma first_existing_In : forall stat f cs p,
  first_existing stat f cs = Some p -> exists c, In c cs /\ p = f c /\ stat p = true.
Proof.
  intros stat f. induction cs as [|c cs IH]; intros p H; [discriminate|]. simpl in H.
  destruct (stat (f c)) eqn:E.
  - injection H as <-. exists c. split; [left; reflexivity|]. split; [reflexivity|exact E].
  - destruct (IH p H) as (c' & Hc & Hp & Hs). exists c'. split; [right; exact Hc|]. auto.
Qed.

Lemma Join_last_seg : forall b c, seg_ok c = true -> exists P, Join [b; c] = P ++ c.
Proof.
  intros b c Hc. destruct c as [|x s]; [discriminate|].
  unfold Join. cbn [fold_left].
  destruct (Nat.eqb_spec (0 + length b + length (x :: s)) 0) as [E|E]; [simpl in E; lia|].
  cbn [join_buf]. destruct b as [|y b].
  - cbn [length Nat.ltb Nat.leb orb app]. 
    exists []. pose proof (Clean_path_of [x :: s]) as H0. unfold path_of in H0.
    cbn [map concat] in H0. rewrite app_nil_r in H0. cbn [app].
    apply H0; [discriminate|repeat constructor; exact Hc].
  - cbn [length Nat.ltb Nat.leb orb app].
    replace ((y :: b) ++ [slash]) with ((y :: b) ++ [slash]) by reflexivity.
    rewrite <- app_assoc. cbn [app].
    destruct (Clean_last_seg (y :: b) x s Hc) as (P & HP). exists P.
    cbn [app] in HP. exact HP.
Qed.

Lemma plain_candidate_not_encrypted : forall P c, In c config_candidates ->
  isEncryptedPath (P ++ c) = false.
Proof.
  intros P c Hc. unfold isEncryptedPath.
  assert (Hne : c <> []) by (destruct Hc as [<-|[<-|[<-|[<-|[]]]]]; discriminate).
  assert (Hl : last c "a"%char <> "c"%char /\ last c "a"%char <> "d"%char)
    by (destruct Hc as [<-|[<-|[<-|[<-|[]]]]]; split; discriminate).
  rewrite !(HasSuffix_last_false (P ++ c) _ "a"%char); try discriminate; try reflexivity;
    rewrite last_app_ne by exact Hne; [exact (proj2 Hl)|exact (proj1 Hl)].
Qed.

(** X20.  With no explicit path and no DBU_CONFIG, [resolveConfigPath] returns an encrypted
    path only from the user config directory.  It is one of dbu/dbu.yaml.enc,
    dbu/dbu.yml.enc and dbu/dbu.toml.enc there, and it exists.  An encrypted file in the
    working directory, or a dbu.json.enc, is never found. *)
Theorem resolveConfigPath_encrypted_only_from_config_dir : forall stat configDir,
  isEncryptedPath (resolveConfigPath [] [] stat configDir) = true ->
  exists dir c, configDir = Ok dir /\ In c encrypted_candidates /\
    resolveConfigPath [] [] stat configDir = Join [Join [dir; s2l "dbu"]; c] /\
    stat (resolveConfigPath [] [] stat configDir) = true.
Proof.
  intros stat configDir H. unfold resolveConfigPath in *. cbn [gostr_eqb negb] in *.
  destruct (first_existing stat (fun c => c) config_candidates) as [p|] eqn:E1.
  { exfalso. destruct (first_existing_In _ _ _ _ E1) as (c & Hc & -> & _).
    rewrite <- (app_nil_l c), plain_candidate_not_encrypted in H by exact Hc. discriminate. }
  destruct configDir as [dir|e]; [|discriminate].
  destruct (first_existing stat (fun c => Join [Join [dir; s2l "dbu"]; c]) config_candidates)
    as [p|] eqn:E2.
  { exfalso. destruct (first_existing_In _ _ _ _ E2) as (c & Hc & -> & _).
    assert (Hs : seg_ok c = true) by (destruct Hc as [<-|[<-|[<-|[<-|[]]]]]; reflexivity).
    destruct (Join_last_seg (Join [dir; s2l "dbu"]) c Hs) as (P & HP). rewrite HP in H.
    rewrite plain_candidate_not_encrypted in H by exact Hc. discriminate. }
  destruct (first_existing stat (fun c => Join [Join [dir; s2l "dbu"]; c]) encrypted_candidates)
    as [p|] eqn:E3; [|discriminate].
  destruct (first_existing_In _ _ _ _ E3) as (c & Hc & Hp & Hs).
  exists dir, c. auto.
Qed.

Lemma resolveConfigPath_encrypted_only_from_config_dir_witness :
  isEncryptedPath
    (resolveConfigPath [] [] (fun p => gostr_eqb p (s2l "/home/u/.config/dbu/dbu.toml.enc"))
       (Ok (s2l "/home/u/.config"))) = true /\
  exists dir c, @Ok gostr (s2l "/home/u/.config") = Ok dir /\ In c encrypted_candidates /\
    resolveConfigPath [] [] (fun p => gostr_eqb p (s2l "/home/u/.config/dbu/dbu.toml.enc"))
      (Ok (s2l "/home/u/.config")) = Join [Join [dir; s2l "dbu"]; c] /\
    (fun p => gostr_eqb p (s2l "/home/u/.config/dbu/dbu.toml.enc"))
      (resolveConfigPath [] [] (fun p => gostr_eqb p (s2l "/home/u/.config/dbu/dbu.toml.enc"))
         (Ok (s2l "/home/u/.config"))) = true.
Proof.
  assert (H : isEncryptedPath
    (resolveConfigPath [] [] (fun p => gostr_eqb p (s2l "/home/u/.config/dbu/dbu.toml.enc"))
       (Ok (s2l "/home/u/.config"))) = true) by (vm_compute; reflexivity).
  split; [exact H|].
  exact (resolveConfigPath_encrypted_only_from_config_dir
           (fun p => gostr_eqb p (s2l "/home/u/.config/dbu/dbu.toml.enc"))
           (Ok (s2l "/home/u/.config")) H).
Defined.

(** ** pg_dump's schema and data flags *)

Lemma fold_left_app_flat_map : forall {A} (f : A -> list gostr) (l : list A) (a : list gostr),
  fold_left (fun args x => args ++ f x) l a = a ++ flat_map f l.
Proof.
  intros A f. induction l as [|x l IH]; intros a; simpl.
  - rewrite app_nil_r. reflexivity.
  - rewrite IH, app_assoc. reflexivity.
Qed.

(** X14.  When [IncludeSchema] and [IncludeData] are equal (in particular both false),
    pg_dump gets neither --schema-only nor --data-only, so it dumps schema and data. *)
Theorem Postgres_Dump_schema_data_same : forall LookPath environ int_seconds start_err allow cfg b c,
  IncludeSchema b = IncludeData b ->
  Postgres_Dump LookPath environ int_seconds start_err allow cfg b = Ok c ->
  Path c = s2l "pg_dump" /\
  Args c = [s2l "--format=custom"; s2l "--no-owner"; s2l "--no-privileges"]
           ++ flat_map (fun tbl => [s2l "--table"; tbl]) (Tables b) ++ [DatabaseName cfg].
Proof.
  intros LookPath environ int_seconds start_err allow cfg b c Hsd H.
  unfold Postgres_Dump, start in H. destruct (check_tools _ _ _); [discriminate|].
  destruct (unsupported_type _ _); [discriminate|]. destruct start_err; [discriminate|].
  injection H as <-. cbn [Path Args]. split; [reflexivity|].
  rewrite Hsd. destruct (IncludeData b); cbn [andb negb].
  all: rewrite fold_left_app_flat_map, <- app_assoc; reflexivity.
Qed.

Lemma Postgres_Dump_schema_data_same_witness :
  IncludeSchema sample_backup_cfg = IncludeData sample_backup_cfg /\
  exists c,
    Postgres_Dump (fun _ => true) [] (fun d => d / 1000000000)%Z None false sample_db
      sample_backup_cfg = Ok c /\
    Path c = s2l "pg_dump" /\
    Args c = [s2l "--format=custom"; s2l "--no-owner"; s2l "--no-privileges"]
             ++ flat_map (fun tbl => [s2l "--table"; tbl]) (Tables sample_backup_cfg)
             ++ [DatabaseName sample_db].
Proof.
  split; [reflexivity|].
  destruct (Postgres_Dump (fun _ => true) [] (fun d => d / 1000000000)%Z None false sample_db
              sample_backup_cfg) as [c|e] eqn:E.
  - exists c. split; [reflexivity|].
    exact (Postgres_Dump_schema_data_same (fun _ => true) [] (fun d => d / 1000000000)%Z None
             false sample_db sample_backup_cfg c eq_refl E).
  - vm_compute in E. discriminate E.
Defined.
